(** * eBCSgen core: agents, rules, models

    A shallow embedding of [Core/Atomic.py], [Core/Rule.py] and
    [Core/Model.py].  Python sets and dictionaries are finite sets and
    maps; where the iteration order of a set or dictionary can be
    observed, it is given as the list of its elements in that order.  A
    method that can raise returns an [option].  Rules are objects that
    [Model.eliminate_redundant] compares by identity and mutates: a store
    maps addresses to rule objects and a model holds addresses.  The
    classes Complex, Side, Reaction and Rate are not among the sources:
    their data is modelled from the specification and their methods are
    parameters.  Structure agents are absent as well, so agents are
    atomic agents and the structure signature, which no atomic agent
    reads, is left out. *)

From stdpp Require Import base option list strings gmap gmultiset sorting
  pretty.
From Stdlib Require Import ZArith Lia.

Local Open Scope string_scope.
Local Open Scope list_scope.

(** ** Core/Atomic.py *)

Module Atomic.

Record AtomicAgent := mkAtomic { name : string; state : string }.

(** __eq__ between two atomic agents: same name and same state. *)
Definition eqb (a b : AtomicAgent) : bool :=
  bool_decide (name a = name b) && bool_decide (state a = state b).

#[global] Instance AtomicAgent_eq_dec : EqDecision AtomicAgent.
Proof. solve_decision. Defined.

#[global] Instance AtomicAgent_countable : Countable AtomicAgent.
Proof.
  apply (inj_countable' (fun a => (name a, state a))
                        (fun p => mkAtomic p.1 p.2)).
  by intros [].
Defined.

(** What a method of [AtomicAgent] can receive as [other]: an atomic
    agent, an integer (the markers -1 and 1 of [Rule.create_reactions])
    or [None]. *)
Inductive Operand :=
| OAtomic (a : AtomicAgent)
| OInt (z : Z)
| ONone.

#[global] Instance Operand_eq_dec : EqDecision Operand.
Proof. solve_decision. Defined.

(** [type(self) == type(other)] for an atomic [self]. *)
Definition same_type (other : Operand) : bool :=
  match other with OAtomic _ => true | _ => false end.

(** AtomicAgent.compatible *)
Definition compatible (self : AtomicAgent) (other : Operand) : bool :=
  match other with
  | OAtomic o =>
      eqb self o
      || (bool_decide (name self = name o) && bool_decide (state self = "_"))
  | _ => false
  end.

(** AtomicAgent.reduce_context *)
Definition reduce_context (self : AtomicAgent) : AtomicAgent :=
  mkAtomic (name self) "_".

(** A pair produced by [add_context]; [None] is Python's None. *)
Abbreviation AgentPair := (option AtomicAgent * option AtomicAgent)%type.

(** [for state in states: result.add(mk state)], starting from the
    empty set. *)
Definition add_each (mk : string -> AgentPair) (states : gset string)
  : gset AgentPair :=
  foldl (fun result st => {[ mk st ]} ∪ result) ∅ (elements states).

(** AtomicAgent.add_context; [None] is the KeyError of
    [atomic_signature[self.name]]. *)
Definition add_context (self : AtomicAgent) (other : Operand)
    (atomic_signature : gmap string (gset string))
  : option (gset AgentPair) :=
  match other with
  | OAtomic o =>
      if bool_decide (state self = "_") && bool_decide (state o = "_") then
        states ← atomic_signature !! name self;
        Some (add_each (fun st => (Some (mkAtomic (name self) st),
                                   Some (mkAtomic (name self) st))) states)
      else Some {[ (Some self, Some o) ]}
  | _ =>
      if bool_decide (other = OInt (-1)) then
        if bool_decide (state self = "_") then
          states ← atomic_signature !! name self;
          Some (add_each (fun st => (None, Some (mkAtomic (name self) st)))
                         states)
        else Some {[ (None, Some self) ]}
      else
        if bool_decide (state self = "_") then
          states ← atomic_signature !! name self;
          Some (add_each (fun st => (Some (mkAtomic (name self) st), None))
                         states)
        else Some {[ (Some self, None) ]}
  end.

(** AtomicAgent.__str__ *)
Definition str (self : AtomicAgent) : string :=
  String.append (name self)
                (String.append "{" (String.append (state self) "}")).

(** AtomicAgent.__lt__: the order of the names. *)
Definition ltb (self other : AtomicAgent) : bool :=
  String.ltb (name self) (name other).

(** AtomicAgent.extend_signature, on the atomic signature; the structure
    signature is returned as it came. *)
Definition extend_signature (self : AtomicAgent)
    (atomic_signature : gmap string (gset string))
  : gmap string (gset string) :=
  if bool_decide (state self <> "_")
  then <[name self := default ∅ (atomic_signature !! name self)
                        ∪ {[ state self ]}]> atomic_signature
  else atomic_signature.

(** AtomicAgent.replace *)
Definition replace (self agent : AtomicAgent) : AtomicAgent :=
  if bool_decide (state self = "_")
  then mkAtomic (name self) (state agent)
  else mkAtomic (name self) (state self).

End Atomic.

(** ** Complexes, sides and reactions *)

Module Species.
Import Atomic.

(** Modelled from the spec: Core/Complex.py is not among the sources.
    A complex is an ordered sequence of agents plus one compartment tag,
    with structural equality; its context reduction reduces every
    agent. *)
Record Complex := mkComplex { agents : list AtomicAgent; compartment : string }.

#[global] Instance Complex_eq_dec : EqDecision Complex.
Proof. solve_decision. Defined.

#[global] Instance Complex_countable : Countable Complex.
Proof.
  apply (inj_countable' (fun c => (agents c, compartment c))
                        (fun p => mkComplex p.1 p.2)).
  by intros [].
Defined.

Definition reduce_context (c : Complex) : Complex :=
  mkComplex (Atomic.reduce_context <$> agents c) (compartment c).

(** Modelled from the spec: Core/Side.py and Core/Reaction.py are not
    among the sources.  A side is a multiset of complexes; a reaction is
    a left side, a right side and a rate.  The rate is kept as the text
    of its expression, [None] when the rule has none. *)
Abbreviation Side := (gmultiset Complex).

Record Reaction := mkReaction {
  lhs : gmultiset Complex;
  rhs : gmultiset Complex;
  rate : option string
}.

#[global] Instance Reaction_eq_dec : EqDecision Reaction.
Proof. solve_decision. Defined.

#[global] Instance Reaction_countable : Countable Reaction.
Proof.
  apply (inj_countable' (fun r => (lhs r, rhs r, rate r))
                        (fun p => mkReaction p.1.1 p.1.2 p.2)).
  by intros [].
Defined.

(** Modelled from the spec: Complex.extend_signature and
    Complex.get_atomic_names belong to the class that is not among the
    sources.  Every agent of the complex extends the signature, and the
    atomic names of a complex are the names of its agents. *)
Definition extend_signature (c : Complex)
    (atomic_signature : gmap string (gset string))
  : gmap string (gset string) :=
  foldl (fun sig a => Atomic.extend_signature a sig) atomic_signature
        (agents c).

Definition get_atomic_names (c : Complex) : gset string :=
  list_to_set (name <$> agents c).

End Species.

(** ** Core/Rule.py *)

Module Rule.
Import Atomic Species.

Record Rule := mkRule {
  agents : list AtomicAgent;
  mid : nat;
  compartments : list string;
  complexes : list (nat * nat);
  pairs : list (option nat * option nat);
  rate : option string;
  comment : bool * list nat
}.

#[global] Instance Rule_eq_dec : EqDecision Rule.
Proof. solve_decision. Defined.

(** Rule.__init__: the comment starts as [(False, [])]. *)
Definition new (agents : list AtomicAgent) (mid : nat)
    (compartments : list string) (complexes : list (nat * nat))
    (pairs : list (option nat * option nat)) (rate : option string) : Rule :=
  mkRule agents mid compartments complexes pairs rate (false, []).

(** Assignment to, or mutation of, the [comment] attribute. *)
Definition set_comment (c : bool * list nat) (r : Rule) : Rule :=
  mkRule (agents r) (mid r) (compartments r) (complexes r) (pairs r)
         (rate r) c.

(** [str(self.rate)]: a rate is given by the expression that it prints,
    and the [None] of a rule without rate prints as [None]. *)
Definition rate_str (rate : option string) : string :=
  match rate with Some expression => expression | None => "None" end.

(** Rule.__eq__: every attribute but the comment, the rates as they
    print. *)
Definition eqb (r1 r2 : Rule) : bool :=
  bool_decide (agents r1 = agents r2) && bool_decide (mid r1 = mid r2)
  && bool_decide (compartments r1 = compartments r2)
  && bool_decide (complexes r1 = complexes r2)
  && bool_decide (pairs r1 = pairs r2)
  && bool_decide (rate_str (rate r1) = rate_str (rate r2)).

(** [sep.join(l)] *)
Fixpoint join (sep : string) (l : list string) : string :=
  match l with
  | [] => ""
  | [x] => x
  | x :: l' => x +:+ sep +:+ join sep l'
  end.

(** The slice [l[f:t + 1]]. *)
Definition slice {A} (l : list A) (f t : nat) : list A :=
  take (S t - f) (drop f l).

(** The loop of Rule.create_complexes; [None] is the IndexError of
    [self.compartments[f]]. *)
Fixpoint create_complexes_loop (r : Rule) (spans : list (nat * nat))
    (lhs rhs : list Complex) : option (list Complex * list Complex) :=
  match spans with
  | [] => Some (lhs, rhs)
  | (f, t) :: spans' =>
      comp ← compartments r !! f;
      let c := mkComplex (slice (agents r) f t) comp in
      if bool_decide (t < mid r)
      then create_complexes_loop r spans' (lhs ++ [c]) rhs
      else create_complexes_loop r spans' lhs (rhs ++ [c])
  end.

(** Rule.create_complexes *)
Definition create_complexes (r : Rule)
  : option (gmultiset Complex * gmultiset Complex) :=
  sides ← create_complexes_loop r (complexes r) [] [];
  Some (list_to_set_disj sides.1, list_to_set_disj sides.2).

(** Rule.to_reaction *)
Definition to_reaction (r : Rule) : option Reaction :=
  sides ← create_complexes r;
  Some (mkReaction sides.1 sides.2 (rate r)).

(** The body of the first loop of Rule.create_reactions for one pair;
    [None] is an IndexError, or the TypeError of [self.agents[None]]. *)
Definition pair_context (r : Rule) (p : option nat * option nat)
    (atomic_signature : gmap string (gset string))
  : option (gset AgentPair) :=
  match p with
  | (None, ri) =>
      i ← ri;
      left ← agents r !! i;
      add_context left (OInt (-1)) atomic_signature
  | (Some l, None) =>
      left ← agents r !! l;
      add_context left (OInt 1) atomic_signature
  | (Some l, Some ri) =>
      left ← agents r !! l;
      right ← agents r !! ri;
      add_context left (OAtomic right) atomic_signature
  end.

(** itertools.product over a list of collections. *)
Fixpoint product {A} (ls : list (list A)) : list (list A) :=
  match ls with
  | [] => [[]]
  | l :: ls' => x ← l; (x ::.) <$> product ls'
  end.

(** [tuple(filter(None, column(result, 0) + column(result, 1)))] *)
Definition new_agents (result : list AgentPair) : list AtomicAgent :=
  omap id (result.*1 ++ result.*2).

(** The rule rebuilt around one element of the product. *)
Definition new_rule (r : Rule) (result : list AgentPair) : Rule :=
  new (new_agents result) (mid r) (compartments r) (complexes r) (pairs r)
      (rate r).

(** Rule.create_reactions *)
Definition create_reactions (r : Rule)
    (atomic_signature : gmap string (gset string))
  : option (gset Reaction) :=
  results ← mapM (fun p => pair_context r p atomic_signature) (pairs r);
  foldl (fun acc result =>
           reactions ← acc;
           rx ← to_reaction (new_rule r result);
           Some ({[ rx ]} ∪ reactions))
        (Some ∅) (product (elements <$> results)).

(** Rule.is_meaningful *)
Definition is_meaningful (r : Rule) : option bool :=
  reaction ← to_reaction r;
  Some (negb (bool_decide (lhs reaction = rhs reaction))).

Section Collaborators.
(** Rate.reduce_context, Reaction.compatible, Complex.compatible and
    Side.to_list_of_strings belong to classes that are not among the
    sources; [py_hash] is the built-in [hash] on strings. *)
Variable rate_reduce_context : string -> string.
Variable reaction_compatible : Reaction -> Reaction -> bool.
Variable complex_compatible : Complex -> Complex -> bool.
Variable side_strings : Side -> list string.
Variable py_hash : string -> Z.

(** Rule.__str__; [None] is the IndexError of [create_complexes].  A
    rate object counts as true, and a rule without rate prints no
    rate. *)
Definition str (r : Rule) : option string :=
  sides ← create_complexes r;
  let rate := match rate r with
              | Some expression => " @ " +:+ expression
              | None => ""
              end in
  let comment :=
    "// redundant #{" +:+ join ", " (pretty <$> (comment r).2) +:+ "} " in
  let pre_comment :=
    if bool_decide ((Rule.comment r).2 = []) then ""
    else if (Rule.comment r).1 then comment +:+ "// " else "" in
  let post_comment :=
    if bool_decide ((Rule.comment r).2 = []) then ""
    else if negb (Rule.comment r).1 then " " +:+ comment else "" in
  Some (pre_comment +:+ join " + " (side_strings sides.1) +:+ " => "
        +:+ join " + " (side_strings sides.2) +:+ rate +:+ post_comment).

(** Rule.__hash__ *)
Definition hash (r : Rule) : option Z := py_hash <$> str r.

(** Rule.reduce_context *)
Definition reduce_context (r : Rule) : Rule :=
  new (Atomic.reduce_context <$> agents r) (mid r) (compartments r)
      (complexes r) (pairs r) (rate_reduce_context <$> rate r).

(** Rule.compatible *)
Definition compatible (self other : Rule) : option bool :=
  self_reaction ← to_reaction self;
  other_reaction ← to_reaction other;
  Some (reaction_compatible self_reaction other_reaction).

(** A value stored in, or compared with, an entry of [matching_map]:
    a list, or a set given by its elements in iteration order. *)
Inductive Collection :=
| PyList (items : list Complex)
| PySet (items : list Complex).

Definition iter (c : Collection) : list Complex :=
  match c with PyList l | PySet l => l end.

(** [a == b]: a list never equals a set. *)
Definition py_eqb (a b : Collection) : bool :=
  match a, b with
  | PyList l1, PyList l2 => bool_decide (l1 = l2)
  | PySet s1, PySet s2 =>
      bool_decide (list_to_set s1 =@{gset Complex} list_to_set s2)
  | _, _ => false
  end.

(** [x in l] for a list [l]. *)
Definition py_in (x : Collection) (l : list Collection) : bool :=
  existsb (py_eqb x) l.

(** Rule.create_matching_map, for the patterns [self.lhs.agents] and
    the keys of the state. *)
Definition create_matching_map (lhs_agents : list Complex)
    (state : gmap Complex Z) : list Collection :=
  (fun lhs_complex =>
     PySet (List.filter (complex_compatible lhs_complex)
                        (map_to_list state).*1)) <$> lhs_agents.

(** Rule.is_applicable *)
Definition is_applicable (matching_map : list Collection) : bool :=
  negb (py_in (PyList []) matching_map).

End Collaborators.

(** The loop of [find_all_matches] over the candidates of the first
    slot; [rec] is the recursive call on the remaining slots.  The
    decrement is made on the state of the loop and stays for the
    candidates that follow. *)
Fixpoint try_candidates (rec : gmap Complex Z -> list (list Complex))
    (candidates : list Complex) (state : gmap Complex Z)
  : list (list Complex) :=
  match candidates with
  | [] => []
  | m :: candidates' =>
      match state !! m with
      | Some n =>
          if bool_decide (0 < n)%Z then
            let state' := <[m := (n - 1)%Z]> state in
            ((m ::.) <$> rec state') ++ try_candidates rec candidates' state'
          else try_candidates rec candidates' state
      | None => try_candidates rec candidates' state
      end
  end.

(** find_all_matches; every entry of [matching_map] is given in its
    iteration order. *)
Fixpoint find_all_matches (matching_map : list (list Complex))
    (state : gmap Complex Z) : list (list Complex) :=
  match matching_map with
  | [] => [[]]
  | candidates :: rest =>
      try_candidates (find_all_matches rest) candidates state
  end.

(** Rule.choose_a_match called with [all=True]; by default it returns one
    of these choices, drawn at random. *)
Definition choose_a_match (matching_map : list Collection)
    (state : gmap Complex Z) : option (list (list Complex)) :=
  if is_applicable matching_map then
    match find_all_matches (iter <$> matching_map) state with
    | [] => None
    | choices => Some choices
    end
  else None.

End Rule.

(** ** Python dictionaries whose iteration order is observed *)

Module Dict.
Section Dict.
Context {K V : Type} `{EqDecision K}.

(** A dictionary as the list of its items in insertion order. *)
Definition keys (d : list (K * V)) : list K := d.*1.

(** [d.get(k)] *)
Fixpoint get (k : K) (d : list (K * V)) : option V :=
  match d with
  | [] => None
  | (k', v) :: d' => if decide (k = k') then Some v else get k d'
  end.

(** [d[k] = v]: an existing key keeps its place, a new one goes last. *)
Fixpoint set (k : K) (v : V) (d : list (K * V)) : list (K * V) :=
  match d with
  | [] => [(k, v)]
  | (k', v') :: d' =>
      if decide (k = k') then (k, v) :: d' else (k', v') :: set k v d'
  end.
End Dict.
End Dict.

(** ** Core/Model.py *)

Module Model.
Import Atomic Species.

(** A model refers to its rules by address: the rules are objects that
    [eliminate_redundant] compares by [id] and mutates.  [rules] lists
    the addresses of the rule set in iteration order; [init] is the
    Counter of the initial state.  Definitions keep the text of their
    values. *)
Record Model := mkModel {
  rules : list nat;
  init : list (Complex * Z);
  definitions : list (string * string);
  params : gset string;
  all_rates : bool;
  atomic_signature : gmap string (gset string)
}.

(** The store: the rule objects by address, and the model object. *)
Record World := mkWorld {
  heap : gmap nat Rule.Rule;
  model : Model
}.

(** [counter[k]] of a Counter: 0 for a missing key. *)
Definition count (c : list (Complex * Z)) (k : Complex) : Z :=
  default 0%Z (Dict.get k c).

Section Collaborators.
Variable rate_reduce_context : string -> string.
Variable reaction_compatible : Reaction -> Reaction -> bool.
(** Side.to_list_of_strings, not among the sources, and the built-in
    [hash] on strings. *)
Variable side_strings : Side -> list string.
Variable py_hash : string -> Z.
(** Reaction.create_all_compatible, not among the sources. *)
Variable reaction_create_all_compatible :
  Reaction -> gmap string (gset string) -> gset Complex.
(** Complex.__lt__, not among the sources. *)
Variable complex_lt : Complex -> Complex -> bool.

(** Rule.create_all_compatible *)
Definition create_all_compatible (r : Rule.Rule)
    (atomic_signature : gmap string (gset string))
  : option (gset Complex) :=
  rx ← Rule.to_reaction r;
  Some (reaction_create_all_compatible rx atomic_signature).

(** Insertion of one element into a sorted list, after the elements
    that are not greater. *)
Fixpoint insort (x : Complex) (l : list Complex) : list Complex :=
  match l with
  | [] => [x]
  | y :: l' => if complex_lt x y then x :: l else y :: insort x l'
  end.

(** [SortedList(iterable)]: the elements in the order of [<]. *)
Definition SortedList (iterable : list Complex) : list Complex :=
  foldl (fun acc x => insort x acc) [] iterable.

(** The first loop of Model.create_ordering. *)
Definition rule_complexes (h : gmap nat Rule.Rule) (m : Model)
  : option (gset Complex) :=
  foldl (fun acc a =>
           unique_complexes ← acc;
           rule ← h !! a;
           cs ← create_all_compatible rule (atomic_signature m);
           Some (unique_complexes ∪ cs))
        (Some ∅) (rules m).

(** Model.create_ordering; [set_iter] is the order in which the set
    [unique_complexes] is iterated. *)
Definition create_ordering (set_iter : gset Complex -> list Complex)
    (w : World) : option (list Complex) :=
  unique_complexes ← rule_complexes (heap w) (model w);
  Some (SortedList
          (set_iter (unique_complexes
                       ∪ list_to_set (Dict.keys (init (model w)))))).

(** The body of the loops of Model.eliminate_redundant for the rules
    at [al] and [ar]. *)
Definition redundant_step (all_rates : bool) (al ar : nat)
    (st : gmap nat Rule.Rule * nat) : option (gmap nat Rule.Rule * nat) :=
  if bool_decide (al ≠ ar) then
    rule_left ← st.1 !! al;
    rule_right ← st.1 !! ar;
    c ← Rule.compatible reaction_compatible rule_left rule_right;
    if c : bool then
      let counter := st.2 in
      let h1 :=
        <[ar := Rule.set_comment
                  (negb all_rates,
                   (Rule.comment rule_right).2 ++ [counter])
                  rule_right]> st.1 in
      rule_left' ← h1 !! al;
      let h2 :=
        <[al := Rule.set_comment
                  ((Rule.comment rule_left').1,
                   (Rule.comment rule_left').2 ++ [counter])
                  rule_left']> h1 in
      Some (h2, S counter)
    else Some st
  else Some st.

(** A [for] loop whose body can raise. *)
Fixpoint for_each {A S} (body : A -> S -> option S) (l : list A) (st : S)
  : option S :=
  match l with
  | [] => Some st
  | x :: l' => st' ← body x st; for_each body l' st'
  end.

(** Model.eliminate_redundant *)
Definition eliminate_redundant (w : World) : option World :=
  let rs := rules (model w) in
  st ← for_each
         (fun al => for_each (redundant_step (all_rates (model w)) al) rs)
                rs (heap w, 1);
  Some (mkWorld st.1 (model w)).

(** [new_rules.add(new_rule)] for the rule at [a]: the rule is hashed,
    and nothing is added when a member has the same hash and is equal to
    it.  [None]: hashing the rule raised. *)
Definition set_add (h : gmap nat Rule.Rule) (a : nat) (r : Rule.Rule)
    (members : list nat) : option (list nat) :=
  key ← Rule.hash side_strings py_hash r;
  Some (if existsb
             (fun b =>
                from_option
                  (fun member =>
                     bool_decide (Rule.hash side_strings py_hash member
                                  = Some key)
                     && Rule.eqb member r)
                  false (h !! b))
             members
        then members else members ++ [a]).

(** The first loop of Model.reduce_context: every reduced rule is a
    new object. *)
Fixpoint reduce_rules (todo : list nat)
    (st : gmap nat Rule.Rule * list nat)
  : option (gmap nat Rule.Rule * list nat) :=
  match todo with
  | [] => Some st
  | a :: todo' =>
      rule ← st.1 !! a;
      let new_rule := Rule.reduce_context rate_reduce_context rule in
      let a' := fresh (dom st.1) in
      let h' := <[a' := new_rule]> st.1 in
      meaningful ← Rule.is_meaningful new_rule;
      if meaningful : bool
      then new_rules ← set_add h' a' new_rule st.2;
           reduce_rules todo' (h', new_rules)
      else reduce_rules todo' (h', st.2)
  end.

(** The second loop of Model.reduce_context. *)
Definition reduce_init (old : list (Complex * Z)) : list (Complex * Z) :=
  foldl (fun new_init c =>
           Dict.set (Species.reduce_context c) (count old c) new_init)
        [] (Dict.keys old).

(** Model.reduce_context *)
Definition reduce_context (w : World) : option World :=
  let m := model w in
  st ← reduce_rules (rules m) (heap w, []);
  Some (mkWorld st.1
          (mkModel st.2 (reduce_init (init m)) (definitions m) (params m)
                   (all_rates m) (atomic_signature m))).

End Collaborators.

(** The body of the loop of Model.extract_signatures over the agents of a
    rule: the state is the atomic signature and the set [atomic_names]. *)
Definition note_agent (st : gmap string (gset string) * gset string)
    (agent : AtomicAgent) : gmap string (gset string) * gset string :=
  (Atomic.extend_signature agent st.1, {[ name agent ]} ∪ st.2).

(** The body of the loop over the rules; the third component is
    [self.all_rates]. *)
Definition note_rule
    (st : gmap string (gset string) * gset string * bool)
    (rule : Rule.Rule) : gmap string (gset string) * gset string * bool :=
  let all_rates := if Rule.rate rule is None then false else st.2 in
  (foldl note_agent st.1 (Rule.agents rule), all_rates).

(** The body of the loop over the initial complexes. *)
Definition note_complex (st : gmap string (gset string) * gset string)
    (c : Complex) : gmap string (gset string) * gset string :=
  (Species.extend_signature c st.1, st.2 ∪ Species.get_atomic_names c).

(** The body of the last loop: a name without an entry gets the
    wildcard as its only state. *)
Definition note_name (sig : gmap string (gset string)) (n : string)
  : gmap string (gset string) :=
  if sig !! n is None then <[n := {[ "_" ]}]> sig else sig.

(** Model.extract_signatures, for the rule objects of the model in
    iteration order; it returns the atomic signature and the value it
    leaves in [self.all_rates]. *)
Definition extract_signatures (rule_objects : list Rule.Rule)
    (init : list (Complex * Z)) (all_rates : bool)
  : gmap string (gset string) * bool :=
  let st1 := foldl note_rule (∅, ∅, all_rates) rule_objects in
  let st2 := foldl note_complex st1.1 (Dict.keys init) in
  (foldl note_name st2.1 (elements st2.2), st1.2).

(** Model.__init__, for rule objects that are in the store. *)
Definition new (h : gmap nat Rule.Rule) (rules : list nat)
    (init : list (Complex * Z)) (definitions : list (string * string))
    (params : gset string) : option Model :=
  rule_objects ← mapM (fun a => h !! a) rules;
  let sigs := extract_signatures rule_objects init true in
  Some (mkModel rules init definitions params sigs.2 sigs.1).

(** The body of the inner loop of Model.unique_complexes_and_compartments
    for one span: a compartment and the agents kept with it.  [None] is
    an IndexError. *)
Definition span_parts (rule : Rule.Rule) (agent_indexes : nat * nat)
  : option (string * list AtomicAgent) :=
  if bool_decide (agent_indexes.1 = agent_indexes.2) then
    comp ← Rule.compartments rule !! 0;
    agent ← Rule.agents rule !! agent_indexes.1;
    Some (comp, [agent])
  else
    comp ← Rule.compartments rule !! agent_indexes.1;
    first ← Rule.agents rule !! agent_indexes.1;
    last ← Rule.agents rule !! agent_indexes.2;
    Some (comp, [first; last]).

(** Model.unique_complexes_and_compartments, for the rule objects of the
    model in iteration order. *)
Definition unique_complexes_and_compartments (rule_objects : list Rule.Rule)
  : option (gset (string * list AtomicAgent)) :=
  foldl (fun acc rule =>
           foldl (fun acc agent_indexes =>
                    unique_complexes ← acc;
                    parts ← span_parts rule agent_indexes;
                    Some ({[ parts ]} ∪ unique_complexes))
                 acc (Rule.complexes rule))
        (Some ∅) rule_objects.

End Model.

(** ** Core/Rule.py: the evaluation of a rate *)

Module Rates.
Import Atomic Species.

Section Collaborators.
(** Complex.compatible and Rate.evaluate_direct are not among the
    sources; the agents are those that Rate.get_params_and_agents
    returns. *)
Context {Params Value : Type}.
Variable complex_compatible : Complex -> Complex -> bool.
Variable evaluate_direct : list (Complex * Z) -> Params -> Value.

(** The loops of Rule.evaluate_rate, which fill the dictionary
    [values]; the state is given by its items in iteration order. *)
Definition rate_values (agents : list Complex) (state : list (Complex * Z))
  : list (Complex * Z) :=
  foldl (fun values item =>
           foldl (fun values agent =>
                    if complex_compatible agent item.1
                    then Dict.set agent item.2 values
                    else values)
                 values agents)
        [] state.

(** Rule.evaluate_rate *)
Definition evaluate_rate (agents : list Complex) (state : list (Complex * Z))
    (params : Params) : Value :=
  evaluate_direct (rate_values agents state) params.

End Collaborators.
End Rates.

(** ** Objects/Rule.py *)

Module Objects.
Import Atomic.

Record Rule := mkRule {
  agents : list AtomicAgent;
  mid : nat;
  compartments : list string;
  complexes : list (nat * nat);
  pairs : list (option nat * option nat);
  rate : string
}.

(** Rule.__eq__: every attribute but the rate. *)
Definition eqb (r1 r2 : Rule) : bool :=
  bool_decide (agents r1 = agents r2) && bool_decide (mid r1 = mid r2)
  && bool_decide (compartments r1 = compartments r2)
  && bool_decide (complexes r1 = complexes r2)
  && bool_decide (pairs r1 = pairs r2).

(** What the constructor of Objects.Complex receives: a Counter of
    agents and a compartment. *)
Abbreviation Complex := (gmultiset AtomicAgent * string)%type.

(** The loop of Rule.create_complexes; [None] is the IndexError of
    [self.compartments[f]]. *)
Fixpoint create_complexes_loop (r : Rule) (spans : list (nat * nat))
    (lhs rhs : list Complex) : option (list Complex * list Complex) :=
  match spans with
  | [] => Some (lhs, rhs)
  | (f, t) :: spans' =>
      comp ← compartments r !! f;
      let c := (list_to_set_disj (Rule.slice (agents r) f t), comp) in
      if bool_decide (t < mid r)
      then create_complexes_loop r spans' (lhs ++ [c]) rhs
      else create_complexes_loop r spans' lhs (rhs ++ [c])
  end.

(** Rule.create_complexes: the two sides stay lists. *)
Definition create_complexes (r : Rule)
  : option (list Complex * list Complex) :=
  create_complexes_loop r (complexes r) [] [].

End Objects.

(** * Notions used in the statements *)

Section Notions.
Import Atomic Species.

Variable reaction_compatible : Reaction -> Reaction -> bool.
Variable reaction_create_all_compatible :
  Reaction -> gmap string (gset string) -> gset Complex.
Variable complex_lt : Complex -> Complex -> bool.

(** The count of a complex in a state: 0 when it is not a key. *)
Definition available (state : gmap Complex Z) (c : Complex) : Z :=
  default 0%Z (state !! c).

(** How many slots of a combination hold the complex [c]. *)
Definition times (c : Complex) (combo : list Complex) : Z :=
  Z.of_nat (length (filter (fun x => x = c) combo)).

(** A valid assignment, in the words of the spec: one state complex per
    slot, taken from the candidates of the slot, and no complex drawn
    more often than the state holds it. *)
Definition valid_assignment (matching_map : list (list Complex))
    (state : gmap Complex Z) (combo : list Complex) : Prop :=
  Forall2 (fun c candidates => c ∈ candidates) combo matching_map
  /\ forall c, (times c combo <= available state c)%Z.

Definition A_p : Complex := mkComplex [mkAtomic "A" "p"] "cyt".

Definition A_u : Complex := mkComplex [mkAtomic "A" "u"] "cyt".

Definition A_wild : Complex := mkComplex [mkAtomic "A" "_"] "cyt".

(** [x] does not come after [y]. *)
Definition not_after (x y : Complex) : Prop := complex_lt y x = false.

(** The body of the first loop of [create_ordering]. *)
Definition collect (h : gmap nat Rule.Rule)
    (sig : gmap string (gset string)) (acc : option (gset Complex))
    (a : nat) : option (gset Complex) :=
  unique_complexes ← acc;
  rule ← h !! a;
  cs ← Model.create_all_compatible reaction_create_all_compatible rule sig;
  Some (unique_complexes ∪ cs).

(** A strict total order on complexes, for a concrete instance: the order
    of their codes. *)
Definition code_lt (x y : Species.Complex) : bool :=
  bool_decide (encode x < encode y)%positive.

(** The complexes of both sides of a reaction, for a concrete instance. *)
Definition sides_complexes (rx : Species.Reaction)
    (sig : gmap string (gset string)) : gset Species.Complex :=
  dom (Species.lhs rx) ∪ dom (Species.rhs rx).

Definition rule_decay : Rule.Rule :=
  Rule.new [Atomic.mkAtomic "A" "p"; Atomic.mkAtomic "A" "u"] 1
           ["cyt"; "cyt"] [(0, 0); (1, 1)] [(Some 0, Some 1)] None.

Definition rule_back : Rule.Rule :=
  Rule.new [Atomic.mkAtomic "A" "u"; Atomic.mkAtomic "A" "p"] 1
           ["cyt"; "cyt"] [(0, 0); (1, 1)] [(Some 0, Some 1)] None.

Definition two_rules (order : list nat) : Model.World :=
  Model.mkWorld (<[0 := rule_decay]> (<[1 := rule_back]> ∅))
    (Model.mkModel order [(A_p, 2%Z)] [] ∅ false
                   (<["A" := {[ "p"; "u" ]}]> ∅)).

(** The redundancy-group ids that the rule at [a] carries. *)
Definition ids (h : gmap nat Rule.Rule) (a : nat) : list nat :=
  from_option (fun r => (Rule.comment r).2) [] (h !! a).

(** Two stores hold the same rule objects up to their comments. *)
Definition only_comments (h h' : gmap nat Rule.Rule) : Prop :=
  forall a, match h !! a, h' !! a with
            | Some r, Some r' => exists cm, r' = Rule.set_comment cm r
            | None, None => True
            | _, _ => False
            end.

(** The rule at [a] exists and converts to a reaction. *)
Definition convertible (h : gmap nat Rule.Rule) (a : nat) : Prop :=
  exists r, h !! a = Some r /\ is_Some (Rule.to_reaction r).

(** [rule_left.compatible(rule_right)] for the rules at [a] and [b]. *)
Definition compatible_at (h : gmap nat Rule.Rule) (a b : nat) : bool :=
  default false
    (rl ← h !! a; rr ← h !! b;
     Rule.compatible reaction_compatible rl rr).

(** The pairs that the two nested loops visit, in their order. *)
Definition visited (rs : list nat) : list (nat * nat) :=
  al ← rs; (fun ar => (al, ar)) <$> rs.

(** The ids issued along a list of visited pairs, each with the pair
    that was detected. *)
Fixpoint issue (c : nat -> nat -> bool) (ps : list (nat * nat))
    (counter : nat) : list (nat * (nat * nat)) :=
  match ps with
  | [] => []
  | (al, ar) :: ps' =>
      if bool_decide (al <> ar) && c al ar
      then (counter, (al, ar)) :: issue c ps' (S counter)
      else issue c ps' counter
  end.

(** The issued ids whose pair has [a] on one side. *)
Definition ids_of (a : nat) (ds : list (nat * (nat * nat))) : list nat :=
  (filter (fun d => d.2.1 = a \/ d.2.2 = a) ds).*1.

(** A relation between reactions for a concrete instance: the left side
    of the first is the right side of the second. *)
Definition mirrored (rx1 rx2 : Species.Reaction) : bool :=
  bool_decide (Species.lhs rx1 = Species.rhs rx2).

(** The completion sets of the pairs of a rule. *)
Definition completions (r : Rule.Rule)
    (atomic_signature : gmap string (gset string))
  : option (list (gset AgentPair)) :=
  mapM (fun p => Rule.pair_context r p atomic_signature) (Rule.pairs r).

(** The reactions of the elements of the product, one per element. *)
Definition reactions_of (r : Rule.Rule) (combos : list (list AgentPair))
    (rxs : list Reaction) : Prop :=
  Forall2 (fun combo rx => Rule.to_reaction (Rule.new_rule r combo) = Some rx)
          combos rxs.

(** A well-formed rule, in the words of the spec: the two agents of
    every pair share the name and either both or none has a state. *)
Definition well_formed (r : Rule.Rule) : Prop :=
  forall l ri a b,
    (Some l, Some ri) ∈ Rule.pairs r ->
    Rule.agents r !! l = Some a -> Rule.agents r !! ri = Some b ->
    name a = name b /\ (state a = "_" <-> state b = "_").

(** A rule without wildcards. *)
Definition concrete (r : Rule.Rule) : Prop :=
  forall a, a ∈ Rule.agents r -> state a <> "_".

(** A reaction without wildcards: every agent of every complex of its
    two sides has a state. *)
Definition concrete_reaction (rx : Reaction) : Prop :=
  forall c a,
    c ∈ lhs rx \/ c ∈ rhs rx -> a ∈ Species.agents c -> state a <> "_".

(** A signature that lists the wildcard among the states of no name. *)
Definition wildcard_free (atomic_signature : gmap string (gset string))
  : Prop :=
  forall n states, atomic_signature !! n = Some states -> "_" ∉ states.

(** The indices of the pairs: those of the left column, then those of
    the right column. *)
Definition index_order (r : Rule.Rule) : list nat :=
  omap id ((Rule.pairs r).*1 ++ (Rule.pairs r).*2).

(** The pairs list the agents of the rule in their order. *)
Definition pairs_in_order (r : Rule.Rule) : Prop :=
  index_order r = seq 0 (length (Rule.agents r))
  /\ forall p, p ∈ Rule.pairs r -> p <> (None, None).

(** The agent at an index of a pair, [None] for a missing side. *)
Definition side (r : Rule.Rule) (i : option nat) : option AtomicAgent :=
  i ≫= fun k => Rule.agents r !! k.

(** The rule [A{_} => A{_}] and a signature with two states for [A]. *)
Definition rule_wild : Rule.Rule :=
  Rule.new [Atomic.mkAtomic "A" "_"; Atomic.mkAtomic "A" "_"] 1
           ["cyt"; "cyt"] [(0, 0); (1, 1)] [(Some 0, Some 1)] (Some "k").

Definition signature_A : gmap string (gset string) :=
  <["A" := {[ "p"; "u" ]}]> ∅.

(** The rule [A{p}::cyt + B{q}::nuc => A{u}::cyt + B{q}::nuc] with its
    two pairs listed in the other order. *)
Definition rule_swapped : Rule.Rule :=
  Rule.new [Atomic.mkAtomic "A" "p"; Atomic.mkAtomic "B" "q";
            Atomic.mkAtomic "A" "u"; Atomic.mkAtomic "B" "q"] 2
           ["cyt"; "nuc"; "cyt"; "nuc"] [(0, 0); (1, 1); (2, 2); (3, 3)]
           [(Some 1, Some 3); (Some 0, Some 2)] None.

Definition single (n s compartment : string) : Species.Complex :=
  Species.mkComplex [Atomic.mkAtomic n s] compartment.

End Notions.

Section MoreNotions.
Import Atomic Species.

(** For the examples: a side printed complex by complex, as the agents
    joined by dots and the compartment, and the length of a string as
    its hash. *)
Definition side_names (s : Side) : list string :=
  (fun c => Rule.join "." (Atomic.str <$> Species.agents c)
            +:+ "::" +:+ compartment c) <$> elements s.

Definition length_hash (s : string) : Z := Z.of_nat (String.length s).

(** The agents of the rules, followed by those of the initial
    complexes. *)
Definition all_agents (rule_objects : list Rule.Rule)
    (init : list (Complex * Z)) : list AtomicAgent :=
  concat (Rule.agents <$> rule_objects)
  ++ concat (Species.agents <$> Dict.keys init).

(** The states, other than the wildcard, of the agents named [n]. *)
Definition observed_states (l : list AtomicAgent) (n : string)
  : list string :=
  state <$> filter (fun a => name a = n /\ state a <> "_") l.

(** The flag of the comment of the rule at [a]: whether the rule is
    commented out. *)
Definition flag (h : gmap nat Rule.Rule) (a : nat) : bool :=
  from_option (fun r => (Rule.comment r).1) false (h !! a).

(** The complex of Objects/Rule.py that a complex of Core/Rule.py
    corresponds to: its agents as a Counter, and its compartment. *)
Definition as_counter (c : Complex) : gmultiset AtomicAgent * string :=
  (list_to_set_disj (Species.agents c), compartment c).

(** The rule of Objects/Rule.py with the attributes of a rule of
    Core/Rule.py and the rate [rate]. *)
Definition as_object (r : Rule.Rule) (rate : string) : Objects.Rule :=
  Objects.mkRule (Rule.agents r) (Rule.mid r) (Rule.compartments r)
                 (Rule.complexes r) (Rule.pairs r) rate.

(** What the rules kept so far are, for the rules [seen] that the loop
    has gone through: reductions that are meaningful; for every
    meaningful reduction one of them with its hash that is equal to it;
    and no two of them with one hash that are equal. *)
Definition kept (rate_reduce_context : string -> string)
    (side_strings : Side -> list string) (py_hash : string -> Z)
    (h0 h : gmap nat Rule.Rule) (seen members : list nat) : Prop :=
  (forall a', a' ∈ members ->
      h0 !! a' = None
      /\ exists a r,
          a ∈ seen /\ h0 !! a = Some r
          /\ h !! a' = Some (Rule.reduce_context rate_reduce_context r)
          /\ Rule.is_meaningful (Rule.reduce_context rate_reduce_context r)
             = Some true)
  /\ (forall a r,
        a ∈ seen -> h0 !! a = Some r ->
        Rule.is_meaningful (Rule.reduce_context rate_reduce_context r)
        = Some true ->
        exists a' r',
          a' ∈ members /\ h !! a' = Some r'
          /\ Rule.hash side_strings py_hash r'
             = Rule.hash side_strings py_hash
                 (Rule.reduce_context rate_reduce_context r)
          /\ Rule.eqb r' (Rule.reduce_context rate_reduce_context r) = true)
  /\ (forall i j a1 a2 r1 r2,
        members !! i = Some a1 -> members !! j = Some a2 -> i <> j ->
        h !! a1 = Some r1 -> h !! a2 = Some r2 ->
        Rule.hash side_strings py_hash r1
        = Rule.hash side_strings py_hash r2 ->
        Rule.eqb r1 r2 = false)
  /\ length members <= length seen.

(** The rules [A{p}::cyt => B{q}::cyt] and [A{u}::cyt => B{q}::cyt],
    which reduce to the same rule, and a model of the two. *)
Definition rule_turn_p : Rule.Rule :=
  Rule.new [Atomic.mkAtomic "A" "p"; Atomic.mkAtomic "B" "q"] 1
           ["cyt"; "cyt"] [(0, 0); (1, 1)] [(Some 0, None); (None, Some 1)]
           None.

Definition rule_turn_u : Rule.Rule :=
  Rule.new [Atomic.mkAtomic "A" "u"; Atomic.mkAtomic "B" "q"] 1
           ["cyt"; "cyt"] [(0, 0); (1, 1)] [(Some 0, None); (None, Some 1)]
           None.

Definition two_turns : Model.World :=
  Model.mkWorld (<[0 := rule_turn_p]> (<[1 := rule_turn_u]> ∅))
    (Model.mkModel [0; 1] [] [] ∅ false
                   (<["A" := {[ "p"; "u" ]}]> (<["B" := {[ "q" ]}]> ∅))).

End MoreNotions.

(** * Properties *)

(** ** Atomic agents *)

Section AtomicFacts.
Import Atomic.

Lemma eqb_eq (a b : AtomicAgent) : eqb a b = true <-> a = b.
Proof.
  unfold eqb. rewrite andb_true_iff, !bool_decide_eq_true.
  destruct a, b; simpl; split; [intros [-> ->]|intros [= -> ->]]; done.
Qed.

Lemma elem_of_foldl_add (mk : string -> AgentPair) (l : list string)
    (acc : gset AgentPair) (p : AgentPair) :
  p ∈ foldl (fun result st => {[ mk st ]} ∪ result) acc l
  <-> p ∈ acc \/ exists st, st ∈ l /\ p = mk st.
Proof.
  revert acc. induction l as [|x l IH]; intros acc; simpl.
  - split; [auto|]. intros [?|(st & Hst & _)]; [done|]. by inv Hst.
  - rewrite IH. set_unfold. split.
    + intros [[H|H]|(st & H & Hp)]; subst; eauto.
    + intros [H|(st & [H|H] & Hp)]; subst; eauto.
Qed.

Lemma elem_of_add_each (mk : string -> AgentPair) (states : gset string)
    (p : AgentPair) :
  p ∈ add_each mk states <-> exists st, st ∈ states /\ p = mk st.
Proof.
  unfold add_each. rewrite elem_of_foldl_add. set_unfold. naive_solver.
Qed.

Lemma add_each_list (mk : string -> AgentPair) (states : gset string) :
  add_each mk states = list_to_set (mk <$> elements states).
Proof.
  apply set_eq. intros p. rewrite elem_of_add_each, elem_of_list_to_set.
  rewrite list_elem_of_fmap. set_unfold. naive_solver.
Qed.

Lemma size_add_each (mk : string -> AgentPair) (states : gset string) :
  Inj (=) (=) mk -> size (add_each mk states) = size states.
Proof.
  intros Hinj. rewrite add_each_list, size_list_to_set.
  - by rewrite length_fmap.
  - apply NoDup_fmap_2; [done|apply NoDup_elements].
Qed.

(** C10: [compatible a other] holds exactly when [other] is an atomic
    agent [b] and either [a] equals [b] or they share the name and the
    state of [a] is the wildcard.  Hence the relation is reflexive, a
    wildcard agent is compatible with every agent of its name, and the
    converse comparison with a concrete agent returns false. *)
Theorem compatible_reflexive_not_symmetric :
  (forall a other,
      compatible a other = true <->
      exists b, other = OAtomic b
                /\ (a = b \/ (name a = name b /\ state a = "_")))
  /\ (forall a other, same_type other = false -> compatible a other = false)
  /\ (forall a, compatible a (OAtomic a) = true)
  /\ (forall n s,
        compatible (mkAtomic n "_") (OAtomic (mkAtomic n s)) = true
        /\ compatible (mkAtomic n s) (OAtomic (mkAtomic n "_"))
           = bool_decide (s = "_")).
Proof.
  split; [|split; [by intros a [b| |]|split]].
  - intros a [b| |]; simpl.
    + rewrite orb_true_iff, andb_true_iff, eqb_eq, !bool_decide_eq_true.
      split; [intros H; exists b; tauto|].
      intros (b' & [= <-] & H). tauto.
    + split; [done|]. by intros (? & ? & _).
    + split; [done|]. by intros (? & ? & _).
  - intros a. simpl. replace (eqb a a) with true; [done|].
    symmetry. by apply eqb_eq.
  - intros n s. unfold compatible, eqb; simpl.
    split; repeat case_bool_decide; simpl; congruence.
Qed.

(** C4, as the code has it: for two wildcard agents of one name and a
    signature that gives the name the set [states], [add_context]
    returns as many pairs as there are states, namely for each state [s]
    the pair with the agent of that name in state [s] on both sides.
    The two sides of a pair carry the same state, which is a concrete
    one when the wildcard is not among [states]; when it is, the pair of
    the two wildcard agents is among the pairs returned.  When both
    agents are given and one has a state, the one pair is returned
    unchanged. *)
Theorem add_context_completion_totality (a b : AtomicAgent)
    (atomic_signature : gmap string (gset string)) :
  (forall states,
      name a = name b -> state a = "_" -> state b = "_" ->
      atomic_signature !! name a = Some states ->
      exists result,
        add_context a (OAtomic b) atomic_signature = Some result
        /\ size result = size states
        /\ (forall p, p ∈ result <->
                      exists s, s ∈ states
                                /\ p = (Some (mkAtomic (name a) s),
                                        Some (mkAtomic (name b) s)))
        /\ (forall x y, (Some x, Some y) ∈ result ->
                        state x = state y
                        /\ ("_" ∉ states -> state x <> "_"))
        /\ ("_" ∈ states -> (Some a, Some b) ∈ result))
  /\ (state a <> "_" \/ state b <> "_" ->
      add_context a (OAtomic b) atomic_signature
      = Some {[ (Some a, Some b) ]}).
Proof.
  split.
  - intros states Hn Ha Hb Hsig. unfold add_context.
    rewrite !bool_decide_eq_true_2 by done. simpl. rewrite Hsig. simpl.
    eexists; split; [done|]. split; [|split; [|split]].
    + apply size_add_each. by intros s1 s2 [= ->].
    + intros p. rewrite elem_of_add_each, <- Hn. done.
    + intros x y (s & Hs & [= -> ->])%elem_of_add_each. simpl.
      split; [done|]. intros Hout ->. done.
    + intros Hin. apply elem_of_add_each. exists "_". split; [done|].
      destruct a, b; simpl in *; subst. done.
  - intros H. unfold add_context.
    destruct (decide (state a = "_")), (decide (state b = "_"));
      rewrite ?bool_decide_eq_true_2, ?bool_decide_eq_false_2 by done;
      simpl; try done.
    tauto.
Qed.

Lemma add_context_completion_totality_witness :
  (exists result,
      add_context (mkAtomic "A" "_") (OAtomic (mkAtomic "A" "_"))
                  {[ "A" := {[ "p"; "u" ]} ]} = Some result
      /\ size result = 2
      /\ forall x y, (Some x, Some y) ∈ result ->
                     state x = state y /\ state x <> "_")
  /\ add_context (mkAtomic "A" "p") (OAtomic (mkAtomic "A" "u"))
                 {[ "A" := {[ "p"; "u" ]} ]}
     = Some {[ (Some (mkAtomic "A" "p"), Some (mkAtomic "A" "u")) ]}.
Proof.
  split.
  - destruct (add_context_completion_totality
                (mkAtomic "A" "_") (mkAtomic "A" "_")
                {[ "A" := {[ "p"; "u" ]} ]}) as [H _].
    destruct (H {[ "p"; "u" ]}) as (result & Hr & Hs & _ & Hc & _);
      [reflexivity..|].
    exists result. split; [exact Hr|]. split; [rewrite Hs; reflexivity|].
    intros x y Hin. destruct (Hc x y Hin) as [Heq Hne]. split; [exact Heq|].
    apply Hne. set_solver.
  - apply (add_context_completion_totality
             (mkAtomic "A" "p") (mkAtomic "A" "u")).
    left. simpl. discriminate.
Defined.

(** C4, as the claim has it: for a name that no agent carries with a
    state, the signature that [extract_signatures] builds holds the
    wildcard alone, and for it [add_context] returns the pair of the two
    wildcard agents: one pair, with the same state on both sides, which
    is not a concrete state. *)
Lemma add_context_wildcard_signature :
  (Model.extract_signatures [rule_wild] [] true).1 !! "A" = Some {[ "_" ]}
  /\ add_context (mkAtomic "A" "_") (OAtomic (mkAtomic "A" "_"))
                 (Model.extract_signatures [rule_wild] [] true).1
     = Some {[ (Some (mkAtomic "A" "_"), Some (mkAtomic "A" "_")) ]}
  /\ state (mkAtomic "A" "_") = "_".
Proof.
  assert (Hsig : (Model.extract_signatures [rule_wild] [] true).1 !! "A"
                 = Some {[ "_" ]}) by (vm_compute; reflexivity).
  split; [exact Hsig|]. split; [|reflexivity].
  unfold add_context. simpl bool_decide. cbn [andb].
  change (name (mkAtomic "A" "_")) with "A". rewrite Hsig.
  cbn [mbind option_bind].
  f_equal; apply set_eq; intros p; rewrite elem_of_add_each; set_solver.
Qed.

End AtomicFacts.

(** ** Matching *)

Section MatchingFacts.
Import Atomic Species Rule.

Lemma times_cons (c m : Complex) (combo : list Complex) :
  times c (m :: combo)
  = ((if decide (m = c) then 1 else 0) + times c combo)%Z.
Proof.
  unfold times. rewrite filter_cons.
  destruct (decide (m = c)); simpl length; lia.
Qed.

Lemma available_insert (state : gmap Complex Z) (m c : Complex) (n : Z) :
  available (<[m := n]> state) c
  = if decide (m = c) then n else available state c.
Proof.
  unfold available. rewrite lookup_insert.
  by destruct (decide (m = c)).
Qed.

(** What the loop over the candidates keeps of a bound that holds for
    the recursive call. *)
Lemma try_candidates_bound
    (rec : gmap Complex Z -> list (list Complex)) :
  (forall st b, b ∈ rec st ->
                forall c, (times c b <= Z.max 0 (available st c))%Z) ->
  forall candidates st combo,
    combo ∈ try_candidates rec candidates st ->
    forall c, (times c combo <= Z.max 0 (available st c))%Z.
Proof.
  intros Hrec. induction candidates as [|m cs IH]; intros st combo Hin c.
  - by apply elem_of_nil in Hin.
  - simpl in Hin. destruct (st !! m) as [n|] eqn:Hm; [|by apply IH].
    case_bool_decide as Hn; [|by apply IH].
    assert (Hav : available st m = n) by (unfold available; by rewrite Hm).
    apply elem_of_app in Hin as [Hin|Hin].
    + apply list_elem_of_fmap in Hin as (b & -> & Hb).
      specialize (Hrec _ _ Hb c). rewrite available_insert in Hrec.
      rewrite times_cons. destruct (decide (m = c)); subst; lia.
    + specialize (IH _ _ Hin c). rewrite available_insert in IH.
      destruct (decide (m = c)); subst; lia.
Qed.

Lemma find_all_matches_bound (matching_map : list (list Complex)) :
  forall state combo,
    combo ∈ find_all_matches matching_map state ->
    forall c, (times c combo <= Z.max 0 (available state c))%Z.
Proof.
  induction matching_map as [|candidates rest IH]; intros state combo Hin c.
  - apply list_elem_of_singleton in Hin as ->.
    unfold times; simpl. lia.
  - simpl in Hin. by eapply try_candidates_bound.
Qed.

Lemma try_candidates_slots
    (rec : gmap Complex Z -> list (list Complex)) (rest : list (list Complex)) :
  (forall st b, b ∈ rec st ->
                Forall2 (fun c cands => c ∈ cands) b rest) ->
  forall candidates st combo,
    combo ∈ try_candidates rec candidates st ->
    exists m b, combo = m :: b /\ m ∈ candidates
                /\ Forall2 (fun c cands => c ∈ cands) b rest.
Proof.
  intros Hrec. induction candidates as [|m cs IH]; intros st combo Hin.
  - by apply elem_of_nil in Hin.
  - assert (Hlater : forall st',
               combo ∈ try_candidates rec cs st' ->
               exists m' b, combo = m' :: b /\ m' ∈ m :: cs
                            /\ Forall2 (fun c cands => c ∈ cands) b rest).
    { intros st' H. destruct (IH _ _ H) as (m' & b & -> & Hm' & Hb).
      exists m', b. split; [done|]. split; [by right|done]. }
    simpl in Hin. destruct (st !! m) as [n|]; [|by eapply Hlater].
    case_bool_decide; [|by eapply Hlater].
    apply elem_of_app in Hin as [Hin|Hin]; [|by eapply Hlater].
    apply list_elem_of_fmap in Hin as (b & -> & Hb).
    exists m, b. split; [done|]. split; [by left|by eapply Hrec].
Qed.

Lemma find_all_matches_slots (matching_map : list (list Complex)) :
  forall state combo,
    combo ∈ find_all_matches matching_map state ->
    Forall2 (fun c cands => c ∈ cands) combo matching_map.
Proof.
  induction matching_map as [|candidates rest IH]; intros state combo Hin.
  - apply list_elem_of_singleton in Hin as ->. constructor.
  - simpl in Hin.
    destruct (try_candidates_slots _ rest (fun st b => IH st b) _ _ _ Hin)
      as (m & b & -> & Hm & Hb).
    by constructor.
Qed.

(** C7: every combination that [find_all_matches] returns takes one
    candidate per slot, and taking its complexes out of the original
    state leaves no count below zero. *)
Theorem find_all_matches_sound (matching_map : list (list Complex))
    (state : gmap Complex Z) (combo : list Complex) :
  (forall c, 0 <= available state c)%Z ->
  combo ∈ find_all_matches matching_map state ->
  valid_assignment matching_map state combo
  /\ forall c, (0 <= available state c - times c combo)%Z.
Proof.
  intros Hpos Hin.
  assert (Hb : forall c, (times c combo <= available state c)%Z).
  { intros c. pose proof (find_all_matches_bound _ _ _ Hin c).
    specialize (Hpos c). lia. }
  split; [split|].
  - by eapply find_all_matches_slots.
  - done.
  - intros c. specialize (Hb c). lia.
Qed.

Lemma find_all_matches_sound_witness :
  valid_assignment [[A_p; A_u]; [A_p; A_u]]
                   (<[A_p := 2%Z]> (<[A_u := 1%Z]> ∅)) [A_p; A_u]
  /\ forall c,
      (0 <= available (<[A_p := 2%Z]> (<[A_u := 1%Z]> ∅)) c
            - times c [A_p; A_u])%Z.
Proof.
  apply (find_all_matches_sound [[A_p; A_u]; [A_p; A_u]]
           (<[A_p := 2%Z]> (<[A_u := 1%Z]> ∅)) [A_p; A_u]).
  - intros c. rewrite !available_insert.
    repeat case_decide; try lia. unfold available.
    rewrite lookup_empty. simpl. lia.
  - vm_compute. right. left.
Defined.

Lemma times_nil (c : Complex) : times c [] = 0%Z.
Proof. reflexivity. Qed.

Lemma available_empty (c : Complex) : available ∅ c = 0%Z.
Proof. unfold available. by rewrite lookup_empty. Qed.

Ltac count_slots :=
  intros ?; rewrite ?times_cons, ?times_nil, ?available_insert,
    ?available_empty;
  repeat case_decide; simplify_eq; lia.

Ltac slots := repeat constructor; set_solver.

(** C1, on the code: with one [A_p] and one [A_u] in the state and two
    slots that both accept either, the valid assignments are
    [(A_p, A_u)] and [(A_u, A_p)], and [find_all_matches] returns only
    the one that starts with the candidate it tries first, in whatever
    order the candidates of the two slots are iterated.  In the scenario
    of the spec, with two [A_p] and one [A_u], it returns the three
    pairs when [A_p] is tried first and misses [(A_p, A_u)] when [A_u]
    is tried first. *)
Theorem find_all_matches_incomplete :
  let state11 := <[A_p := 1%Z]> (<[A_u := 1%Z]> ∅) in
  let state21 := <[A_p := 2%Z]> (<[A_u := 1%Z]> ∅) in
  valid_assignment [[A_p; A_u]; [A_p; A_u]] state11 [A_p; A_u]
  /\ valid_assignment [[A_p; A_u]; [A_p; A_u]] state11 [A_u; A_p]
  /\ find_all_matches [[A_p; A_u]; [A_p; A_u]] state11 = [[A_p; A_u]]
  /\ find_all_matches [[A_p; A_u]; [A_u; A_p]] state11 = [[A_p; A_u]]
  /\ find_all_matches [[A_u; A_p]; [A_p; A_u]] state11 = [[A_u; A_p]]
  /\ find_all_matches [[A_u; A_p]; [A_u; A_p]] state11 = [[A_u; A_p]]
  /\ find_all_matches [[A_p; A_u]; [A_p; A_u]] state21
     = [[A_p; A_p]; [A_p; A_u]; [A_u; A_p]]
  /\ valid_assignment [[A_u; A_p]; [A_u; A_p]] state21 [A_p; A_u]
  /\ find_all_matches [[A_u; A_p]; [A_u; A_p]] state21
     = [[A_u; A_p]; [A_p; A_p]].
Proof.
  intros state11 state21. subst state11 state21.
  repeat split; try (vm_compute; reflexivity); try slots; count_slots.
Qed.

Lemma py_in_list_of_sets (l : list Complex)
    (entries : list (list Complex)) :
  py_in (PyList l) (PySet <$> entries) = false.
Proof. induction entries as [|e entries IH]; [done|exact IH]. Qed.

(** C2, on the code: the entries that [create_matching_map] stores are
    sets, and the list [[]] equals no set, so [is_applicable] answers
    true for every matching map built against a state; for a pattern
    and the empty state the only entry is the empty set and the answer
    is true all the same. *)
Theorem is_applicable_ignores_empty_entries
    (complex_compatible : Complex -> Complex -> bool)
    (lhs_agents : list Complex) (state : gmap Complex Z) :
  is_applicable (create_matching_map complex_compatible lhs_agents state)
  = true
  /\ create_matching_map complex_compatible
       [mkComplex [mkAtomic "A" "_"] "cyt"] ∅ = [PySet []]
  /\ is_applicable [PySet []] = true.
Proof.
  split; [|split; [|done]].
  - unfold is_applicable, create_matching_map.
    set (entry := fun lhs_complex : Complex =>
                    List.filter (complex_compatible lhs_complex)
                                (map_to_list state).*1).
    change (negb (py_in (PyList []) ((PySet ∘ entry) <$> lhs_agents))
            = true).
    by rewrite list_fmap_compose, py_in_list_of_sets.
  - unfold create_matching_map. simpl. by rewrite map_to_list_empty.
Qed.

End MatchingFacts.

(** ** Context reduction of the initial state *)

Section ReduceInitFacts.
Import Atomic Species.

Lemma dict_get_set_eq {V} (k : Complex) (v : V) (d : list (Complex * V)) :
  Dict.get k (Dict.set k v d) = Some v.
Proof.
  induction d as [|[k' v'] d IH]; simpl.
  - by rewrite decide_True.
  - destruct (decide (k = k')) as [->|Hne]; simpl.
    + by rewrite decide_True.
    + by rewrite decide_False.
Qed.

Lemma dict_get_app_fresh {V} (k : Complex) (v : V)
    (d : list (Complex * V)) :
  k ∉ Dict.keys d -> Dict.get k (d ++ [(k, v)]) = Some v.
Proof.
  unfold Dict.keys. induction d as [|[k' v'] d IH]; simpl; intros Hk.
  - by rewrite decide_True.
  - rewrite decide_False by set_solver. apply IH. set_solver.
Qed.

(** The last initial complex decides the count of its reduction: what
    the earlier complexes with the same reduction stored is lost. *)
Lemma reduce_init_last_wins (old : list (Complex * Z)) (c : Complex)
    (v : Z) :
  c ∉ Dict.keys old ->
  Model.count (Model.reduce_init (old ++ [(c, v)]))
              (Species.reduce_context c) = v.
Proof.
  intros Hc. unfold Model.reduce_init, Model.count, Dict.keys.
  rewrite fmap_app, foldl_app. simpl.
  rewrite dict_get_set_eq. simpl.
  by rewrite dict_get_app_fresh.
Qed.

(** C3, on the code: the initial complexes [A_p] with count 2 and [A_u]
    with count 3 both reduce to [A_wild]; after [Model.reduce_context]
    the count of [A_wild] is 3, the count of the complex iterated last,
    and not the sum 5. *)
Theorem reduce_context_overwrites_counts
    (rate_reduce_context : string -> string)
    (side_strings : Side -> list string) (py_hash : string -> Z) :
  let init := [(A_p, 2%Z); (A_u, 3%Z)] in
  let w := Model.mkWorld ∅ (Model.mkModel [] init [] ∅ true ∅) in
  Species.reduce_context A_p = A_wild
  /\ Species.reduce_context A_u = A_wild
  /\ (Model.count init A_p + Model.count init A_u = 5)%Z
  /\ exists w',
      Model.reduce_context rate_reduce_context side_strings py_hash w
      = Some w'
      /\ Model.init (Model.model w') = [(A_wild, 3%Z)]
      /\ Model.count (Model.init (Model.model w')) A_wild = 3%Z.
Proof.
  intros init w. repeat split.
  eexists. split; [reflexivity|]. split; reflexivity.
Qed.

End ReduceInitFacts.

(** ** Ordering *)

Section OrderingFacts.
Import Atomic Species.

Variable reaction_create_all_compatible :
  Reaction -> gmap string (gset string) -> gset Complex.
Variable complex_lt : Complex -> Complex -> bool.

(** The order of complexes is a strict total order. *)
Hypothesis lt_irrefl : forall x, complex_lt x x = false.
Hypothesis lt_trans :
  forall x y z, complex_lt x y = true -> complex_lt y z = true ->
                complex_lt x z = true.
Hypothesis lt_total :
  forall x y, x <> y -> complex_lt x y = true \/ complex_lt y x = true.

#[local] Instance not_after_trans : Transitive (not_after complex_lt).
Proof.
  unfold not_after. intros x y z Hxy Hyz.
  destruct (complex_lt z x) eqn:Hzx; [|done].
  destruct (decide (x = y)) as [->|Hne]; [congruence|].
  destruct (lt_total x y Hne) as [H|H]; [|congruence].
  rewrite (lt_trans z x y Hzx H) in Hyz. done.
Qed.

#[local] Instance not_after_antisym : AntiSymm (=) (not_after complex_lt).
Proof.
  unfold not_after. intros x y Hxy Hyx.
  destruct (decide (x = y)) as [|Hne]; [done|].
  destruct (lt_total x y Hne); congruence.
Qed.

Lemma lt_not_after (x y : Complex) :
  complex_lt x y = true -> not_after complex_lt x y.
Proof.
  unfold not_after. intros Hxy.
  destruct (complex_lt y x) eqn:Hyx; [|done].
  pose proof (lt_trans x y x Hxy Hyx) as H. by rewrite lt_irrefl in H.
Qed.

Lemma insort_perm (x : Complex) (l : list Complex) :
  Model.insort complex_lt x l ≡ₚ x :: l.
Proof.
  induction l as [|y l IH]; simpl; [done|].
  destruct (complex_lt x y); [done|].
  rewrite IH. apply Permutation_swap.
Qed.

Lemma insort_sorted (x : Complex) (l : list Complex) :
  Sorted (not_after complex_lt) l ->
  Sorted (not_after complex_lt) (Model.insort complex_lt x l).
Proof.
  induction l as [|y l IH]; simpl; intros Hl.
  - by repeat constructor.
  - destruct (complex_lt x y) eqn:Hxy.
    + constructor; [done|]. constructor. by apply lt_not_after.
    + apply Sorted_inv in Hl as [Hl Hhd]. constructor; [by apply IH|].
      destruct l as [|z l]; simpl.
      * by constructor.
      * destruct (complex_lt x z); constructor; [done|].
        by apply HdRel_inv in Hhd.
Qed.

Lemma foldl_insort (l acc : list Complex) :
  Sorted (not_after complex_lt) acc ->
  Sorted (not_after complex_lt)
         (foldl (fun a x => Model.insort complex_lt x a) acc l)
  /\ foldl (fun a x => Model.insort complex_lt x a) acc l ≡ₚ acc ++ l.
Proof.
  revert acc. induction l as [|x l IH]; intros acc Hacc; simpl.
  - by rewrite app_nil_r.
  - destruct (IH (Model.insort complex_lt x acc)) as [Hs Hp].
    { by apply insort_sorted. }
    split; [done|]. rewrite Hp, insort_perm. simpl. apply Permutation_middle.
Qed.

(** Sorting does not see the order in which the elements arrive. *)
Lemma SortedList_permutation (l1 l2 : list Complex) :
  l1 ≡ₚ l2 ->
  Model.SortedList complex_lt l1 = Model.SortedList complex_lt l2.
Proof.
  intros Hp. unfold Model.SortedList.
  destruct (foldl_insort l1 []) as [Hs1 Hp1]; [constructor|].
  destruct (foldl_insort l2 []) as [Hs2 Hp2]; [constructor|].
  apply (Sorted_unique (not_after complex_lt)); [done..|].
  by rewrite Hp1, Hp2.
Qed.

Lemma collect_comm h sig acc a b :
  let step := collect reaction_create_all_compatible h sig in
  step (step acc a) b = step (step acc b) a.
Proof.
  cbv zeta. unfold collect. destruct acc as [u|]; simpl; [|done].
  destruct (h !! a) as [ra|]; simpl;
    [|by destruct (h !! b) as [rb|]; simpl;
         [destruct (Model.create_all_compatible _ rb sig)|]].
  destruct (Model.create_all_compatible _ ra sig) as [ca|]; simpl;
    [|by destruct (h !! b) as [rb|]; simpl;
         [destruct (Model.create_all_compatible _ rb sig)|]].
  destruct (h !! b) as [rb|]; simpl; [|done].
  destruct (Model.create_all_compatible _ rb sig) as [cb|]; simpl; [|done].
  f_equal. set_solver.
Qed.

Lemma foldl_collect_permutation h sig (l1 l2 : list nat) :
  l1 ≡ₚ l2 ->
  forall acc,
    foldl (collect reaction_create_all_compatible h sig) acc l1
    = foldl (collect reaction_create_all_compatible h sig) acc l2.
Proof.
  induction 1 as [|x l1 l2 _ IH|x y l|l1 l2 l3 _ IH1 _ IH2]; intros acc;
    simpl.
  - done.
  - apply IH.
  - by rewrite collect_comm.
  - by rewrite IH1, IH2.
Qed.

Lemma foldl_collect_Some h sig (l : list nat) :
  (forall a, a ∈ l -> exists r,
        h !! a = Some r /\ is_Some (Rule.to_reaction r)) ->
  forall acc,
    is_Some acc ->
    is_Some (foldl (collect reaction_create_all_compatible h sig) acc l).
Proof.
  induction l as [|a l IH]; intros Hl acc Hacc; simpl; [done|].
  apply IH.
  - intros b Hb. apply Hl. by right.
  - destruct Hacc as [u ->]. destruct (Hl a) as (r & Hr & [rx Hrx]);
      [by left|].
    unfold collect, Model.create_all_compatible. simpl.
    rewrite Hr. simpl. rewrite Hrx. simpl. done.
Qed.

(** C6: two invocations of [create_ordering] on the same store and model
    return the same sequence, whatever the order in which each of them
    iterates the rule set and the set of collected complexes; when every
    rule of the model converts to a reaction, they return a sequence. *)
Theorem create_ordering_deterministic
    (iter1 iter2 : gset Complex -> list Complex) (w1 w2 : Model.World) :
  (forall X, iter1 X ≡ₚ elements X) ->
  (forall X, iter2 X ≡ₚ elements X) ->
  Model.heap w1 = Model.heap w2 ->
  Model.rules (Model.model w1) ≡ₚ Model.rules (Model.model w2) ->
  Model.init (Model.model w1) = Model.init (Model.model w2) ->
  Model.atomic_signature (Model.model w1)
  = Model.atomic_signature (Model.model w2) ->
  Model.create_ordering reaction_create_all_compatible complex_lt iter1 w1
  = Model.create_ordering reaction_create_all_compatible complex_lt iter2 w2
  /\ ((forall a, a ∈ Model.rules (Model.model w1) -> exists r,
          Model.heap w1 !! a = Some r /\ is_Some (Rule.to_reaction r)) ->
      is_Some (Model.create_ordering reaction_create_all_compatible
                 complex_lt iter1 w1)).
Proof.
  intros Hi1 Hi2 Hheap Hrules Hinit Hsig.
  unfold Model.create_ordering, Model.rule_complexes.
  change (fun (acc : option (gset Complex)) (a : nat) =>
            unique_complexes ← acc;
            rule ← ?h !! a;
            cs ← Model.create_all_compatible
                   reaction_create_all_compatible rule ?sig;
            Some (unique_complexes ∪ cs))
    with (collect reaction_create_all_compatible h sig).
  rewrite <- Hheap, <- Hsig, <- Hinit.
  rewrite <- (foldl_collect_permutation _ _ _ _ Hrules).
  split.
  - destruct (foldl _ _ _) as [u|]; simpl; [|done].
    f_equal. apply SortedList_permutation. by rewrite Hi1, Hi2.
  - intros Hok.
    destruct (foldl_collect_Some (Model.heap w1)
                (Model.atomic_signature (Model.model w1)) _ Hok (Some ∅))
      as [u Hu]; [done|].
    rewrite Hu. simpl. done.
Qed.

End OrderingFacts.

Lemma code_lt_irrefl x : code_lt x x = false.
Proof. unfold code_lt. apply bool_decide_eq_false. lia. Qed.

Lemma code_lt_trans x y z :
  code_lt x y = true -> code_lt y z = true -> code_lt x z = true.
Proof. unfold code_lt. rewrite !bool_decide_eq_true. lia. Qed.

Lemma code_lt_total x y :
  x <> y -> code_lt x y = true \/ code_lt y x = true.
Proof.
  unfold code_lt. rewrite !bool_decide_eq_true. intros Hne.
  assert (encode x <> encode y) by (intros H; by apply (inj encode) in H).
  lia.
Qed.

Lemma create_ordering_deterministic_witness :
  Model.create_ordering sides_complexes code_lt elements (two_rules [0; 1])
  = Model.create_ordering sides_complexes code_lt
      (fun X => reverse (elements X)) (two_rules [1; 0])
  /\ ((forall a, a ∈ [0; 1] -> exists r,
          Model.heap (two_rules [0; 1]) !! a = Some r
          /\ is_Some (Rule.to_reaction r)) ->
      is_Some (Model.create_ordering sides_complexes code_lt elements
                 (two_rules [0; 1]))).
Proof.
  apply (create_ordering_deterministic sides_complexes code_lt
           code_lt_irrefl code_lt_trans code_lt_total
           elements (fun X => reverse (elements X))
           (two_rules [0; 1]) (two_rules [1; 0])).
  - intros X. reflexivity.
  - intros X. apply reverse_Permutation.
  - reflexivity.
  - apply Permutation_swap.
  - reflexivity.
  - reflexivity.
Defined.

(** ** Redundancy marking *)

Section RedundancyFacts.
Import Atomic Species.

Variable reaction_compatible : Reaction -> Reaction -> bool.

Lemma create_complexes_loop_set_comment cm r spans l1 l2 :
  Rule.create_complexes_loop (Rule.set_comment cm r) spans l1 l2
  = Rule.create_complexes_loop r spans l1 l2.
Proof.
  revert l1 l2. induction spans as [|[f t] spans IH]; intros l1 l2; simpl;
    [done|].
  destruct (Rule.compartments r !! f); simpl; [|done].
  case_bool_decide; apply IH.
Qed.

Lemma to_reaction_set_comment cm r :
  Rule.to_reaction (Rule.set_comment cm r) = Rule.to_reaction r.
Proof.
  unfold Rule.to_reaction, Rule.create_complexes.
  by rewrite create_complexes_loop_set_comment.
Qed.

Lemma only_comments_refl h : only_comments h h.
Proof.
  intros a. destruct (h !! a) as [r|]; [|done].
  exists (Rule.comment r). by destruct r.
Qed.

Lemma only_comments_insert h0 h a r cm :
  only_comments h0 h -> h !! a = Some r ->
  only_comments h0 (<[a := Rule.set_comment cm r]> h).
Proof.
  intros Hoc Hr b. specialize (Hoc b). rewrite lookup_insert.
  destruct (decide (a = b)) as [->|]; [|done].
  rewrite Hr in Hoc. destruct (h0 !! b) as [r0|]; [|done].
  destruct Hoc as [cm' ->]. by exists cm.
Qed.

Lemma ids_insert h a b r :
  ids (<[a := r]> h) b
  = if decide (a = b) then (Rule.comment r).2 else ids h b.
Proof. unfold ids. rewrite lookup_insert. by destruct (decide (a = b)). Qed.

(** One execution of the body of the loops. *)
Lemma redundant_step_spec all_rates h0 h n al ar :
  only_comments h0 h -> convertible h0 al -> convertible h0 ar ->
  exists h' n',
    Model.redundant_step reaction_compatible all_rates al ar (h, n)
    = Some (h', n')
    /\ only_comments h0 h'
    /\ issue (compatible_at reaction_compatible h0) [(al, ar)] n
       = (if bool_decide (al <> ar)
             && compatible_at reaction_compatible h0 al ar
          then [(n, (al, ar))] else [])
    /\ n' = (if bool_decide (al <> ar)
                && compatible_at reaction_compatible h0 al ar
             then S n else n)
    /\ forall a, ids h' a
                 = ids h a
                   ++ ids_of a (issue (compatible_at reaction_compatible h0)
                                      [(al, ar)] n).
Proof.
  intros Hoc (rl0 & Hl0 & [xl Hxl]) (rr0 & Hr0 & [xr Hxr]).
  unfold Model.redundant_step. simpl issue.
  case_bool_decide as Hne; simpl.
  2:{ exists h, n. repeat split; try done.
      intros a. unfold ids_of. by rewrite filter_nil, app_nil_r. }
  pose proof (Hoc al) as Hal. pose proof (Hoc ar) as Har.
  rewrite Hl0 in Hal. rewrite Hr0 in Har.
  destruct (h !! al) as [rl|] eqn:Hl; [|done].
  destruct (h !! ar) as [rr|] eqn:Hr; [|done].
  destruct Hal as [cl ->]. destruct Har as [cr ->]. simpl.
  assert (Hc : Rule.compatible reaction_compatible
                 (Rule.set_comment cl rl0) (Rule.set_comment cr rr0)
               = Some (compatible_at reaction_compatible h0 al ar)).
  { unfold compatible_at, Rule.compatible.
    rewrite Hl0, Hr0, !to_reaction_set_comment. simpl.
    rewrite Hxl, Hxr. done. }
  rewrite Hc. simpl.
  destruct (compatible_at reaction_compatible h0 al ar); simpl.
  2:{ exists h, n. repeat split; try done.
      intros a. unfold ids_of. by rewrite filter_nil, app_nil_r. }
  rewrite lookup_insert_ne by done. rewrite Hl. simpl.
  eexists _, _. split; [done|].
  split; [|split; [done|split; [done|]]].
  - apply only_comments_insert.
    + by apply only_comments_insert.
    + by rewrite lookup_insert_ne.
  - intros a. rewrite !ids_insert. unfold ids_of.
    rewrite filter_cons, filter_nil. simpl.
    destruct (decide (al = a)) as [->|Hla].
    + rewrite decide_True by auto. unfold ids. by rewrite Hl.
    + destruct (decide (ar = a)) as [->|Hra].
      * rewrite decide_True by auto. unfold ids. by rewrite Hr.
      * rewrite decide_False by tauto. by rewrite app_nil_r.
Qed.

Lemma issue_cons c p ps n :
  issue c (p :: ps) n
  = issue c [p] n
    ++ issue c ps (if bool_decide (p.1 <> p.2) && c p.1 p.2 then S n else n).
Proof. destruct p as [al ar]. simpl. by destruct (_ && _). Qed.

Lemma ids_of_app a ds1 ds2 :
  ids_of a (ds1 ++ ds2) = ids_of a ds1 ++ ids_of a ds2.
Proof. unfold ids_of. by rewrite filter_app, fmap_app. Qed.

(** The loops, run over a list of pairs. *)
Lemma redundant_loop_spec all_rates h0 ps :
  (forall p, p ∈ ps -> convertible h0 p.1 /\ convertible h0 p.2) ->
  forall h n,
    only_comments h0 h ->
    exists h' n',
      Model.for_each
        (fun p => Model.redundant_step reaction_compatible all_rates p.1 p.2)
        ps (h, n) = Some (h', n')
      /\ only_comments h0 h'
      /\ forall a, ids h' a
                   = ids h a
                     ++ ids_of a (issue (compatible_at reaction_compatible h0)
                                        ps n).
Proof.
  induction ps as [|[al ar] ps IH]; intros Hok h n Hoc.
  - exists h, n. split; [done|]. split; [done|].
    intros a. by rewrite app_nil_r.
  - destruct (Hok (al, ar)) as [Hl Hr]; [by left|].
    destruct (redundant_step_spec all_rates h0 h n al ar Hoc Hl Hr)
      as (h1 & n1 & Hstep & Hoc1 & _ & Hn1 & Hids1).
    destruct (IH (fun p Hp => Hok p (list_elem_of_further _ _ _ Hp))
                 h1 n1 Hoc1) as (h2 & n2 & Hloop & Hoc2 & Hids2).
    exists h2, n2. split; [|split; [done|]].
    + simpl. rewrite Hstep. simpl. exact Hloop.
    + intros a. rewrite (issue_cons _ (al, ar) ps), ids_of_app.
      rewrite Hids2, Hids1. cbn [fst snd].
      rewrite <- Hn1. by rewrite app_assoc.
Qed.

Lemma for_each_app {A S} (body : A -> S -> option S) (l1 l2 : list A)
    (st : S) :
  Model.for_each body (l1 ++ l2) st
  = Model.for_each body l1 st ≫= Model.for_each body l2.
Proof.
  revert st. induction l1 as [|x l1 IH]; intros st; simpl; [done|].
  destruct (body x st) as [st'|]; simpl; [apply IH|done].
Qed.

Lemma for_each_fmap {A B S} (f : A -> B) (body : B -> S -> option S)
    (l : list A) (st : S) :
  Model.for_each body (f <$> l) st
  = Model.for_each (fun x => body (f x)) l st.
Proof.
  revert st. induction l as [|x l IH]; intros st; simpl; [done|].
  destruct (body (f x) st); simpl; [apply IH|done].
Qed.

(** The nested loops visit the pairs of [visited]. *)
Lemma nested_loops_visited {S} (body : nat -> nat -> S -> option S)
    (rs outer : list nat) (st : S) :
  Model.for_each (fun al => Model.for_each (body al) rs) outer st
  = Model.for_each (fun p => body p.1 p.2)
      (al ← outer; (fun ar => (al, ar)) <$> rs) st.
Proof.
  revert st. induction outer as [|al outer IH]; intros st; [done|].
  change (Model.for_each (body al) rs st
          ≫= Model.for_each (fun al => Model.for_each (body al) rs) outer
          = Model.for_each (fun p => body p.1 p.2)
              (((fun ar => (al, ar)) <$> rs)
                 ++ (al ← outer; (fun ar => (al, ar)) <$> rs)) st).
  rewrite for_each_app, for_each_fmap. simpl.
  destruct (Model.for_each (body al) rs st); simpl; [apply IH|done].
Qed.

Lemma elem_of_visited rs al ar :
  (al, ar) ∈ visited rs <-> al ∈ rs /\ ar ∈ rs.
Proof.
  unfold visited. rewrite list_elem_of_bind. split.
  - intros (x & Hin & Hx).
    apply list_elem_of_fmap in Hin as (y & [= -> ->] & Hy).
    done.
  - intros [Hl Hr]. exists al. split; [|done].
    apply list_elem_of_fmap. by exists ar.
Qed.

Lemma issue_ge c ps n k p : (k, p) ∈ issue c ps n -> n <= k.
Proof.
  revert n. induction ps as [|[al ar] ps IH]; intros n Hin; simpl in Hin.
  - by apply elem_of_nil in Hin.
  - destruct (_ && _).
    + apply elem_of_cons in Hin as [[= -> ->]|Hin]; [lia|].
      apply IH in Hin. lia.
    + by apply IH.
Qed.

(** An id is issued once. *)
Lemma issue_functional c ps n k p p' :
  (k, p) ∈ issue c ps n -> (k, p') ∈ issue c ps n -> p = p'.
Proof.
  revert n. induction ps as [|[al ar] ps IH]; intros n H1 H2; simpl in *.
  - by apply elem_of_nil in H1.
  - destruct (_ && _); [|by eapply IH].
    apply elem_of_cons in H1 as [E1|H1];
      apply elem_of_cons in H2 as [E2|H2]; simplify_eq.
    + done.
    + apply issue_ge in H2. lia.
    + apply issue_ge in H1. lia.
    + by eapply IH.
Qed.

Lemma issue_sound c ps n k al ar :
  (k, (al, ar)) ∈ issue c ps n ->
  (al, ar) ∈ ps /\ al <> ar /\ c al ar = true.
Proof.
  revert n. induction ps as [|[al' ar'] ps IH]; intros n Hin; simpl in Hin.
  - by apply elem_of_nil in Hin.
  - destruct (bool_decide (al' <> ar') && c al' ar') eqn:Hd.
    + apply elem_of_cons in Hin as [[= -> -> ->]|Hin].
      * apply andb_true_iff in Hd as [Hne%bool_decide_eq_true Hc].
        split; [by left|done].
      * destruct (IH _ Hin) as (? & ? & ?). split; [by right|done].
    + destruct (IH _ Hin) as (? & ? & ?). split; [by right|done].
Qed.

Lemma issue_complete c ps n al ar :
  (al, ar) ∈ ps -> al <> ar -> c al ar = true ->
  exists k, (k, (al, ar)) ∈ issue c ps n.
Proof.
  intros Hin Hne Hc. revert n.
  induction ps as [|[al' ar'] ps IH]; intros n; [by apply elem_of_nil in Hin|].
  simpl. apply elem_of_cons in Hin as [[= <- <-]|Hin].
  - rewrite bool_decide_eq_true_2, Hc by done. simpl.
    exists n. by left.
  - destruct (_ && _).
    + destruct (IH Hin (S n)) as [k Hk]. exists k. by right.
    + by apply IH.
Qed.

Lemma elem_of_ids_of a ds k :
  k ∈ ids_of a ds
  <-> exists al ar, (k, (al, ar)) ∈ ds /\ (al = a \/ ar = a).
Proof.
  unfold ids_of. rewrite list_elem_of_fmap. split.
  - intros ([k' [al ar]] & -> & Hin). apply list_elem_of_filter in Hin.
    exists al, ar. simpl in *. tauto.
  - intros (al & ar & Hin & Ha). exists (k, (al, ar)). split; [done|].
    apply list_elem_of_filter. done.
Qed.

(** C9: on a model whose rules convert to reactions and carry no id yet,
    [eliminate_redundant] returns, and afterwards two distinct rules [a]
    and [b] of the model share an id exactly when one of them was found
    compatible with the other; an id that a rule carries is carried by
    exactly one other rule of the model.  So a rule is flagged with an id
    of another rule if and only if that rule is flagged with the same
    id. *)
Theorem eliminate_redundant_symmetric (w : Model.World) :
  let rs := Model.rules (Model.model w) in
  (forall a, a ∈ rs ->
             convertible (Model.heap w) a /\ ids (Model.heap w) a = []) ->
  exists w',
    Model.eliminate_redundant reaction_compatible w = Some w'
    /\ (forall a b,
           a ∈ rs -> b ∈ rs -> a <> b ->
           ((exists k,
                k ∈ ids (Model.heap w') a /\ k ∈ ids (Model.heap w') b)
            <-> compatible_at reaction_compatible (Model.heap w) a b = true
                \/ compatible_at reaction_compatible (Model.heap w) b a = true))
    /\ (forall a k,
           a ∈ rs -> k ∈ ids (Model.heap w') a ->
           exists b,
             b ∈ rs /\ b <> a /\ k ∈ ids (Model.heap w') b
             /\ forall b', b' ∈ rs -> b' <> a ->
                           k ∈ ids (Model.heap w') b' -> b' = b).
Proof.
  intros rs Hrs. unfold Model.eliminate_redundant. fold rs.
  rewrite (nested_loops_visited
             (Model.redundant_step reaction_compatible
                (Model.all_rates (Model.model w)))).
  fold (visited rs).
  destruct (redundant_loop_spec (Model.all_rates (Model.model w))
              (Model.heap w) (visited rs)) with (h := Model.heap w) (n := 1)
    as (h' & n' & Hrun & Hoc & Hids).
  { intros [al ar] [Hl Hr]%elem_of_visited. split; by apply Hrs. }
  { apply only_comments_refl. }
  rewrite Hrun. simpl. eexists. split; [done|]. simpl.
  set (ds := issue (compatible_at reaction_compatible (Model.heap w))
                   (visited rs) 1) in *.
  assert (Hin : forall a k, a ∈ rs ->
             k ∈ ids h' a <-> exists al ar, (k, (al, ar)) ∈ ds
                                            /\ (al = a \/ ar = a)).
  { intros a k Ha. rewrite Hids. destruct (Hrs a Ha) as [_ ->]. simpl.
    apply elem_of_ids_of. }
  split.
  - intros a b Ha Hb Hab. split.
    + intros (k & Hka & Hkb).
      apply Hin in Hka as (al & ar & Hd & Hside); [|done].
      apply Hin in Hkb as (al' & ar' & Hd' & Hside'); [|done].
      pose proof (issue_functional _ _ _ _ _ _ Hd Hd') as [= <- <-].
      apply issue_sound in Hd as (_ & Hne & Hc).
      destruct Hside as [->| ->], Hside' as [->| ->]; try done; auto.
    + intros [Hc|Hc].
      * destruct (issue_complete
                    (compatible_at reaction_compatible (Model.heap w))
                    (visited rs)
                    1 a b) as [k Hk]; [by apply elem_of_visited|done..|].
        exists k. split; apply Hin; eauto 6.
      * destruct (issue_complete
                    (compatible_at reaction_compatible (Model.heap w))
                    (visited rs)
                    1 b a) as [k Hk]; [by apply elem_of_visited|auto..|].
        exists k. split; apply Hin; eauto 6.
  - intros a k Ha Hk. apply Hin in Hk as (al & ar & Hd & Hside); [|done].
    pose proof (issue_sound _ _ _ _ _ _ Hd) as (Hv & Hne & _).
    apply elem_of_visited in Hv as [Hal Har].
    assert (Huniq : forall b', b' ∈ rs -> k ∈ ids h' b' ->
                               b' = al \/ b' = ar).
    { intros b' Hb' Hk'. apply Hin in Hk' as (al' & ar' & Hd' & Hs'); [|done].
      pose proof (issue_functional _ _ _ _ _ _ Hd Hd') as [= <- <-].
      destruct Hs'; auto. }
    destruct Hside as [->| ->].
    + exists ar. split; [done|]. split; [auto|]. split.
      * apply Hin; eauto 6.
      * intros b' Hb' Hne' Hk'. destruct (Huniq b' Hb' Hk'); congruence.
    + exists al. split; [done|]. split; [auto|]. split.
      * apply Hin; eauto 6.
      * intros b' Hb' Hne' Hk'. destruct (Huniq b' Hb' Hk'); congruence.
Qed.

End RedundancyFacts.

Lemma two_rules_fresh (a : nat) :
  a ∈ [0; 1] ->
  convertible (Model.heap (two_rules [0; 1])) a
  /\ ids (Model.heap (two_rules [0; 1])) a = [].
Proof.
  intros Ha. apply elem_of_cons in Ha as [->|Ha].
  - split; [|reflexivity]. eexists. split; [reflexivity|]. by eexists.
  - apply list_elem_of_singleton in Ha as ->.
    split; [|reflexivity]. eexists. split; [reflexivity|]. by eexists.
Qed.

Lemma eliminate_redundant_symmetric_witness :
  exists w',
    Model.eliminate_redundant mirrored (two_rules [0; 1]) = Some w'
    /\ (forall a b,
           a ∈ [0; 1] -> b ∈ [0; 1] -> a <> b ->
           ((exists k,
                k ∈ ids (Model.heap w') a /\ k ∈ ids (Model.heap w') b)
            <-> compatible_at mirrored (Model.heap (two_rules [0; 1])) a b
                = true
                \/ compatible_at mirrored (Model.heap (two_rules [0; 1])) b a
                   = true))
    /\ (forall a k,
           a ∈ [0; 1] -> k ∈ ids (Model.heap w') a ->
           exists b,
             b ∈ [0; 1] /\ b <> a /\ k ∈ ids (Model.heap w') b
             /\ forall b', b' ∈ [0; 1] -> b' <> a ->
                           k ∈ ids (Model.heap w') b' -> b' = b).
Proof.
  apply (eliminate_redundant_symmetric mirrored (two_rules [0; 1])).
  exact two_rules_fresh.
Defined.

(** ** What reduction and marking change *)

Section FrameFacts.
Import Atomic Species.

Variable rate_reduce_context : string -> string.
Variable reaction_compatible : Reaction -> Reaction -> bool.
Variable side_strings : Side -> list string.
Variable py_hash : string -> Z.

(** Whether the slicing loop raises depends on the spans and on the
    compartments only. *)
Lemma create_complexes_loop_is_Some (r r' : Rule.Rule) spans :
  Rule.compartments r' = Rule.compartments r ->
  Rule.mid r' = Rule.mid r ->
  forall l1 l2 l1' l2',
    is_Some (Rule.create_complexes_loop r spans l1 l2) ->
    is_Some (Rule.create_complexes_loop r' spans l1' l2').
Proof.
  intros Hc Hm. induction spans as [|[f t] spans IH];
    intros l1 l2 l1' l2' H; simpl in *; [done|].
  rewrite Hc, Hm. destruct (Rule.compartments r !! f); simpl in *.
  - case_bool_decide; eapply IH; exact H.
  - by destruct H.
Qed.

Lemma to_reaction_reduce_context (r : Rule.Rule) :
  is_Some (Rule.to_reaction r) ->
  is_Some (Rule.to_reaction (Rule.reduce_context rate_reduce_context r)).
Proof.
  unfold Rule.to_reaction, Rule.create_complexes. intros H.
  destruct (Rule.create_complexes_loop r (Rule.complexes r) [] [])
    as [s|] eqn:Hs; [|by destruct H].
  destruct (create_complexes_loop_is_Some r
              (Rule.reduce_context rate_reduce_context r)
              (Rule.complexes r) eq_refl eq_refl [] [] [] [])
    as [s' Hs']; [by rewrite Hs|].
  simpl. rewrite Hs'. simpl. done.
Qed.

(** A rule that converts to a reaction prints, and so has a hash. *)
Lemma hash_is_Some (r : Rule.Rule) :
  is_Some (Rule.to_reaction r) ->
  is_Some (Rule.hash side_strings py_hash r).
Proof.
  unfold Rule.to_reaction, Rule.hash, Rule.str.
  destruct (Rule.create_complexes r) as [sides|]; simpl; [|by intros []].
  intros _. by eexists.
Qed.

Lemma reduce_rules_step a todo h members r rx :
  h !! a = Some r ->
  Rule.to_reaction (Rule.reduce_context rate_reduce_context r) = Some rx ->
  Model.reduce_rules rate_reduce_context side_strings py_hash (a :: todo)
    (h, members)
  = let r' := Rule.reduce_context rate_reduce_context r in
    let a' := fresh (dom h) in
    let h' := <[a' := r']> h in
    if negb (bool_decide (lhs rx = rhs rx))
    then new_rules ← Model.set_add side_strings py_hash h' a' r' members;
         Model.reduce_rules rate_reduce_context side_strings py_hash todo
           (h', new_rules)
    else Model.reduce_rules rate_reduce_context side_strings py_hash todo
           (h', members).
Proof.
  intros Hr Hrx. cbn [Model.reduce_rules fst snd]. rewrite Hr.
  cbn [mbind option_bind]. unfold Rule.is_meaningful. rewrite Hrx.
  reflexivity.
Qed.

(** Adding to the set returns for a rule that has a hash: the set as it
    was, or with the new rule. *)
Lemma set_add_Some (h : gmap nat Rule.Rule) (a : nat) (r : Rule.Rule)
    (members : list nat) :
  is_Some (Rule.hash side_strings py_hash r) ->
  exists new_rules,
    Model.set_add side_strings py_hash h a r members = Some new_rules
    /\ (new_rules = members \/ new_rules = members ++ [a]).
Proof.
  intros [key Hkey]. unfold Model.set_add. rewrite Hkey.
  cbn [mbind option_bind]. eexists. split; [done|].
  destruct (existsb _ _); [by left|by right].
Qed.

(** The loop over the rules allocates and leaves what exists in place. *)
Lemma reduce_rules_spec (h0 : gmap nat Rule.Rule) (todo : list nat) :
  (forall a, a ∈ todo -> convertible h0 a) ->
  forall h members,
    h0 ⊆ h ->
    (forall a, a ∈ members -> h0 !! a = None /\ is_Some (h !! a)) ->
    exists h' members',
      Model.reduce_rules rate_reduce_context side_strings py_hash todo
        (h, members)
      = Some (h', members')
      /\ h0 ⊆ h'
      /\ forall a, a ∈ members' -> h0 !! a = None /\ is_Some (h' !! a).
Proof.
  induction todo as [|a todo IH]; intros Hok h members Hsub Hnew.
  - exists h, members. done.
  - destruct (Hok a) as (r & Hr & Hx); [by left|].
    destruct (to_reaction_reduce_context r Hx) as [rx Hrx].
    rewrite (reduce_rules_step a todo h members r rx
               (lookup_weaken _ _ _ _ Hr Hsub) Hrx).
    set (r' := Rule.reduce_context rate_reduce_context r).
    set (a' := fresh (dom h)).
    assert (Ha' : h !! a' = None) by apply not_elem_of_dom, is_fresh.
    assert (Ha0 : h0 !! a' = None) by (by eapply lookup_weaken_None).
    assert (Hsub' : h0 ⊆ <[a' := r']> h).
    { etrans; [exact Hsub|]. by apply insert_subseteq. }
    assert (Hkeep : forall b, b ∈ members ->
               h0 !! b = None /\ is_Some (<[a' := r']> h !! b)).
    { intros b Hb. destruct (Hnew b Hb) as [? [x Hx']]. split; [done|].
      exists x. rewrite lookup_insert_ne; [done|]. intros ->. congruence. }
    cbv zeta. destruct (negb _).
    + destruct (set_add_Some (<[a' := r']> h) a' r' members)
        as (new_rules & Hadd & Hnew_rules).
      { apply hash_is_Some. by eexists. }
      rewrite Hadd. cbn [mbind option_bind].
      apply IH; [intros b Hb; apply Hok; by right|done|].
      intros b. destruct Hnew_rules as [->| ->]; [by apply Hkeep|].
      intros [Hb|Hb%list_elem_of_singleton]%elem_of_app; [by apply Hkeep|].
      subst b. split; [done|]. rewrite lookup_insert_eq. by eexists.
    + apply IH; [intros b Hb; apply Hok; by right|done..].
Qed.

(** C8, as the code has it: on a model whose rules convert to reactions,
    [reduce_context] returns; it leaves every rule object that existed in
    place and refers the model to rule objects it has newly created, and
    it changes the model object itself, whose [rules] and [init] it
    rebinds while the other attributes stay.  [eliminate_redundant]
    returns as well; it leaves the model object as it is and changes the
    rule objects in place, in their comments only. *)
Theorem reduction_and_marking_frame (w : Model.World) :
  (forall a, a ∈ Model.rules (Model.model w) ->
             convertible (Model.heap w) a) ->
  (exists w1,
      Model.reduce_context rate_reduce_context side_strings py_hash w
      = Some w1
      /\ (forall a r, Model.heap w !! a = Some r ->
                      Model.heap w1 !! a = Some r)
      /\ (forall a, a ∈ Model.rules (Model.model w1) ->
                    Model.heap w !! a = None
                    /\ is_Some (Model.heap w1 !! a))
      /\ Model.init (Model.model w1)
         = Model.reduce_init (Model.init (Model.model w))
      /\ Model.definitions (Model.model w1) = Model.definitions (Model.model w)
      /\ Model.params (Model.model w1) = Model.params (Model.model w)
      /\ Model.all_rates (Model.model w1) = Model.all_rates (Model.model w)
      /\ Model.atomic_signature (Model.model w1)
         = Model.atomic_signature (Model.model w))
  /\ (exists w2,
         Model.eliminate_redundant reaction_compatible w = Some w2
         /\ Model.model w2 = Model.model w
         /\ only_comments (Model.heap w) (Model.heap w2)).
Proof.
  intros Hok. split.
  - destruct (reduce_rules_spec (Model.heap w) (Model.rules (Model.model w))
                Hok (Model.heap w) []) as (h' & members & Hrun & Hsub & Hnew).
    { done. }
    { intros a Ha. by apply elem_of_nil in Ha. }
    unfold Model.reduce_context. rewrite Hrun. simpl.
    eexists. split; [done|]. simpl. split; [|split; [done|done]].
    intros a r Hr. by eapply lookup_weaken.
  - unfold Model.eliminate_redundant.
    rewrite (nested_loops_visited
               (Model.redundant_step reaction_compatible
                  (Model.all_rates (Model.model w)))).
    fold (visited (Model.rules (Model.model w))).
    destruct (redundant_loop_spec reaction_compatible
                (Model.all_rates (Model.model w))
                (Model.heap w) (visited (Model.rules (Model.model w))))
      with (h := Model.heap w) (n := 1) as (h' & n' & Hrun & Hoc & _).
    { intros [al ar] [Hl Hr]%elem_of_visited. split; by apply Hok. }
    { apply only_comments_refl. }
    rewrite Hrun. simpl. eexists. done.
Qed.

End FrameFacts.

Lemma reduction_and_marking_frame_witness :
  (exists w1,
      Model.reduce_context (fun s => s) side_names length_hash
        (two_rules [0; 1]) = Some w1
      /\ (forall a r, Model.heap (two_rules [0; 1]) !! a = Some r ->
                      Model.heap w1 !! a = Some r)
      /\ (forall a, a ∈ Model.rules (Model.model w1) ->
                    Model.heap (two_rules [0; 1]) !! a = None
                    /\ is_Some (Model.heap w1 !! a))
      /\ Model.init (Model.model w1)
         = Model.reduce_init (Model.init (Model.model (two_rules [0; 1])))
      /\ Model.definitions (Model.model w1)
         = Model.definitions (Model.model (two_rules [0; 1]))
      /\ Model.params (Model.model w1)
         = Model.params (Model.model (two_rules [0; 1]))
      /\ Model.all_rates (Model.model w1)
         = Model.all_rates (Model.model (two_rules [0; 1]))
      /\ Model.atomic_signature (Model.model w1)
         = Model.atomic_signature (Model.model (two_rules [0; 1])))
  /\ (exists w2,
         Model.eliminate_redundant mirrored (two_rules [0; 1]) = Some w2
         /\ Model.model w2 = Model.model (two_rules [0; 1])
         /\ only_comments (Model.heap (two_rules [0; 1])) (Model.heap w2)).
Proof.
  apply (reduction_and_marking_frame (fun s => s) mirrored
           side_names length_hash (two_rules [0; 1])).
  intros a Ha. apply elem_of_cons in Ha as [->|Ha].
  - eexists. split; [reflexivity|]. eexists. reflexivity.
  - apply list_elem_of_singleton in Ha as ->.
    eexists. split; [reflexivity|]. eexists. reflexivity.
Defined.

(** C8, as the claim has it: on the model with the rules [A{p} => A{u}]
    and [A{u} => A{p}] and the initial state [{A{p}: 2}],
    [reduce_context] leaves a model object with other rules and another
    initial state than before, and [eliminate_redundant], for a relation
    under which the two rules are compatible, leaves the rule object at
    address 0 with another comment than before. *)
Lemma reduction_and_marking_mutate :
  (exists w1,
      Model.reduce_context (fun s => s) side_names length_hash
        (two_rules [0; 1]) = Some w1
      /\ Model.rules (Model.model w1) = []
      /\ Model.init (Model.model w1) = [(A_wild, 2%Z)]
      /\ Model.model w1 <> Model.model (two_rules [0; 1]))
  /\ (exists w2,
         Model.eliminate_redundant mirrored (two_rules [0; 1]) = Some w2
         /\ Rule.comment <$> Model.heap w2 !! 0 = Some (true, [1; 2])
         /\ Model.heap w2 !! 0 <> Model.heap (two_rules [0; 1]) !! 0).
Proof.
  split.
  - eexists. split; [vm_compute; reflexivity|].
    split; [reflexivity|]. split; [reflexivity|].
    intros H. apply (f_equal Model.rules) in H. discriminate H.
  - eexists. split; [vm_compute; reflexivity|].
    split; [vm_compute; reflexivity|].
    intros H. apply (f_equal (fmap Rule.comment)) in H.
    vm_compute in H. discriminate H.
Qed.

(** ** Expansion of a rule *)

Section ExpansionFacts.
Import Atomic Species.

Lemma length_bind_const {A B} (f : A -> list B) (l : list A) (n : nat) :
  (forall x, length (f x) = n) -> length (l ≫= f) = length l * n.
Proof.
  intros Hf. induction l as [|x l IH]; [done|].
  change ((x :: l) ≫= f) with (f x ++ (l ≫= f)).
  rewrite length_app, Hf, IH. simpl. lia.
Qed.

Lemma product_length {A} (ls : list (list A)) :
  length (Rule.product ls) = foldr Nat.mul 1 (length <$> ls).
Proof.
  induction ls as [|l ls IH]; [done|].
  change (length (l ≫= fun x => (x ::.) <$> Rule.product ls)
          = length l * foldr Nat.mul 1 (length <$> ls)).
  rewrite <- IH. apply length_bind_const. intros x. apply length_fmap.
Qed.

Lemma size_list_to_set_le (l : list Reaction) :
  size (list_to_set (C := gset Reaction) l) <= length l.
Proof.
  induction l as [|x l IH].
  - change (size (∅ : gset Reaction) <= 0). by rewrite size_empty.
  - rewrite list_to_set_cons, size_union_alt, size_singleton. simpl length.
    pose proof (subseteq_size (list_to_set l ∖ {[x]})
                  (list_to_set (C := gset Reaction) l)) as H.
    specialize (H ltac:(set_solver)). lia.
Qed.

(** The second loop of [create_reactions] adds the reaction of every
    element of the product. *)
Lemma reactions_fold (r : Rule.Rule) combos rxs :
  reactions_of r combos rxs ->
  forall acc : gset Reaction,
    foldl (fun acc result =>
             reactions ← acc;
             rx ← Rule.to_reaction (Rule.new_rule r result);
             Some ({[ rx ]} ∪ reactions))
          (Some acc) combos
    = Some (list_to_set rxs ∪ acc).
Proof.
  induction 1 as [|combo rx combos rxs Hrx _ IH]; intros acc; simpl.
  - f_equal. set_solver.
  - rewrite Hrx. simpl. rewrite IH. f_equal. set_solver.
Qed.

Lemma reactions_of_exist (r : Rule.Rule) combos :
  is_Some (Rule.to_reaction r) -> exists rxs, reactions_of r combos rxs.
Proof.
  intros Hr. induction combos as [|combo combos [rxs IH]].
  - exists []. constructor.
  - assert (Hc : is_Some (Rule.to_reaction (Rule.new_rule r combo))).
    { unfold Rule.to_reaction, Rule.create_complexes in *.
      destruct (Rule.create_complexes_loop r (Rule.complexes r) [] [])
        as [s|] eqn:Hs; [|by destruct Hr].
      destruct (create_complexes_loop_is_Some r (Rule.new_rule r combo)
                  (Rule.complexes r) eq_refl eq_refl [] [] [] [])
        as [s' Hs']; [by rewrite Hs|].
      simpl. rewrite Hs'. simpl. done. }
    destruct Hc as [rx Hrx]. exists (rx :: rxs). by constructor.
Qed.

Lemma pair_context_concrete (r : Rule.Rule) (p : option nat * option nat)
    (sig : gmap string (gset string)) :
  concrete r -> p <> (None, None) ->
  (forall i, Some i = p.1 \/ Some i = p.2 -> i < length (Rule.agents r)) ->
  Rule.pair_context r p sig = Some {[ (side r p.1, side r p.2) ]}.
Proof.
  intros Hconc Hp Hidx.
  assert (Hget : forall i, Some i = p.1 \/ Some i = p.2 ->
             exists a, Rule.agents r !! i = Some a /\ state a <> "_").
  { intros i Hi. destruct (lookup_lt_is_Some_2 (Rule.agents r) i) as [a Ha];
      [by apply Hidx|].
    exists a. split; [done|]. apply Hconc. by eapply list_elem_of_lookup_2. }
  destruct p as [[l|] [ri|]]; simpl in *; [| | |done].
  - destruct (Hget l) as (a & Ha & Hsa); [auto|].
    destruct (Hget ri) as (b & Hb & Hsb); [auto|].
    rewrite Ha, Hb. simpl. unfold add_context.
    by rewrite (bool_decide_eq_false_2 (state a = "_")).
  - destruct (Hget l) as (a & Ha & Hsa); [auto|].
    rewrite Ha. simpl.
    by rewrite (bool_decide_eq_false_2 (state a = "_")).
  - destruct (Hget ri) as (a & Ha & Hsa); [auto|].
    rewrite Ha. simpl.
    by rewrite (bool_decide_eq_false_2 (state a = "_")).
Qed.

Lemma mapM_pointwise {A B} (f : A -> option B) (g : A -> B) (l : list A) :
  (forall x, x ∈ l -> f x = Some (g x)) -> mapM f l = Some (g <$> l).
Proof.
  intros H. apply mapM_Some, Forall2_fmap_r, Forall_Forall2_diag.
  by apply Forall_forall.
Qed.

Lemma product_singletons {A} (l : list A) :
  Rule.product ((fun x => [x]) <$> l) = [l].
Proof.
  induction l as [|x l IH]; [done|].
  change (([x] ≫= fun y => (y ::.) <$> Rule.product ((fun x => [x]) <$> l))
          = [x :: l]).
  by rewrite IH.
Qed.

Lemma omap_side (r : Rule.Rule) (l : list (option nat)) :
  omap id (side r <$> l) = omap (fun k => Rule.agents r !! k) (omap id l).
Proof.
  induction l as [|[k|] l IH]; [done| |exact IH].
  change (match Rule.agents r !! k with
          | Some a => a :: omap id (side r <$> l)
          | None => omap id (side r <$> l)
          end
          = match Rule.agents r !! k with
            | Some a => a :: omap (fun k => Rule.agents r !! k) (omap id l)
            | None => omap (fun k => Rule.agents r !! k) (omap id l)
            end).
  by rewrite IH.
Qed.

Lemma omap_lookup_seq {A} (pre l : list A) :
  omap (fun k => (pre ++ l) !! k) (seq (length pre) (length l)) = l.
Proof.
  revert pre. induction l as [|x l IH]; intros pre; [done|].
  simpl. rewrite list_lookup_middle by done. f_equal.
  specialize (IH (pre ++ [x])). rewrite length_app, <- app_assoc in IH.
  simpl in IH. by rewrite Nat.add_1_r in IH.
Qed.

(** A concrete rule whose pairs are in order is rebuilt as it is. *)
Lemma new_agents_in_order (r : Rule.Rule) :
  pairs_in_order r ->
  Rule.new_agents ((fun p => (side r p.1, side r p.2)) <$> Rule.pairs r)
  = Rule.agents r.
Proof.
  intros [Hord _]. unfold Rule.new_agents.
  set (f := fun p : option nat * option nat => (side r p.1, side r p.2)).
  assert (H1 : (f <$> Rule.pairs r).*1 = side r <$> (Rule.pairs r).*1)
    by (rewrite <- !list_fmap_compose; reflexivity).
  assert (H2 : (f <$> Rule.pairs r).*2 = side r <$> (Rule.pairs r).*2)
    by (rewrite <- !list_fmap_compose; reflexivity).
  rewrite H1, H2, <- fmap_app, omap_side. fold (index_order r).
  rewrite Hord. apply (omap_lookup_seq []).
Qed.

Lemma completions_concrete (r : Rule.Rule) (sig : gmap string (gset string)) :
  concrete r -> pairs_in_order r ->
  completions r sig
  = Some ((fun p => {[ (side r p.1, side r p.2) ]}) <$> Rule.pairs r).
Proof.
  intros Hconc [Hord Hnone]. unfold completions.
  apply (mapM_pointwise
           (fun p => Rule.pair_context r p sig)
           (fun p => ({[ (side r p.1, side r p.2) ]} : gset AgentPair))).
  intros p Hp. apply pair_context_concrete; [done|by apply Hnone|].
  intros i Hi.
  assert (Hin : i ∈ index_order r).
  { unfold index_order. apply list_elem_of_omap. exists (Some i).
    split; [|done]. apply elem_of_app.
    destruct Hi as [Hi|Hi]; [left|right]; rewrite Hi;
      apply list_elem_of_fmap; by exists p. }
  rewrite Hord in Hin. apply elem_of_seq in Hin. lia.
Qed.

(** The agents that a completion of a pair of a well-formed rule holds
    have a state, when the signature lists no wildcard. *)
Lemma pair_context_states (r : Rule.Rule)
    (atomic_signature : gmap string (gset string))
    (p : option nat * option nat) (S : gset AgentPair) (pr : AgentPair)
    (x : AtomicAgent) :
  well_formed r -> wildcard_free atomic_signature ->
  p ∈ Rule.pairs r ->
  Rule.pair_context r p atomic_signature = Some S ->
  pr ∈ S -> pr.1 = Some x \/ pr.2 = Some x ->
  state x <> "_".
Proof.
  intros Hwf Hfree Hp HS Hpr Hx. unfold Rule.pair_context in HS.
  assert (Hstates : forall (mk : string -> AgentPair) a T,
             atomic_signature !! name a ≫= (fun states =>
               Some (add_each mk states)) = Some T ->
             pr ∈ T -> exists s, s <> "_" /\ pr = mk s).
  { intros mk a T HT Hin.
    destruct (atomic_signature !! name a) as [states|] eqn:Hs;
      simpl in HT; [|done].
    injection HT as <-. apply elem_of_add_each in Hin as (s & Hs' & ->).
    exists s. split; [|done]. intros ->. by apply (Hfree _ _ Hs). }
  destruct p as [[l|] [ri|]]; simpl in HS.
  - destruct (Rule.agents r !! l) as [a|] eqn:Ha; simpl in HS; [|done].
    destruct (Rule.agents r !! ri) as [b|] eqn:Hb; simpl in HS; [|done].
    destruct (Hwf l ri a b Hp Ha Hb) as [Hn Hst].
    unfold add_context in HS.
    destruct (decide (state a = "_")) as [Hwa|Hca].
    + rewrite !bool_decide_eq_true_2 in HS by tauto. simpl in HS.
      destruct (Hstates _ a S HS Hpr) as (s & Hs & ->).
      simpl in Hx. destruct Hx as [[= <-]|[= <-]]; done.
    + rewrite bool_decide_eq_false_2 in HS by done. simpl in HS.
      injection HS as <-. apply elem_of_singleton in Hpr as ->.
      simpl in Hx. destruct Hx as [[= <-]|[= <-]]; [done|tauto].
  - destruct (Rule.agents r !! l) as [a|] eqn:Ha; simpl in HS; [|done].
    unfold add_context in HS. simpl in HS.
    destruct (decide (state a = "_")) as [Hwa|Hca].
    + rewrite bool_decide_eq_true_2 in HS by done.
      destruct (Hstates _ a S HS Hpr) as (s & Hs & ->).
      simpl in Hx. destruct Hx as [[= <-]|[=]]; done.
    + rewrite bool_decide_eq_false_2 in HS by done.
      injection HS as <-. apply elem_of_singleton in Hpr as ->.
      simpl in Hx. destruct Hx as [[= <-]|[=]]; done.
  - destruct (Rule.agents r !! ri) as [a|] eqn:Ha; simpl in HS; [|done].
    unfold add_context in HS. simpl in HS.
    destruct (decide (state a = "_")) as [Hwa|Hca].
    + rewrite bool_decide_eq_true_2 in HS by done.
      destruct (Hstates _ a S HS Hpr) as (s & Hs & ->).
      simpl in Hx. destruct Hx as [[=]|[= <-]]; done.
    + rewrite bool_decide_eq_false_2 in HS by done.
      injection HS as <-. apply elem_of_singleton in Hpr as ->.
      simpl in Hx. destruct Hx as [[=]|[= <-]]; done.
  - done.
Qed.

(** An element of the product takes its components from the
    collections, position by position. *)
Lemma elem_of_product {A} (ls : list (list A)) (combo : list A) :
  combo ∈ Rule.product ls -> Forall2 (fun x l => x ∈ l) combo ls.
Proof.
  revert combo. induction ls as [|l ls IH]; intros combo; simpl.
  - intros ->%list_elem_of_singleton. constructor.
  - intros (x & Hc & Hx)%list_elem_of_bind.
    apply list_elem_of_fmap in Hc as (c' & -> & Hc').
    constructor; [done|]. by apply IH.
Qed.

Lemma elem_of_take_drop {A} (l : list A) (n k : nat) (x : A) :
  x ∈ take n (drop k l) -> x ∈ l.
Proof.
  intros H. rewrite <- (take_drop k l). apply elem_of_app. right.
  rewrite <- (take_drop n (drop k l)). apply elem_of_app. by left.
Qed.

(** The complexes that the slicing loop adds hold agents of the rule. *)
Lemma create_complexes_loop_agents (r : Rule.Rule) (P : Complex -> Prop)
    (spans : list (nat * nat)) :
  (forall f t comp, P (mkComplex (Rule.slice (Rule.agents r) f t) comp)) ->
  forall l1 l2 sides,
    Rule.create_complexes_loop r spans l1 l2 = Some sides ->
    Forall P l1 -> Forall P l2 ->
    Forall P sides.1 /\ Forall P sides.2.
Proof.
  intros HP. induction spans as [|[f t] spans IH];
    intros l1 l2 sides Hrun H1 H2.
  - simpl in Hrun. injection Hrun as <-. done.
  - cbn [Rule.create_complexes_loop] in Hrun.
    destruct (Rule.compartments r !! f) as [comp|];
      cbn [mbind option_bind] in Hrun; [|done].
    case_bool_decide.
    + eapply IH; [exact Hrun| |done].
      apply Forall_app. split; [done|]. by constructor.
    + eapply IH; [exact Hrun|done|].
      apply Forall_app. split; [done|]. by constructor.
Qed.

(** The reactions of the elements of the product are concrete for a
    well-formed rule and a signature that lists no wildcard. *)
Lemma reactions_of_concrete (r : Rule.Rule)
    (atomic_signature : gmap string (gset string))
    (results : list (gset AgentPair)) (rxs : list Reaction) :
  well_formed r -> wildcard_free atomic_signature ->
  completions r atomic_signature = Some results ->
  reactions_of r (Rule.product (elements <$> results)) rxs ->
  Forall concrete_reaction rxs.
Proof.
  intros Hwf Hfree Hres Hrxs. apply Forall_forall. intros rx Hrx.
  apply list_elem_of_lookup in Hrx as [i Hi].
  destruct (Forall2_lookup_r _ _ _ _ _ Hrxs Hi) as (combo & Hcombo & Hto).
  apply list_elem_of_lookup_2, elem_of_product in Hcombo.
  rewrite Forall2_fmap_r in Hcombo.
  apply mapM_Some in Hres.
  assert (Hagents : forall x, x ∈ Rule.new_agents combo -> state x <> "_").
  { intros x Hx. unfold Rule.new_agents in Hx.
    apply list_elem_of_omap in Hx as (ox & Hox & Hid). simpl in Hid.
    subst ox.
    assert (exists pr, pr ∈ combo /\ (pr.1 = Some x \/ pr.2 = Some x))
      as (pr & Hpr & Hside).
    { apply elem_of_app in Hox as [H|H];
        apply list_elem_of_fmap in H as (pr & Hpr & Hin);
        exists pr; split; auto. }
    apply list_elem_of_lookup in Hpr as [k Hk].
    destruct (Forall2_lookup_l _ _ _ _ _ Hcombo Hk) as (S & HS & Hin).
    destruct (Forall2_lookup_r _ _ _ _ _ Hres HS) as (p & Hp & Hctx).
    apply elem_of_elements in Hin.
    eapply (pair_context_states r atomic_signature p S pr x); try done.
    by eapply list_elem_of_lookup_2. }
  unfold Rule.to_reaction, Rule.create_complexes in Hto.
  destruct (Rule.create_complexes_loop (Rule.new_rule r combo)
              (Rule.complexes (Rule.new_rule r combo)) [] [])
    as [sides|] eqn:Hloop; cbn [mbind option_bind] in Hto; [|done].
  injection Hto as <-.
  destruct (create_complexes_loop_agents (Rule.new_rule r combo)
              (fun c => forall a, a ∈ Species.agents c -> state a <> "_")
              (Rule.complexes (Rule.new_rule r combo)))
    with (l1 := @nil Complex) (l2 := @nil Complex) (sides := sides)
    as [H1 H2]; [|done|done|done|].
  { intros f t comp a Ha. apply Hagents. simpl in Ha.
    unfold Rule.slice in Ha. by eapply elem_of_take_drop. }
  intros c a [Hc|Hc] Ha; simpl in Hc;
    apply elem_of_list_to_set_disj in Hc.
  - by eapply (proj1 (Forall_forall _ _) H1).
  - by eapply (proj1 (Forall_forall _ _) H2).
Qed.

(** C5, as the code has it: for a well-formed rule that converts to a
    reaction, when the completion sets of the pairs are [results], the
    product has as many elements as the product of their sizes, and
    [create_reactions] returns the set of the reactions of these
    elements: at most that many, and exactly that many when no two
    elements give the same reaction.  The reactions are concrete when
    the signature lists the wildcard among the states of no name.  A
    rule without wildcards whose pairs list its agents in order expands
    to the one reaction that the rule itself converts to. *)
Theorem create_reactions_expansion (r : Rule.Rule)
    (atomic_signature : gmap string (gset string)) :
  well_formed r ->
  is_Some (Rule.to_reaction r) ->
  (forall results,
      completions r atomic_signature = Some results ->
      let combos := Rule.product (elements <$> results) in
      let bound := foldr Nat.mul 1 (size <$> results) in
      length combos = bound
      /\ exists rxs,
          reactions_of r combos rxs
          /\ Rule.create_reactions r atomic_signature
             = Some (list_to_set rxs)
          /\ size (list_to_set (C := gset Reaction) rxs) <= bound
          /\ (NoDup rxs ->
              size (list_to_set (C := gset Reaction) rxs) = bound)
          /\ (wildcard_free atomic_signature ->
              Forall concrete_reaction rxs))
  /\ (concrete r -> pairs_in_order r ->
      forall rx, Rule.to_reaction r = Some rx ->
                 Rule.create_reactions r atomic_signature = Some {[ rx ]}).
Proof.
  intros Hwf Hr. split.
  - intros results Hres combos bound.
    assert (Hlen : length combos = bound).
    { unfold combos, bound. rewrite product_length, <- list_fmap_compose.
      reflexivity. }
    split; [done|].
    destruct (reactions_of_exist r combos Hr) as [rxs Hrxs].
    exists rxs. split; [done|]. split; [|split; [|split]].
    + unfold Rule.create_reactions. unfold completions in Hres.
      rewrite Hres. simpl. fold combos.
      rewrite (reactions_fold r combos rxs Hrxs ∅). f_equal. set_solver.
    + rewrite <- Hlen, (Forall2_length _ _ _ Hrxs).
      apply size_list_to_set_le.
    + intros Hnd. rewrite <- Hlen, (Forall2_length _ _ _ Hrxs).
      by apply size_list_to_set.
    + intros Hfree.
      by apply (reactions_of_concrete r atomic_signature results).
  - intros Hconc Hord rx Hrx. unfold Rule.create_reactions.
    pose proof (completions_concrete r atomic_signature Hconc Hord) as Hc.
    unfold completions in Hc. rewrite Hc. cbn [mbind option_bind].
    set (f := fun p : option nat * option nat => (side r p.1, side r p.2)).
    assert (He : elements
                   <$> ((fun p : option nat * option nat =>
                           ({[ (side r p.1, side r p.2) ]} : gset AgentPair))
                          <$> Rule.pairs r)
                 = (fun x => [x]) <$> (f <$> Rule.pairs r)).
    { rewrite <- !list_fmap_compose. apply list_fmap_ext.
      intros i p _. simpl. apply elements_singleton. }
    rewrite He, product_singletons. cbn [foldl mbind option_bind].
    assert (Hnew : Rule.new_rule r (f <$> Rule.pairs r)
                   = Rule.set_comment (false, []) r).
    { unfold Rule.new_rule, Rule.new, Rule.set_comment, f.
      by rewrite (new_agents_in_order r Hord). }
    rewrite Hnew, to_reaction_set_comment, Hrx. cbn [mbind option_bind].
    f_equal. set_solver.
Qed.

End ExpansionFacts.

Lemma create_reactions_elements (r : Rule.Rule)
    (sig : gmap string (gset string)) (l : list Species.Reaction) :
  elements <$> Rule.create_reactions r sig = Some l ->
  Rule.create_reactions r sig = Some (list_to_set l).
Proof.
  destruct (Rule.create_reactions r sig) as [R|]; simpl; [|done].
  intros [= <-]. f_equal. symmetry. apply list_to_set_elements_L.
Qed.

(** The scenario of the spec: [A{_} => A{_} @ k] with the states [p] and
    [u] expands to [A{p} => A{p} @ k] and [A{u} => A{u} @ k]. *)
Example create_reactions_wildcard_pair :
  Rule.create_reactions rule_wild signature_A
  = Some {[ Species.mkReaction {[+ single "A" "p" "cyt" +]}
                               {[+ single "A" "p" "cyt" +]} (Some "k");
            Species.mkReaction {[+ single "A" "u" "cyt" +]}
                               {[+ single "A" "u" "cyt" +]} (Some "k") ]}.
Proof.
  rewrite (create_reactions_elements rule_wild signature_A
             [ Species.mkReaction {[+ single "A" "u" "cyt" +]}
                                  {[+ single "A" "u" "cyt" +]} (Some "k");
               Species.mkReaction {[+ single "A" "p" "cyt" +]}
                                  {[+ single "A" "p" "cyt" +]} (Some "k") ])
    by (vm_compute; reflexivity).
  f_equal; set_solver.
Qed.

Lemma rule_wild_well_formed : well_formed rule_wild.
Proof.
  intros l ri a b Hin Ha Hb.
  apply list_elem_of_singleton in Hin as [= -> ->].
  simpl in Ha, Hb. simplify_eq. by split.
Qed.

Lemma rule_decay_well_formed : well_formed rule_decay.
Proof.
  intros l ri a b Hin Ha Hb.
  apply list_elem_of_singleton in Hin as [= -> ->].
  simpl in Ha, Hb. simplify_eq. by split.
Qed.

Lemma signature_A_wildcard_free : wildcard_free signature_A.
Proof.
  intros n states Hs. unfold signature_A in Hs.
  apply lookup_insert_Some in Hs as [[_ <-]|[_ Hs]]; [set_solver|].
  by rewrite lookup_empty in Hs.
Qed.

Lemma create_reactions_expansion_witness :
  (exists results rxs,
      completions rule_wild signature_A = Some results
      /\ foldr Nat.mul 1 (size <$> results) = 2
      /\ reactions_of rule_wild (Rule.product (elements <$> results)) rxs
      /\ Rule.create_reactions rule_wild signature_A
         = Some (list_to_set rxs)
      /\ Forall concrete_reaction rxs)
  /\ (exists rx,
         Rule.to_reaction rule_decay = Some rx
         /\ Rule.create_reactions rule_decay signature_A = Some {[ rx ]}).
Proof.
  split.
  - assert (exists results,
               completions rule_wild signature_A = Some results
               /\ foldr Nat.mul 1 (size <$> results) = 2)
      as (results & Hres & Hbound)
      by (eexists; split; vm_compute; reflexivity).
    destruct (create_reactions_expansion rule_wild signature_A
                rule_wild_well_formed) as [H _].
    { eexists. vm_compute. reflexivity. }
    destruct (H results Hres) as (_ & rxs & Hrxs & Hrun & _ & _ & Hconc).
    exists results, rxs. split; [exact Hres|]. split; [exact Hbound|].
    split; [exact Hrxs|]. split; [exact Hrun|].
    exact (Hconc signature_A_wildcard_free).
  - assert (exists rx, Rule.to_reaction rule_decay = Some rx) as [rx Hrx]
      by (eexists; vm_compute; reflexivity).
    exists rx. split; [exact Hrx|].
    destruct (create_reactions_expansion rule_decay signature_A
                rule_decay_well_formed) as [_ H].
    { by eexists. }
    apply H; [| |exact Hrx].
    + intros a Ha. unfold rule_decay in Ha. simpl in Ha.
      repeat (apply elem_of_cons in Ha as [->|Ha]; [done|]).
      by apply elem_of_nil in Ha.
    + split; [reflexivity|].
      intros p Hp. apply list_elem_of_singleton in Hp as ->. discriminate.
Defined.

(** [rule_swapped] is well formed and has no wildcard, and it expands
    to one reaction, which is not the reaction that the rule itself
    converts to: the agents are rebuilt in the order of the pairs, so
    [B{q}] lands in [cyt] and [A{p}] in [nuc]. *)
Lemma create_reactions_swapped_pairs :
  well_formed rule_swapped
  /\ concrete rule_swapped
  /\ Rule.to_reaction rule_swapped
     = Some (Species.mkReaction
               {[+ single "A" "p" "cyt"; single "B" "q" "nuc" +]}
               {[+ single "A" "u" "cyt"; single "B" "q" "nuc" +]} None)
  /\ Rule.create_reactions rule_swapped signature_A
     = Some {[ Species.mkReaction
                 {[+ single "B" "q" "cyt"; single "A" "p" "nuc" +]}
                 {[+ single "B" "q" "cyt"; single "A" "u" "nuc" +]} None ]}
  /\ Species.mkReaction
       {[+ single "A" "p" "cyt"; single "B" "q" "nuc" +]}
       {[+ single "A" "u" "cyt"; single "B" "q" "nuc" +]} None
     <> Species.mkReaction
          {[+ single "B" "q" "cyt"; single "A" "p" "nuc" +]}
          {[+ single "B" "q" "cyt"; single "A" "u" "nuc" +]} None.
Proof.
  split; [|split; [|split; [|split]]].
  - intros l ri a b Hin Ha Hb.
    apply elem_of_cons in Hin as [[= -> ->]|Hin].
    { simpl in Ha, Hb. simplify_eq. by split. }
    apply list_elem_of_singleton in Hin as [= -> ->].
    simpl in Ha, Hb. simplify_eq. by split.
  - intros a Ha. unfold rule_swapped in Ha. simpl in Ha.
    repeat (apply elem_of_cons in Ha as [->|Ha]; [done|]).
    by apply elem_of_nil in Ha.
  - vm_compute. reflexivity.
  - rewrite (create_reactions_elements rule_swapped signature_A
               [ Species.mkReaction
                   {[+ single "B" "q" "cyt"; single "A" "p" "nuc" +]}
                   {[+ single "B" "q" "cyt"; single "A" "u" "nuc" +]} None ])
      by (vm_compute; reflexivity).
    f_equal; set_solver.
  - intros H. apply (f_equal Species.lhs) in H.
    apply (f_equal (multiplicity (single "A" "p" "cyt"))) in H.
    vm_compute in H. discriminate H.
Qed.

(** With the signature that [extract_signatures] builds for the rule
    [A{_} => A{_} @ k] alone, in which [A] has the wildcard as its one
    state, the rule is well formed and expands to the one reaction
    [A{_} => A{_} @ k], which is not concrete. *)
Lemma create_reactions_wildcard_signature :
  well_formed rule_wild
  /\ (Model.extract_signatures [rule_wild] [] true).1 !! "A"
     = Some {[ "_" ]}
  /\ Rule.create_reactions rule_wild
       (Model.extract_signatures [rule_wild] [] true).1
     = Some {[ Species.mkReaction {[+ single "A" "_" "cyt" +]}
                                  {[+ single "A" "_" "cyt" +]} (Some "k") ]}
  /\ ~ concrete_reaction
        (Species.mkReaction {[+ single "A" "_" "cyt" +]}
                            {[+ single "A" "_" "cyt" +]} (Some "k")).
Proof.
  split; [exact rule_wild_well_formed|]. split; [vm_compute; reflexivity|].
  split.
  - rewrite (create_reactions_elements rule_wild _
               [ Species.mkReaction {[+ single "A" "_" "cyt" +]}
                                    {[+ single "A" "_" "cyt" +]}
                                    (Some "k") ])
      by (vm_compute; reflexivity).
    f_equal; set_solver.
  - intros H.
    apply (H (single "A" "_" "cyt") (Atomic.mkAtomic "A" "_"));
      [left; simpl; multiset_solver|by left|reflexivity].
Qed.

(** C5, as the claim has it, fails in two ways: a well-formed rule
    without wildcards whose pairs are not listed in the order of its
    agents expands to a reaction that is not the rule's own, and the
    signature that the constructor builds for a name seen as a wildcard
    only makes a well-formed rule expand to a reaction that is not
    concrete. *)
Lemma create_reactions_not_as_claimed :
  (well_formed rule_swapped
   /\ concrete rule_swapped
   /\ Rule.to_reaction rule_swapped
      = Some (Species.mkReaction
                {[+ single "A" "p" "cyt"; single "B" "q" "nuc" +]}
                {[+ single "A" "u" "cyt"; single "B" "q" "nuc" +]} None)
   /\ Rule.create_reactions rule_swapped signature_A
      = Some {[ Species.mkReaction
                  {[+ single "B" "q" "cyt"; single "A" "p" "nuc" +]}
                  {[+ single "B" "q" "cyt"; single "A" "u" "nuc" +]}
                  None ]}
   /\ Species.mkReaction
        {[+ single "A" "p" "cyt"; single "B" "q" "nuc" +]}
        {[+ single "A" "u" "cyt"; single "B" "q" "nuc" +]} None
      <> Species.mkReaction
           {[+ single "B" "q" "cyt"; single "A" "p" "nuc" +]}
           {[+ single "B" "q" "cyt"; single "A" "u" "nuc" +]} None)
  /\ (well_formed rule_wild
      /\ (Model.extract_signatures [rule_wild] [] true).1 !! "A"
         = Some {[ "_" ]}
      /\ Rule.create_reactions rule_wild
           (Model.extract_signatures [rule_wild] [] true).1
         = Some {[ Species.mkReaction {[+ single "A" "_" "cyt" +]}
                                      {[+ single "A" "_" "cyt" +]}
                                      (Some "k") ]}
      /\ ~ concrete_reaction
            (Species.mkReaction {[+ single "A" "_" "cyt" +]}
                                {[+ single "A" "_" "cyt" +]} (Some "k"))).
Proof.
  split.
  - exact create_reactions_swapped_pairs.
  - exact create_reactions_wildcard_signature.
Qed.

(** * Further properties of the code *)

(** ** Atomic agents *)

Section MoreAtomicFacts.
Import Atomic.

Lemma eqb_refl (a : AtomicAgent) : eqb a a = true.
Proof. unfold eqb. by rewrite !bool_decide_eq_true_2. Qed.

Lemma compatible_spec (a b : AtomicAgent) :
  compatible a (OAtomic b) = true
  <-> a = b \/ (name a = name b /\ state a = "_").
Proof.
  simpl. rewrite orb_true_iff, andb_true_iff, !bool_decide_eq_true.
  unfold eqb. rewrite andb_true_iff, !bool_decide_eq_true.
  destruct a, b; simpl. split; [intros [[-> ->]|?]; auto|].
  intros [[= -> ->]|?]; auto.
Qed.

(** X1: the reduced agent is idempotent under reduction, it is compatible
    with the agent it comes from, and with every agent that the original
    is compatible with. *)
Theorem reduce_context_generalises (a b : AtomicAgent) :
  reduce_context (reduce_context a) = reduce_context a
  /\ compatible (reduce_context a) (OAtomic a) = true
  /\ (compatible a (OAtomic b) = true ->
      compatible (reduce_context a) (OAtomic b) = true).
Proof.
  split; [done|]. split.
  - apply compatible_spec. right. done.
  - rewrite !compatible_spec. intros [->|[Hn _]]; right; done.
Qed.

Lemma reduce_context_generalises_witness :
  reduce_context (reduce_context (mkAtomic "A" "p"))
  = reduce_context (mkAtomic "A" "p")
  /\ compatible (reduce_context (mkAtomic "A" "p"))
                (OAtomic (mkAtomic "A" "p")) = true
  /\ (compatible (mkAtomic "A" "p") (OAtomic (mkAtomic "A" "p")) = true ->
      compatible (reduce_context (mkAtomic "A" "p"))
                 (OAtomic (mkAtomic "A" "p")) = true).
Proof.
  apply (reduce_context_generalises (mkAtomic "A" "p") (mkAtomic "A" "p")).
Defined.

(** X2: a pattern is compatible with what [replace] makes of any agent;
    applied to an agent that the pattern is compatible with, [replace]
    returns that agent. *)
Theorem replace_instance (self agent : AtomicAgent) :
  compatible self (OAtomic (replace self agent)) = true
  /\ (compatible self (OAtomic agent) = true -> replace self agent = agent).
Proof.
  unfold replace. split.
  - apply compatible_spec. case_bool_decide; [by right|].
    left. by destruct self.
  - rewrite compatible_spec. intros [->|[Hn Hs]].
    + case_bool_decide; by destruct agent.
    + rewrite bool_decide_eq_true_2 by done. rewrite Hn. by destruct agent.
Qed.

Lemma replace_instance_witness :
  compatible (mkAtomic "A" "_")
             (OAtomic (replace (mkAtomic "A" "_") (mkAtomic "A" "p"))) = true
  /\ replace (mkAtomic "A" "_") (mkAtomic "A" "p") = mkAtomic "A" "p".
Proof.
  destruct (replace_instance (mkAtomic "A" "_") (mkAtomic "A" "p"))
    as [H1 H2].
  split; [exact H1|]. apply H2. reflexivity.
Defined.

Lemma lookup_extend_signature (a : AtomicAgent)
    (sig : gmap string (gset string)) (n : string) :
  extend_signature a sig !! n
  = if bool_decide (state a <> "_" /\ name a = n)
    then Some (default ∅ (sig !! n) ∪ {[ state a ]})
    else sig !! n.
Proof.
  unfold extend_signature. case_bool_decide as Hs.
  - rewrite lookup_insert. destruct (decide (name a = n)) as [<-|Hn].
    + by rewrite bool_decide_eq_true_2.
    + rewrite bool_decide_eq_false_2; [done|]. tauto.
  - rewrite bool_decide_eq_false_2; [done|]. tauto.
Qed.

(** X3: extending a signature by two agents gives the same signature in
    either order, and extending twice by the same agent is extending
    once. *)
Theorem extend_signature_order_independent (a b : AtomicAgent)
    (sig : gmap string (gset string)) :
  extend_signature a (extend_signature b sig)
  = extend_signature b (extend_signature a sig)
  /\ extend_signature a (extend_signature a sig) = extend_signature a sig.
Proof.
  split; apply map_eq; intros n; rewrite !lookup_extend_signature;
    repeat case_bool_decide; simpl; try done; f_equal; set_solver.
Qed.

(** X4: [extend_signature] only adds: every state of every entry stays,
    the state of a concrete agent is in the entry of its name afterwards,
    and a state that is in an entry afterwards was there before or is the
    state of the agent, which is then not the wildcard. *)
Theorem extend_signature_adds (a : AtomicAgent)
    (sig : gmap string (gset string)) (n s : string) :
  (forall states, sig !! n = Some states -> s ∈ states ->
      exists states', extend_signature a sig !! n = Some states'
                      /\ s ∈ states')
  /\ (state a <> "_" ->
      exists states', extend_signature a sig !! name a = Some states'
                      /\ state a ∈ states')
  /\ (forall states', extend_signature a sig !! n = Some states' ->
        s ∈ states' ->
        (exists states, sig !! n = Some states /\ s ∈ states)
        \/ (n = name a /\ s = state a /\ s <> "_")).
Proof.
  rewrite !lookup_extend_signature. split; [|split].
  - intros states Hn Hs. case_bool_decide.
    + eexists. split; [done|]. rewrite Hn. set_solver.
    + eauto.
  - intros Ha. rewrite bool_decide_eq_true_2 by done.
    eexists. split; [done|]. set_solver.
  - intros states'. case_bool_decide as H.
    + intros [= <-] Hs. destruct H as [Ha <-].
      apply elem_of_union in Hs as [Hs|Hs%elem_of_singleton].
      * left. destruct (sig !! name a) as [states|]; [eauto|].
        by apply not_elem_of_empty in Hs.
      * right. by subst.
    + intros Hn Hs. left. eauto.
Qed.

Lemma extend_signature_adds_witness :
  exists states',
    extend_signature (mkAtomic "A" "p") ∅ !! "A" = Some states'
    /\ "p" ∈ states'.
Proof.
  destruct (extend_signature_adds (mkAtomic "A" "p") ∅ "A" "p")
    as (_ & H & _).
  apply H. simpl. discriminate.
Defined.

(** X5: [add_context] raises exactly when the agent is a wildcard, the
    other side is not an agent with a state, and the signature has no
    entry for the name of the agent. *)
Theorem add_context_raises (a : AtomicAgent) (other : Operand)
    (atomic_signature : gmap string (gset string)) :
  add_context a other atomic_signature = None
  <-> state a = "_"
      /\ (forall b, other = OAtomic b -> state b = "_")
      /\ atomic_signature !! name a = None.
Proof.
  unfold add_context. destruct other as [b|z|].
  - destruct (decide (state a = "_")) as [Ha|Ha],
             (decide (state b = "_")) as [Hb|Hb];
      rewrite ?(bool_decide_eq_true_2 _ Ha), ?(bool_decide_eq_true_2 _ Hb),
        ?(bool_decide_eq_false_2 _ Ha), ?(bool_decide_eq_false_2 _ Hb);
      simpl.
    + destruct (atomic_signature !! name a); simpl.
      * split; [done|]. by intros (_ & _ & ?).
      * split; [|done]. intros _. split; [done|]. split; [|done].
        by intros ? [= <-].
    + split; [done|]. intros (_ & H & _). destruct Hb. by apply H.
    + split; [done|]. by intros (? & _).
    + split; [done|]. by intros (? & _).
  - case_bool_decide; case_bool_decide as Ha; simpl;
      try (split; [done|]; by intros (? & _));
      destruct (atomic_signature !! name a); simpl;
      (split; [try done; intros _; by repeat split|]);
      try done; by intros (_ & _ & ?).
  - case_bool_decide; case_bool_decide as Ha; simpl;
      try (split; [done|]; by intros (? & _));
      destruct (atomic_signature !! name a); simpl;
      (split; [try done; intros _; by repeat split|]);
      try done; by intros (_ & _ & ?).
Qed.

(** X6: for an agent without counterpart, the marker -1 puts the agent on
    the right of every pair and anything else puts it on the left; a
    wildcard agent gives one pair per state of its name in the signature,
    an agent with a state gives the one pair that holds it. *)
Theorem add_context_created_destroyed (a : AtomicAgent) (z : Z)
    (atomic_signature : gmap string (gset string)) :
  let place := fun x : AtomicAgent =>
                 if bool_decide (z = (-1)%Z)
                 then (None, Some x) else (Some x, None) in
  (state a <> "_" ->
   add_context a (OInt z) atomic_signature = Some {[ place a ]})
  /\ (forall states,
        state a = "_" -> atomic_signature !! name a = Some states ->
        exists result,
          add_context a (OInt z) atomic_signature = Some result
          /\ size result = size states
          /\ forall p, p ∈ result <->
                       exists s, s ∈ states
                                 /\ p = place (mkAtomic (name a) s)).
Proof.
  intros place. unfold add_context, place.
  destruct (decide (z = (-1)%Z)) as [->|Hz].
  - rewrite !bool_decide_eq_true_2 by done. split.
    + intros Ha. by rewrite bool_decide_eq_false_2.
    + intros states Ha Hsig. rewrite bool_decide_eq_true_2 by done.
      rewrite Hsig. simpl. eexists. split; [done|]. split.
      * apply size_add_each. by intros s1 s2 [= ->].
      * intros p. apply elem_of_add_each.
  - rewrite (bool_decide_eq_false_2 (OInt z = OInt (-1)))
      by (by intros [= ?]).
    rewrite !(bool_decide_eq_false_2 (z = (-1)%Z)) by done. split.
    + intros Ha. by rewrite bool_decide_eq_false_2.
    + intros states Ha Hsig. rewrite bool_decide_eq_true_2 by done.
      rewrite Hsig. simpl. eexists. split; [done|]. split.
      * apply size_add_each. by intros s1 s2 [= ->].
      * intros p. apply elem_of_add_each.
Qed.

Lemma add_context_created_destroyed_witness :
  add_context (mkAtomic "A" "p") (OInt (-1)) ∅
  = Some {[ (None, Some (mkAtomic "A" "p")) ]}
  /\ exists result,
      add_context (mkAtomic "A" "_") (OInt 1) (<["A" := {[ "p"; "u" ]}]> ∅)
      = Some result
      /\ size result = 2.
Proof.
  split.
  - apply (add_context_created_destroyed (mkAtomic "A" "p") (-1) ∅).
    simpl. discriminate.
  - destruct (add_context_created_destroyed (mkAtomic "A" "_") 1
                (<["A" := {[ "p"; "u" ]}]> ∅)) as [_ H].
    destruct (H {[ "p"; "u" ]}) as (result & Hr & Hs & _);
      [reflexivity..|].
    exists result. split; [exact Hr|]. rewrite Hs. reflexivity.
Defined.

(** X7: what [add_context] returns for two agents of one name are pairs
    of agents, the left one an instance of the first agent and the right
    one an instance of the second: each agent is compatible with its
    completion. *)
Theorem add_context_instances (a b : AtomicAgent)
    (atomic_signature : gmap string (gset string))
    (result : gset AgentPair) (p : AgentPair) :
  name a = name b ->
  add_context a (OAtomic b) atomic_signature = Some result ->
  p ∈ result ->
  exists x y,
    p = (Some x, Some y)
    /\ compatible a (OAtomic x) = true
    /\ compatible b (OAtomic y) = true.
Proof.
  intros Hn. unfold add_context.
  destruct (bool_decide (state a = "_") && bool_decide (state b = "_"))
    eqn:Hw.
  - apply andb_true_iff in Hw as [Ha%bool_decide_eq_true
                                    Hb%bool_decide_eq_true].
    destruct (atomic_signature !! name a) as [states|];
      cbn [mbind option_bind]; [|done].
    intros [= <-] (s & _ & ->)%elem_of_add_each.
    eexists _, _. split; [done|]. rewrite !compatible_spec. split; right.
    + done.
    + by rewrite <- Hn.
  - intros [= <-] ->%elem_of_singleton.
    eexists _, _. split; [done|]. rewrite !compatible_spec. auto.
Qed.

Lemma add_context_instances_witness :
  exists x y,
    (Some (mkAtomic "A" "p"), Some (mkAtomic "A" "u")) = (Some x, Some y)
    /\ compatible (mkAtomic "A" "p") (OAtomic x) = true
    /\ compatible (mkAtomic "A" "u") (OAtomic y) = true.
Proof.
  apply (add_context_instances (mkAtomic "A" "p") (mkAtomic "A" "u") ∅
           {[ (Some (mkAtomic "A" "p"), Some (mkAtomic "A" "u")) ]}).
  - reflexivity.
  - reflexivity.
  - apply elem_of_singleton. reflexivity.
Defined.

(** X8: the order of agents looks at the names only: it is irreflexive
    and asymmetric, and two agents of one name are not ordered, whatever
    their states. *)
Theorem ltb_names_only (a b : AtomicAgent) :
  ltb a a = false
  /\ (ltb a b = true -> ltb b a = false)
  /\ (name a = name b -> ltb a b = false /\ ltb b a = false).
Proof.
  assert (Hirr : forall s, String.ltb s s = false).
  { intros s. unfold String.ltb.
    pose proof (String.compare_antisym s s) as H.
    by destruct (String.compare s s). }
  unfold ltb. split; [apply Hirr|]. split.
  - unfold String.ltb. rewrite (String.compare_antisym (name a) (name b)).
    by destruct (String.compare (name b) (name a)).
  - intros ->. by rewrite Hirr.
Qed.

Lemma ltb_names_only_witness :
  ltb (mkAtomic "A" "p") (mkAtomic "A" "u") = false
  /\ ltb (mkAtomic "A" "u") (mkAtomic "A" "p") = false.
Proof.
  apply (ltb_names_only (mkAtomic "A" "p") (mkAtomic "A" "u")).
  reflexivity.
Defined.

End MoreAtomicFacts.

(** ** Rules *)

Section MoreRuleFacts.
Import Atomic Species.

Lemma size_list_to_set_disj (l : list Complex) :
  size (list_to_set_disj l : gmultiset Complex) = length l.
Proof.
  induction l as [|c l IH]; [done|].
  rewrite list_to_set_disj_cons, gmultiset_size_disj_union,
    gmultiset_size_singleton, IH. done.
Qed.

(** The slicing loop raises exactly when a span starts outside the
    compartments. *)
Lemma create_complexes_loop_Some (r : Rule.Rule) (spans : list (nat * nat))
    (l1 l2 : list Complex) :
  is_Some (Rule.create_complexes_loop r spans l1 l2)
  <-> Forall (fun span => span.1 < length (Rule.compartments r)) spans.
Proof.
  revert l1 l2. induction spans as [|[f t] spans IH]; intros l1 l2; simpl.
  - split; [constructor|by eexists].
  - rewrite Forall_cons. simpl.
    destruct (Rule.compartments r !! f) as [comp|] eqn:Hf; simpl.
    + apply lookup_lt_Some in Hf. case_bool_decide; rewrite IH; tauto.
    + apply lookup_ge_None in Hf. split; [by intros [? ?]|].
      intros [? _]. lia.
Qed.

(** The slicing loop puts every span on one side. *)
Lemma create_complexes_loop_lengths (r : Rule.Rule)
    (spans : list (nat * nat)) :
  forall l1 l2 sides,
    Rule.create_complexes_loop r spans l1 l2 = Some sides ->
    length sides.1
    = length l1 + length (filter (fun span => span.2 < Rule.mid r) spans)
    /\ length sides.2
       = length l2
         + length (filter (fun span => ~ span.2 < Rule.mid r) spans).
Proof.
  induction spans as [|[f t] spans IH]; intros l1 l2 sides; simpl.
  - intros [= <-]. simpl. rewrite ?filter_nil. simpl. lia.
  - destruct (Rule.compartments r !! f) as [comp|]; simpl; [|done].
    rewrite !filter_cons. simpl. case_bool_decide as Ht; intros Hloop.
    + destruct (IH _ _ _ Hloop) as [H1 H2].
      rewrite decide_True by done. rewrite decide_False by tauto.
      rewrite length_app in H1. simpl in *. lia.
    + destruct (IH _ _ _ Hloop) as [H1 H2].
      rewrite decide_False by done. rewrite decide_True by done.
      rewrite length_app in H2. simpl in *. lia.
Qed.

Lemma filter_split_length (m : nat) (spans : list (nat * nat)) :
  length (filter (fun span => span.2 < m) spans)
  + length (filter (fun span => ~ span.2 < m) spans)
  = length spans.
Proof.
  induction spans as [|span spans IH]; [done|].
  rewrite !filter_cons. destruct (decide (span.2 < m)).
  - rewrite decide_False by tauto. simpl. lia.
  - rewrite decide_True by done. simpl. lia.
Qed.

(** X9: a rule converts to a reaction exactly when every span of
    [complexes] starts at a position that has a compartment; an index
    beyond the agents raises nothing. *)
Theorem to_reaction_raises (r : Rule.Rule) :
  is_Some (Rule.to_reaction r)
  <-> Forall (fun span => span.1 < length (Rule.compartments r))
             (Rule.complexes r).
Proof.
  rewrite <- (create_complexes_loop_Some r (Rule.complexes r) [] []).
  unfold Rule.to_reaction, Rule.create_complexes.
  destruct (Rule.create_complexes_loop r (Rule.complexes r) [] []); simpl.
  - split; by eexists.
  - split; by intros [? ?].
Qed.

(** X10: the reaction of a rule has the rate of the rule, one left
    complex for every span that ends before [mid] and one right complex
    for every other span. *)
Theorem to_reaction_sides (r : Rule.Rule) (rx : Reaction) :
  Rule.to_reaction r = Some rx ->
  Species.rate rx = Rule.rate r
  /\ size (lhs rx)
     = length (filter (fun span => span.2 < Rule.mid r) (Rule.complexes r))
  /\ size (rhs rx)
     = length (filter (fun span => ~ span.2 < Rule.mid r)
                      (Rule.complexes r))
  /\ size (lhs rx) + size (rhs rx) = length (Rule.complexes r).
Proof.
  unfold Rule.to_reaction, Rule.create_complexes.
  destruct (Rule.create_complexes_loop r (Rule.complexes r) [] [])
    as [sides|] eqn:Hloop; simpl; [|done].
  intros [= <-]. simpl.
  destruct (create_complexes_loop_lengths _ _ _ _ _ Hloop) as [H1 H2].
  rewrite !size_list_to_set_disj, H1, H2. simpl.
  split; [done|]. split; [done|]. split; [done|].
  apply filter_split_length.
Qed.

Lemma to_reaction_sides_witness :
  exists rx,
    Rule.to_reaction rule_decay = Some rx
    /\ size (lhs rx) + size (rhs rx) = 2.
Proof.
  eexists. split; [reflexivity|].
  apply (to_reaction_sides rule_decay). reflexivity.
Defined.

(** The slicing loop looks at the agents, [mid] and the compartments
    of its rule only. *)
Lemma create_complexes_loop_ext (r r' : Rule.Rule) (spans : list (nat * nat))
    (l1 l2 : list Complex) :
  Rule.agents r = Rule.agents r' -> Rule.mid r = Rule.mid r' ->
  Rule.compartments r = Rule.compartments r' ->
  Rule.create_complexes_loop r spans l1 l2
  = Rule.create_complexes_loop r' spans l1 l2.
Proof.
  intros Ha Hm Hc. revert l1 l2.
  induction spans as [|[f t] spans IH]; intros l1 l2; [done|].
  cbn [Rule.create_complexes_loop]. rewrite Ha, Hm, Hc.
  destruct (Rule.compartments r' !! f); cbn [mbind option_bind]; [|done].
  case_bool_decide; apply IH.
Qed.

Lemma rule_eqb_fields (r1 r2 : Rule.Rule) :
  Rule.eqb r1 r2 = true <->
  Rule.agents r1 = Rule.agents r2 /\ Rule.mid r1 = Rule.mid r2
  /\ Rule.compartments r1 = Rule.compartments r2
  /\ Rule.complexes r1 = Rule.complexes r2
  /\ Rule.pairs r1 = Rule.pairs r2
  /\ Rule.rate_str (Rule.rate r1) = Rule.rate_str (Rule.rate r2).
Proof.
  unfold Rule.eqb. rewrite !andb_true_iff, !bool_decide_eq_true. tauto.
Qed.

(** X11: two rules are equal exactly when the second is the first with
    some comment and with a rate that prints as the rate of the first
    does; so a rule without rate is equal to the same rule with a rate
    that prints [None].  Equal rules are sliced into the same complexes
    and are meaningful together; when both have a rate or both have
    none, they convert to the same reaction and expand to the same
    reactions. *)
Theorem rule_eqb_spec (r1 r2 : Rule.Rule)
    (atomic_signature : gmap string (gset string)) :
  (Rule.eqb r1 r2 = true <->
   exists rate',
     Rule.rate_str rate' = Rule.rate_str (Rule.rate r1)
     /\ r2 = Rule.set_comment (Rule.comment r2)
               (Rule.new (Rule.agents r1) (Rule.mid r1)
                         (Rule.compartments r1) (Rule.complexes r1)
                         (Rule.pairs r1) rate'))
  /\ (Rule.rate r1 = None ->
      Rule.eqb r1 (Rule.new (Rule.agents r1) (Rule.mid r1)
                            (Rule.compartments r1) (Rule.complexes r1)
                            (Rule.pairs r1) (Some "None")) = true)
  /\ (Rule.eqb r1 r2 = true ->
      Rule.create_complexes r1 = Rule.create_complexes r2
      /\ Rule.is_meaningful r1 = Rule.is_meaningful r2
      /\ ((Rule.rate r1 = None <-> Rule.rate r2 = None) ->
          Rule.to_reaction r1 = Rule.to_reaction r2
          /\ Rule.create_reactions r1 atomic_signature
             = Rule.create_reactions r2 atomic_signature)).
Proof.
  split; [|split].
  - split.
    + intros (Ha & Hm & Hc & Hx & Hp & Hr)%rule_eqb_fields.
      exists (Rule.rate r2). split; [done|].
      destruct r1, r2; simpl in *; subst. reflexivity.
    + intros (rate' & Hs & H). rewrite H. apply rule_eqb_fields.
      simpl. done.
  - intros Hr. apply rule_eqb_fields. simpl. by rewrite Hr.
  - intros (Ha & Hm & Hc & Hx & Hp & Hr)%rule_eqb_fields.
    assert (Hcc : Rule.create_complexes r1 = Rule.create_complexes r2).
    { unfold Rule.create_complexes.
      by rewrite (create_complexes_loop_ext r1 r2), Hx. }
    split; [done|]. split.
    { unfold Rule.is_meaningful, Rule.to_reaction. rewrite Hcc.
      by destruct (Rule.create_complexes r2). }
    intros Hnone.
    assert (Hrate : Rule.rate r1 = Rule.rate r2).
    { destruct (Rule.rate r1) as [x|], (Rule.rate r2) as [y|]; simpl in Hr.
      - by rewrite Hr.
      - by destruct (proj2 Hnone eq_refl).
      - by destruct (proj1 Hnone eq_refl).
      - done. }
    split.
    { unfold Rule.to_reaction. by rewrite Hcc, Hrate. }
    destruct r1, r2; simpl in *; subst. reflexivity.
Qed.

Lemma rule_eqb_spec_witness :
  Rule.create_complexes rule_decay
  = Rule.create_complexes
      (Rule.new (Rule.agents rule_decay) 1 ["cyt"; "cyt"] [(0, 0); (1, 1)]
                [(Some 0, Some 1)] (Some "None"))
  /\ Rule.is_meaningful rule_decay
     = Rule.is_meaningful
         (Rule.new (Rule.agents rule_decay) 1 ["cyt"; "cyt"]
                   [(0, 0); (1, 1)] [(Some 0, Some 1)] (Some "None"))
  /\ ((Rule.rate rule_decay = None <-> Some "None" = None) ->
      Rule.to_reaction rule_decay
      = Rule.to_reaction
          (Rule.new (Rule.agents rule_decay) 1 ["cyt"; "cyt"]
                    [(0, 0); (1, 1)] [(Some 0, Some 1)] (Some "None"))
      /\ Rule.create_reactions rule_decay signature_A
         = Rule.create_reactions
             (Rule.new (Rule.agents rule_decay) 1 ["cyt"; "cyt"]
                       [(0, 0); (1, 1)] [(Some 0, Some 1)] (Some "None"))
             signature_A).
Proof.
  apply (rule_eqb_spec rule_decay
           (Rule.new (Rule.agents rule_decay) 1 ["cyt"; "cyt"]
                     [(0, 0); (1, 1)] [(Some 0, Some 1)] (Some "None"))
           signature_A).
  reflexivity.
Defined.

(** X12: reducing a rule makes every agent a wildcard and keeps the
    names, the positions and the shape of the rule; when the reduction of
    rates is idempotent, reducing a reduced rule returns the same
    rule. *)
Theorem rule_reduce_context_idempotent (rate_reduce_context : string -> string)
    (r : Rule.Rule) :
  (forall s, rate_reduce_context (rate_reduce_context s)
             = rate_reduce_context s) ->
  let r' := Rule.reduce_context rate_reduce_context r in
  Rule.reduce_context rate_reduce_context r' = r'
  /\ (forall a, a ∈ Rule.agents r' -> state a = "_")
  /\ name <$> Rule.agents r' = name <$> Rule.agents r
  /\ Rule.mid r' = Rule.mid r
  /\ Rule.compartments r' = Rule.compartments r
  /\ Rule.complexes r' = Rule.complexes r
  /\ Rule.pairs r' = Rule.pairs r.
Proof.
  intros Hidem r'. unfold r', Rule.reduce_context, Rule.new. simpl.
  split; [|split; [|split; [|done]]].
  - f_equal.
    + rewrite <- list_fmap_compose. by apply list_fmap_ext.
    + destruct (Rule.rate r); simpl; [by rewrite Hidem|done].
  - intros a (b & -> & _)%list_elem_of_fmap. done.
  - rewrite <- list_fmap_compose. by apply list_fmap_ext.
Qed.

Lemma rule_reduce_context_idempotent_witness :
  Rule.reduce_context (fun s => s) (Rule.reduce_context (fun s => s) rule_decay)
  = Rule.reduce_context (fun s => s) rule_decay.
Proof.
  apply (rule_reduce_context_idempotent (fun s => s) rule_decay).
  reflexivity.
Defined.

Lemma reactions_fold_None (r : Rule.Rule) (combos : list (list AgentPair)) :
  foldl (fun acc result =>
           reactions ← acc;
           rx ← Rule.to_reaction (Rule.new_rule r result);
           Some ({[ rx ]} ∪ reactions))
        (None : option (gset Reaction)) combos
  = None.
Proof. induction combos as [|c combos IH]; [done|exact IH]. Qed.

(** Every reaction in the result of the second loop of
    [create_reactions] is the reaction of an element of the product. *)
Lemma reactions_fold_elem (r : Rule.Rule) (combos : list (list AgentPair)) :
  forall (acc R : gset Reaction),
    foldl (fun acc result =>
             reactions ← acc;
             rx ← Rule.to_reaction (Rule.new_rule r result);
             Some ({[ rx ]} ∪ reactions))
          (Some acc) combos = Some R ->
    forall rx, rx ∈ R ->
      rx ∈ acc
      \/ exists combo, combo ∈ combos
                       /\ Rule.to_reaction (Rule.new_rule r combo) = Some rx.
Proof.
  induction combos as [|c combos IH]; intros acc R; simpl.
  - intros [= <-] rx Hrx. by left.
  - destruct (Rule.to_reaction (Rule.new_rule r c)) as [rx'|] eqn:Hc; simpl.
    + intros Hfold rx Hrx.
      destruct (IH _ _ Hfold rx Hrx) as [Hin|(combo & Hin & Hcombo)].
      * apply elem_of_union in Hin as [->%elem_of_singleton|Hin];
          [|by left].
        right. exists c. split; [by left|done].
      * right. exists combo. split; [by right|done].
    + by rewrite reactions_fold_None.
Qed.

(** X13: every reaction that [create_reactions] returns has the rate of
    the rule, one left complex for every span that ends before [mid] and
    one right complex for every other span: expansion changes the agents
    and nothing else. *)
Theorem create_reactions_shape (r : Rule.Rule)
    (atomic_signature : gmap string (gset string))
    (R : gset Reaction) (rx : Reaction) :
  Rule.create_reactions r atomic_signature = Some R ->
  rx ∈ R ->
  Species.rate rx = Rule.rate r
  /\ size (lhs rx)
     = length (filter (fun span => span.2 < Rule.mid r) (Rule.complexes r))
  /\ size (rhs rx)
     = length (filter (fun span => ~ span.2 < Rule.mid r)
                      (Rule.complexes r)).
Proof.
  unfold Rule.create_reactions.
  destruct (mapM _ (Rule.pairs r)) as [results|]; simpl; [|done].
  intros Hfold Hrx.
  destruct (reactions_fold_elem _ _ _ _ Hfold rx Hrx)
    as [Hin|(combo & _ & Hcombo)].
  { by apply not_elem_of_empty in Hin. }
  unfold Rule.to_reaction, Rule.create_complexes in Hcombo.
  destruct (Rule.create_complexes_loop (Rule.new_rule r combo)
              (Rule.complexes (Rule.new_rule r combo)) [] [])
    as [sides|] eqn:Hloop; simpl in Hcombo; [|done].
  injection Hcombo as <-. simpl.
  destruct (create_complexes_loop_lengths _ _ _ _ _ Hloop) as [H1 H2].
  rewrite !size_list_to_set_disj, H1, H2. done.
Qed.

Lemma create_reactions_shape_witness :
  exists R rx,
    Rule.create_reactions rule_wild signature_A = Some R
    /\ rx ∈ R
    /\ Species.rate rx = Some "k"
    /\ size (lhs rx) = 1 /\ size (rhs rx) = 1.
Proof.
  eexists _, (Species.mkReaction {[+ single "A" "p" "cyt" +]}
                                 {[+ single "A" "p" "cyt" +]} (Some "k")).
  split; [exact create_reactions_wildcard_pair|].
  assert (Hin : Species.mkReaction {[+ single "A" "p" "cyt" +]}
                                   {[+ single "A" "p" "cyt" +]} (Some "k")
                ∈ ({[ Species.mkReaction {[+ single "A" "p" "cyt" +]}
                                         {[+ single "A" "p" "cyt" +]}
                                         (Some "k");
                      Species.mkReaction {[+ single "A" "u" "cyt" +]}
                                         {[+ single "A" "u" "cyt" +]}
                                         (Some "k") ]}
                   : gset Species.Reaction)) by set_solver.
  split; [exact Hin|].
  apply (create_reactions_shape rule_wild signature_A _ _
           create_reactions_wildcard_pair Hin).
Defined.

Lemma add_context_is_Some (a : AtomicAgent) (other : Operand)
    (sig : gmap string (gset string)) :
  is_Some (sig !! name a) -> is_Some (add_context a other sig).
Proof.
  intros [states Hs]. unfold add_context. rewrite Hs. simpl.
  destruct other; repeat case_match; by eexists.
Qed.

(** X14: [create_reactions] returns a set of reactions when no pair is
    [(None, None)], the indices of the pairs are positions of agents, the
    signature has an entry for the name of every agent and the rule
    itself converts to a reaction. *)
Theorem create_reactions_returns (r : Rule.Rule)
    (atomic_signature : gmap string (gset string)) :
  (forall p, p ∈ Rule.pairs r -> p <> (None, None)) ->
  (forall p i, p ∈ Rule.pairs r -> p.1 = Some i \/ p.2 = Some i ->
               i < length (Rule.agents r)) ->
  (forall a, a ∈ Rule.agents r -> is_Some (atomic_signature !! name a)) ->
  is_Some (Rule.to_reaction r) ->
  is_Some (Rule.create_reactions r atomic_signature).
Proof.
  intros Hnone Hidx Hsig Hr.
  assert (Hget : forall p i, p ∈ Rule.pairs r ->
             p.1 = Some i \/ p.2 = Some i ->
             exists a, Rule.agents r !! i = Some a
                       /\ is_Some (atomic_signature !! name a)).
  { intros p i Hp Hi.
    destruct (lookup_lt_is_Some_2 (Rule.agents r) i) as [a Ha];
      [by eapply Hidx|].
    exists a. split; [done|]. apply Hsig. by eapply list_elem_of_lookup_2. }
  assert (Hres : is_Some (mapM (fun p => Rule.pair_context r p
                                          atomic_signature)
                               (Rule.pairs r))).
  { apply mapM_is_Some_2, Forall_forall. intros [[l|] [ri|]] Hp;
      unfold compose, Rule.pair_context.
    - destruct (Hget _ l Hp) as (a & Ha & Hsa); [by left|].
      destruct (Hget _ ri Hp) as (b & Hb & _); [by right|].
      rewrite Ha, Hb. cbn [mbind option_bind].
      by apply add_context_is_Some.
    - destruct (Hget _ l Hp) as (a & Ha & Hsa); [by left|].
      rewrite Ha. cbn [mbind option_bind]. by apply add_context_is_Some.
    - destruct (Hget _ ri Hp) as (a & Ha & Hsa); [by right|].
      cbn [mbind option_bind]. rewrite Ha. cbn [mbind option_bind].
      by apply add_context_is_Some.
    - by destruct (Hnone _ Hp). }
  destruct Hres as [results Hres]. unfold Rule.create_reactions.
  rewrite Hres. cbn [mbind option_bind].
  destruct (reactions_of_exist r (Rule.product (elements <$> results)) Hr)
    as [rxs Hrxs].
  rewrite (reactions_fold r _ rxs Hrxs ∅). by eexists.
Qed.

Lemma create_reactions_returns_witness :
  is_Some (Rule.create_reactions rule_wild signature_A).
Proof.
  apply (create_reactions_returns rule_wild signature_A).
  - intros p Hp. apply list_elem_of_singleton in Hp as ->. discriminate.
  - intros p i Hp Hi. apply list_elem_of_singleton in Hp as ->.
    simpl in *. destruct Hi as [Hi|Hi]; injection Hi as <-; lia.
  - intros a Ha. unfold rule_wild in Ha. simpl in Ha.
    repeat (apply elem_of_cons in Ha as [->|Ha]; [by eexists|]).
    by apply elem_of_nil in Ha.
  - eexists. vm_compute. reflexivity.
Defined.

(** ** Matching, continued *)

Lemma available_Some_pos (state : gmap Complex Z) (c : Complex) :
  (1 <= available state c)%Z ->
  exists n, state !! c = Some n /\ (0 < n)%Z /\ available state c = n.
Proof.
  unfold available. destruct (state !! c) as [n|]; simpl; [|lia].
  intros Hn. exists n. split; [done|]. split; [lia|done].
Qed.

(** With enough of every candidate, the loop over the candidates tries
    them all. *)
Lemma try_candidates_plentiful
    (rec : gmap Complex Z -> list (list Complex))
    (P : list (list Complex)) (k : Z) (U : Complex -> Prop) :
  (1 <= k)%Z ->
  (forall st, (forall c, U c -> (k - 1 <= available st c)%Z) -> rec st = P) ->
  forall candidates st,
    NoDup candidates ->
    (forall c, c ∈ candidates -> (k <= available st c)%Z) ->
    (forall c, U c -> (k - 1 <= available st c)%Z) ->
    Rule.try_candidates rec candidates st
    = candidates ≫= fun m => (m ::.) <$> P.
Proof.
  intros Hk Hrec. induction candidates as [|m cs IH]; intros st Hnd H1 H2.
  - done.
  - apply NoDup_cons in Hnd as [Hm Hnd].
    destruct (available_Some_pos st m) as (n & Hst & Hn & Hav).
    { specialize (H1 m ltac:(by left)). lia. }
    assert (Hn' : (k <= n)%Z).
    { rewrite <- Hav. apply H1. by left. }
    assert (H2' : forall c, U c ->
              (k - 1 <= available (<[m := (n - 1)%Z]> st) c)%Z).
    { intros c Hc. rewrite available_insert.
      destruct (decide (m = c)); [lia|by apply H2]. }
    simpl. rewrite Hst, bool_decide_eq_true_2 by done.
    rewrite (Hrec _ H2'), IH; [done|done| |done].
    intros c Hc. rewrite available_insert.
    destruct (decide (m = c)) as [->|]; [done|]. apply H1. by right.
Qed.

(** X15: when no candidate set repeats a complex and the state holds
    every candidate at least as often as there are slots,
    [find_all_matches] returns every combination of candidates, one per
    slot, in the order of the product. *)
Theorem find_all_matches_plentiful (matching_map : list (list Complex))
    (state : gmap Complex Z) :
  Forall NoDup matching_map ->
  (forall candidates c,
      candidates ∈ matching_map -> c ∈ candidates ->
      (Z.of_nat (length matching_map) <= available state c)%Z) ->
  Rule.find_all_matches matching_map state = Rule.product matching_map.
Proof.
  revert state.
  induction matching_map as [|candidates rest IH]; intros state Hnd Hall.
  - done.
  - apply Forall_cons in Hnd as [Hnd Hrest]. simpl Rule.find_all_matches.
    apply (try_candidates_plentiful _ (Rule.product rest)
             (Z.of_nat (length (candidates :: rest)))
             (fun c => exists cs, cs ∈ rest /\ c ∈ cs)).
    + simpl. lia.
    + intros st Hst. apply IH; [done|].
      intros cs c Hcs Hc. specialize (Hst c ltac:(eauto)).
      simpl length in Hst. lia.
    + done.
    + intros c Hc. apply (Hall candidates); [by left|done].
    + intros c (cs & Hcs & Hc).
      specialize (Hall cs c ltac:(by right) Hc). lia.
Qed.

Lemma find_all_matches_plentiful_witness :
  Rule.find_all_matches [[A_p; A_u]; [A_p; A_u]]
                        (<[A_p := 2%Z]> (<[A_u := 2%Z]> ∅))
  = Rule.product [[A_p; A_u]; [A_p; A_u]].
Proof.
  apply (find_all_matches_plentiful [[A_p; A_u]; [A_p; A_u]]
           (<[A_p := 2%Z]> (<[A_u := 2%Z]> ∅))).
  - repeat constructor; set_solver.
  - intros candidates c Hcs Hin.
    assert (Hc : c = A_p \/ c = A_u).
    { apply elem_of_cons in Hcs as [->|Hcs]; [set_solver|].
      apply list_elem_of_singleton in Hcs as ->. set_solver. }
    rewrite !available_insert, available_empty.
    destruct Hc as [-> | ->]; repeat case_decide; simplify_eq; simpl; lia.
Defined.

Lemma try_candidates_head
    (rec : gmap Complex Z -> list (list Complex)) :
  forall candidates st combo,
    combo ∈ Rule.try_candidates rec candidates st ->
    exists m b, combo = m :: b /\ m ∈ candidates.
Proof.
  induction candidates as [|m cs IH]; intros st combo Hin.
  - by apply elem_of_nil in Hin.
  - assert (Hlater : forall st',
               combo ∈ Rule.try_candidates rec cs st' ->
               exists m' b, combo = m' :: b /\ m' ∈ m :: cs).
    { intros st' H. destruct (IH _ _ H) as (m' & b & -> & Hm').
      exists m', b. split; [done|by right]. }
    simpl in Hin. destruct (st !! m) as [n|]; [|by eapply Hlater].
    case_bool_decide; [|by eapply Hlater].
    apply elem_of_app in Hin as [Hin|Hin]; [|by eapply Hlater].
    apply list_elem_of_fmap in Hin as (b & -> & _).
    exists m, b. split; [done|by left].
Qed.

Lemma try_candidates_NoDup
    (rec : gmap Complex Z -> list (list Complex)) :
  (forall st, NoDup (rec st)) ->
  forall candidates st,
    NoDup candidates -> NoDup (Rule.try_candidates rec candidates st).
Proof.
  intros Hrec. induction candidates as [|m cs IH]; intros st Hnd.
  - constructor.
  - apply NoDup_cons in Hnd as [Hm Hnd]. simpl.
    destruct (st !! m) as [n|]; [|by apply IH].
    case_bool_decide; [|by apply IH].
    apply NoDup_app. split; [|split].
    + apply NoDup_fmap_2; [|done]. by intros b1 b2 [= ->].
    + intros combo (b & -> & _)%list_elem_of_fmap Hin.
      apply try_candidates_head in Hin as (m' & b' & [= <- <-] & Hm').
      done.
    + by apply IH.
Qed.

(** X16: when no candidate set repeats a complex, [find_all_matches]
    returns no combination twice. *)
Theorem find_all_matches_NoDup (matching_map : list (list Complex))
    (state : gmap Complex Z) :
  Forall NoDup matching_map ->
  NoDup (Rule.find_all_matches matching_map state).
Proof.
  revert state. induction matching_map as [|candidates rest IH];
    intros state Hnd.
  - apply NoDup_singleton.
  - apply Forall_cons in Hnd as [Hnd Hrest]. simpl.
    apply try_candidates_NoDup; [|done]. intros st. by apply IH.
Qed.

Lemma find_all_matches_NoDup_witness :
  NoDup (Rule.find_all_matches [[A_p; A_u]; [A_p; A_u]]
                               (<[A_p := 2%Z]> (<[A_u := 1%Z]> ∅))).
Proof.
  apply (find_all_matches_NoDup [[A_p; A_u]; [A_p; A_u]]).
  repeat constructor; set_solver.
Defined.

Lemma try_candidates_nil_rec
    (rec : gmap Complex Z -> list (list Complex)) :
  (forall st, rec st = []) ->
  forall candidates st, Rule.try_candidates rec candidates st = [].
Proof.
  intros Hrec. induction candidates as [|m cs IH]; intros st; [done|].
  simpl. destruct (st !! m); [|done]. case_bool_decide; [|done].
  by rewrite Hrec, IH.
Qed.

(** A slot without candidates leaves no combination. *)
Lemma find_all_matches_empty_slot (matching_map : list (list Complex)) :
  [] ∈ matching_map ->
  forall state, Rule.find_all_matches matching_map state = [].
Proof.
  induction matching_map as [|candidates rest IH]; intros Hin state.
  - by apply elem_of_nil in Hin.
  - apply elem_of_cons in Hin as [<-|Hin]; [done|].
    simpl. apply try_candidates_nil_rec. by apply IH.
Qed.

Lemma filter_all_false {A} (f : A -> bool) (l : list A) :
  (forall x, x ∈ l -> f x = false) -> List.filter f l = [].
Proof.
  induction l as [|x l IH]; intros H; [done|].
  simpl. rewrite (H x) by (by left). apply IH. intros y Hy. apply H.
  by right.
Qed.

(** X17: when a left-hand pattern is compatible with no key of the
    state, the matching map built for the state still counts as
    applicable, [find_all_matches] returns no combination for it, and
    [choose_a_match] returns [None]. *)
Theorem choose_a_match_empty_slot
    (complex_compatible : Complex -> Complex -> bool)
    (lhs_agents : list Complex) (state : gmap Complex Z)
    (pattern : Complex) :
  pattern ∈ lhs_agents ->
  (forall c n, state !! c = Some n -> complex_compatible pattern c = false) ->
  let matching_map :=
    Rule.create_matching_map complex_compatible lhs_agents state in
  Rule.is_applicable matching_map = true
  /\ Rule.find_all_matches (Rule.iter <$> matching_map) state = []
  /\ Rule.choose_a_match matching_map state = None.
Proof.
  intros Hin Hnone matching_map.
  set (entry := fun lhs_complex : Complex =>
                  List.filter (complex_compatible lhs_complex)
                              (map_to_list state).*1).
  assert (Hmm : matching_map = Rule.PySet <$> (entry <$> lhs_agents)).
  { unfold matching_map, Rule.create_matching_map.
    by rewrite <- list_fmap_compose. }
  assert (Happ : Rule.is_applicable matching_map = true).
  { unfold Rule.is_applicable. by rewrite Hmm, py_in_list_of_sets. }
  assert (Hfind : Rule.find_all_matches (Rule.iter <$> matching_map) state
                  = []).
  { apply find_all_matches_empty_slot. rewrite Hmm, <- list_fmap_compose.
    apply list_elem_of_fmap. exists (entry pattern). split; [|
      apply list_elem_of_fmap; by exists pattern].
    simpl. symmetry. apply filter_all_false.
    intros c ([c' n] & -> & Hc)%list_elem_of_fmap.
    apply elem_of_map_to_list in Hc. by eapply Hnone. }
  split; [done|]. split; [done|].
  unfold Rule.choose_a_match. by rewrite Happ, Hfind.
Qed.

Lemma choose_a_match_empty_slot_witness :
  Rule.choose_a_match
    (Rule.create_matching_map (fun p c => bool_decide (p = c)) [A_wild]
                              (<[A_p := 2%Z]> ∅))
    (<[A_p := 2%Z]> ∅) = None.
Proof.
  apply (choose_a_match_empty_slot (fun p c => bool_decide (p = c))
           [A_wild] (<[A_p := 2%Z]> ∅) A_wild).
  - by left.
  - intros c n Hc. apply bool_decide_eq_false. intros <-.
    rewrite lookup_insert_ne in Hc by done. by rewrite lookup_empty in Hc.
Defined.

End MoreRuleFacts.

(** ** Signatures *)

Section SignatureFacts.
Import Atomic Species.

Lemma foldl_note_agent (l : list AtomicAgent)
    (st : gmap string (gset string) * gset string) :
  foldl Model.note_agent st l
  = (foldl (fun sig a => Atomic.extend_signature a sig) st.1 l,
     list_to_set (name <$> l) ∪ st.2).
Proof.
  revert st. induction l as [|a l IH]; intros [sig names]; simpl.
  - f_equal. set_solver.
  - rewrite IH. simpl. f_equal. set_solver.
Qed.

Lemma foldl_note_rule (rule_objects : list Rule.Rule)
    (st : gmap string (gset string) * gset string) (all_rates : bool) :
  (foldl Model.note_rule (st, all_rates) rule_objects).1
  = foldl Model.note_agent st (concat (Rule.agents <$> rule_objects)).
Proof.
  revert st all_rates.
  induction rule_objects as [|r rs IH]; intros st all_rates; [done|].
  simpl. rewrite foldl_app. unfold Model.note_rule at 2. apply IH.
Qed.

Lemma foldl_note_complex (cs : list Complex)
    (st : gmap string (gset string) * gset string) :
  foldl Model.note_complex st cs
  = foldl Model.note_agent st (concat (Species.agents <$> cs)).
Proof.
  revert st. induction cs as [|c cs IH]; intros st; [done|].
  simpl. rewrite foldl_app, IH. f_equal.
  unfold Model.note_complex, Species.extend_signature,
    Species.get_atomic_names.
  rewrite foldl_note_agent. f_equal. set_solver.
Qed.

Lemma observed_states_cons (a : AtomicAgent) (l : list AtomicAgent)
    (n : string) :
  observed_states (a :: l) n
  = if bool_decide (state a <> "_" /\ name a = n)
    then state a :: observed_states l n else observed_states l n.
Proof.
  unfold observed_states. rewrite filter_cons.
  destruct (decide (name a = n /\ state a <> "_")) as [H|H].
  - by rewrite bool_decide_eq_true_2 by tauto.
  - by rewrite bool_decide_eq_false_2 by tauto.
Qed.

(** The entry of a name after the agents of [l] have extended the
    signature. *)
Lemma lookup_foldl_extend_signature (l : list AtomicAgent) (n : string) :
  forall sig : gmap string (gset string),
    foldl (fun sig a => Atomic.extend_signature a sig) sig l !! n
    = match observed_states l n with
      | [] => sig !! n
      | states => Some (default ∅ (sig !! n) ∪ list_to_set states)
      end.
Proof.
  induction l as [|a l IH]; intros sig; [done|].
  simpl. rewrite IH, observed_states_cons, lookup_extend_signature.
  case_bool_decide; simpl.
  - destruct (observed_states l n); f_equal; set_solver.
  - done.
Qed.

Lemma lookup_foldl_note_name (ns : list string) (n : string) :
  forall sig : gmap string (gset string),
    foldl Model.note_name sig ns !! n
    = match sig !! n with
      | Some states => Some states
      | None => if decide (n ∈ ns) then Some {[ "_" ]} else None
      end.
Proof.
  induction ns as [|m ns IH]; intros sig; simpl.
  - by destruct (sig !! n).
  - rewrite IH. unfold Model.note_name.
    destruct (sig !! m) as [X|] eqn:Hm.
    + destruct (sig !! n) as [Y|] eqn:Hn; [done|].
      destruct (decide (n ∈ ns)).
      * by rewrite decide_True by (by right).
      * rewrite decide_False; [done|].
        intros [->|?]%elem_of_cons; [congruence|done].
    + rewrite lookup_insert. destruct (decide (m = n)) as [->|Hne].
      * rewrite Hm. by rewrite decide_True by (by left).
      * destruct (sig !! n); [done|].
        destruct (decide (n ∈ ns)).
        -- by rewrite decide_True by (by right).
        -- rewrite decide_False; [done|].
           intros [->|?]%elem_of_cons; done.
Qed.

(** The signature that [extract_signatures] returns, entry by entry. *)
Lemma lookup_extract_signatures (rule_objects : list Rule.Rule)
    (init : list (Complex * Z)) (all_rates : bool) (n : string) :
  (Model.extract_signatures rule_objects init all_rates).1 !! n
  = match observed_states (all_agents rule_objects init) n with
    | [] => if decide (n ∈ name <$> all_agents rule_objects init)
            then Some {[ "_" ]} else None
    | states => Some (list_to_set states)
    end.
Proof.
  unfold Model.extract_signatures. cbn [fst snd].
  rewrite foldl_note_rule, foldl_note_complex, <- foldl_app.
  fold (all_agents rule_objects init).
  rewrite foldl_note_agent. cbn [fst snd].
  rewrite lookup_foldl_note_name, lookup_foldl_extend_signature.
  rewrite lookup_empty. simpl.
  destruct (observed_states (all_agents rule_objects init) n) as [|s ss].
  - destruct (decide (n ∈ name <$> all_agents rule_objects init)) as [H|H].
    + rewrite decide_True; [done|]. set_solver.
    + rewrite decide_False; [done|]. set_solver.
  - f_equal. set_solver.
Qed.

(** X18: the atomic signature that [extract_signatures] returns has an
    entry exactly for the names of the agents of the rules and of the
    initial complexes; the entry of a name is the set of the states that
    its agents carry, the wildcard left aside, and it is the wildcard
    alone when none of its agents carries a state. *)
Theorem extract_signatures_entries (rule_objects : list Rule.Rule)
    (init : list (Complex * Z)) (all_rates : bool) (n : string) :
  let agents := all_agents rule_objects init in
  let sig := (Model.extract_signatures rule_objects init all_rates).1 in
  (sig !! n = None <-> n ∉ name <$> agents)
  /\ (forall states, sig !! n = Some states ->
        states <> ∅
        /\ forall s, s ∈ states <->
                     (exists a, a ∈ agents /\ name a = n /\ state a = s
                                /\ s <> "_")
                     \/ (s = "_"
                         /\ forall a, a ∈ agents -> name a = n ->
                                      state a = "_")).
Proof.
  intros agents sig. unfold sig. rewrite lookup_extract_signatures.
  fold agents.
  assert (Hobs : forall s, s ∈ observed_states agents n <->
             exists a, a ∈ agents /\ name a = n /\ state a = s /\ s <> "_").
  { intros s. unfold observed_states. rewrite list_elem_of_fmap. split.
    - intros (a & -> & ([Hn Hs] & Ha)%list_elem_of_filter). eauto.
    - intros (a & Ha & Hn & <- & Hs). exists a. split; [done|].
      by apply list_elem_of_filter. }
  destruct (observed_states agents n) as [|s0 ss] eqn:Hl.
  - assert (Hnone : forall a, a ∈ agents -> name a = n -> state a = "_").
    { intros a Ha Hn. destruct (decide (state a = "_")) as [|Hs]; [done|].
      assert (H : state a ∈ @nil string) by (apply Hobs; eauto).
      by apply elem_of_nil in H. }
    destruct (decide (n ∈ name <$> agents)) as [Hin|Hin].
    + split; [split; [done|by intros []]|].
      intros states [= <-]. split; [set_solver|].
      intros s. rewrite elem_of_singleton. split.
      * intros ->. by right.
      * intros [(a & Ha & Hn & Hs & Hw)|[-> _]]; [|done].
        rewrite (Hnone a Ha Hn) in Hs. by subst.
    + split; [done|]. intros states [=].
  - split.
    + split; [done|]. intros Hnot. exfalso. apply Hnot.
      destruct (proj1 (Hobs s0)) as (a & Ha & Hn & _); [by left|].
      apply list_elem_of_fmap. by exists a.
    + intros states [= <-]. split; [set_solver|].
      intros s.
      rewrite elem_of_union, elem_of_singleton, elem_of_list_to_set,
        <- elem_of_cons, Hobs.
      split; [by left|].
      intros [H|[-> Hall]]; [done|].
      destruct (proj1 (Hobs s0)) as (a & Ha & Hn & Hs & Hw); [by left|].
      rewrite (Hall a Ha Hn) in Hs. by subst.
Qed.

Lemma extract_signatures_entries_witness :
  exists states,
    (Model.extract_signatures [rule_decay] [(A_p, 2%Z)] true).1 !! "A"
    = Some states
    /\ states <> ∅.
Proof.
  destruct (extract_signatures_entries [rule_decay] [(A_p, 2%Z)] true "A")
    as [_ H].
  eexists. split; [vm_compute; reflexivity|].
  apply H. vm_compute. reflexivity.
Defined.

Lemma foldl_note_rule_rates (rule_objects : list Rule.Rule)
    (st : gmap string (gset string) * gset string) (all_rates : bool) :
  (foldl Model.note_rule (st, all_rates) rule_objects).2
  = all_rates
    && forallb (fun r => bool_decide (Rule.rate r <> None)) rule_objects.
Proof.
  revert st all_rates.
  induction rule_objects as [|r rs IH]; intros st all_rates; simpl.
  - by rewrite andb_true_r.
  - unfold Model.note_rule at 2. rewrite IH. simpl.
    destruct (Rule.rate r) as [k|]; cbn [andb].
    + by rewrite (bool_decide_eq_true_2 (Some k <> None)).
    + rewrite (bool_decide_eq_false_2 (None <> None)) by (by intros []).
      by rewrite andb_false_r.
Qed.

(** X19: [extract_signatures] leaves [all_rates] true exactly when it was
    true before and every rule has a rate: one rule without a rate
    clears the flag, and nothing sets it again. *)
Theorem extract_signatures_all_rates (rule_objects : list Rule.Rule)
    (init : list (Complex * Z)) (all_rates : bool) :
  (Model.extract_signatures rule_objects init all_rates).2 = true
  <-> all_rates = true
      /\ forall r, r ∈ rule_objects -> Rule.rate r <> None.
Proof.
  unfold Model.extract_signatures. cbn [snd].
  rewrite foldl_note_rule_rates, andb_true_iff, forallb_forall.
  split; intros [Ha Hr]; (split; [done|]); intros r Hin.
  - apply list_elem_of_In, Hr in Hin. by apply bool_decide_eq_true in Hin.
  - apply bool_decide_eq_true, Hr. by apply list_elem_of_In.
Qed.

Lemma elem_of_concat {A} (x : A) (ls : list (list A)) :
  x ∈ concat ls <-> exists l, x ∈ l /\ l ∈ ls.
Proof.
  induction ls as [|l ls IH]; simpl.
  - split; [by intros ?%elem_of_nil|]. by intros (? & _ & ?%elem_of_nil).
  - rewrite elem_of_app, IH. split.
    + intros [H|(l' & H & Hl')]; [exists l|exists l']; split; try done.
      * by left.
      * by right.
    + intros (l' & H & [->|Hl']%elem_of_cons); [by left|].
      right. by exists l'.
Qed.

(** X20: for a model that the constructor builds, completing the context
    of an agent of one of its rules or of its initial complexes never
    fails on a missing entry of the signature, whatever the agent is
    paired with. *)
Theorem new_model_signature_covers (h : gmap nat Rule.Rule)
    (rules : list nat) (init : list (Complex * Z))
    (definitions : list (string * string)) (params : gset string)
    (m : Model.Model) (agent : AtomicAgent) (other : Operand) :
  Model.new h rules init definitions params = Some m ->
  (exists a r, a ∈ rules /\ h !! a = Some r /\ agent ∈ Rule.agents r)
  \/ (exists c, c ∈ Dict.keys init /\ agent ∈ Species.agents c) ->
  is_Some (add_context agent other (Model.atomic_signature m)).
Proof.
  unfold Model.new.
  destruct (mapM (fun a => h !! a) rules) as [objs|] eqn:Hobjs;
    cbn [mbind option_bind]; [|done].
  cbv zeta. intros [= <-] Hagent. cbn [Model.atomic_signature].
  apply add_context_is_Some.
  change (is_Some ((Model.extract_signatures objs init true).1
                     !! name agent)).
  rewrite lookup_extract_signatures.
  assert (Hin : agent ∈ all_agents objs init).
  { unfold all_agents. apply elem_of_app.
    destruct Hagent as [(a & r & Ha & Hr & Hag)|(c & Hc & Hag)].
    - left. apply mapM_Some in Hobjs.
      apply list_elem_of_lookup in Ha as [i Hi].
      destruct (Forall2_lookup_l _ _ _ _ _ Hobjs Hi) as (r' & Hr' & Heq).
      simpl in Heq. rewrite Hr in Heq. injection Heq as <-.
      apply elem_of_concat. exists (Rule.agents r). split; [done|].
      apply list_elem_of_fmap. exists r. split; [done|].
      by eapply list_elem_of_lookup_2.
    - right. apply elem_of_concat. exists (Species.agents c).
      split; [done|]. apply list_elem_of_fmap. by exists c. }
  destruct (observed_states (all_agents objs init) (name agent));
    [|by eexists].
  rewrite decide_True; [by eexists|].
  apply list_elem_of_fmap. by exists agent.
Qed.

Lemma new_model_signature_covers_witness :
  exists m,
    Model.new (<[0 := rule_wild]> ∅) [0] [(A_p, 2%Z)] [] ∅ = Some m
    /\ is_Some (add_context (mkAtomic "A" "_") (OInt 1)
                            (Model.atomic_signature m)).
Proof.
  eexists. split; [vm_compute; reflexivity|].
  apply (new_model_signature_covers (<[0 := rule_wild]> ∅) [0]
           [(A_p, 2%Z)] [] ∅).
  - vm_compute. reflexivity.
  - left. exists 0, rule_wild. split; [by left|].
    split; [reflexivity|]. by left.
Defined.

End SignatureFacts.

(** ** The ordering, continued *)

Section OrderingContentFacts.
Import Atomic Species.

Variable reaction_create_all_compatible :
  Reaction -> gmap string (gset string) -> gset Complex.
Variable complex_lt : Complex -> Complex -> bool.

Lemma foldl_insort_perm (l acc : list Complex) :
  foldl (fun a x => Model.insort complex_lt x a) acc l ≡ₚ acc ++ l.
Proof.
  revert acc. induction l as [|x l IH]; intros acc; simpl.
  - by rewrite app_nil_r.
  - rewrite IH, insort_perm. simpl. apply Permutation_middle.
Qed.

Lemma foldl_collect_None h sig (l : list nat) :
  foldl (collect reaction_create_all_compatible h sig) None l = None.
Proof. induction l as [|a l IH]; [done|exact IH]. Qed.

(** What the first loop of [create_ordering] collects. *)
Lemma foldl_collect_elem h sig (l : list nat) :
  forall acc u,
    foldl (collect reaction_create_all_compatible h sig) (Some acc) l
    = Some u ->
    forall c, c ∈ u <->
      c ∈ acc
      \/ exists a r cs,
          a ∈ l /\ h !! a = Some r
          /\ Model.create_all_compatible reaction_create_all_compatible
               r sig = Some cs
          /\ c ∈ cs.
Proof.
  induction l as [|a l IH]; intros acc u; simpl.
  - intros [= <-] c. split; [by left|].
    intros [?|(a & r & cs & ?%elem_of_nil & _)]; done.
  - destruct (h !! a) as [r|] eqn:Hr; simpl;
      [|by rewrite foldl_collect_None].
    destruct (Model.create_all_compatible _ r sig) as [cs|] eqn:Hcs; simpl;
      [|by rewrite foldl_collect_None].
    intros Hfold c. rewrite (IH _ _ Hfold c), elem_of_union. split.
    + intros [[?|Hc]|(a' & r' & cs' & Ha' & H)]; [by left| |].
      * right. exists a, r, cs. split; [by left|done].
      * right. exists a', r', cs'. split; [by right|done].
    + intros [?|(a' & r' & cs' & [->|Ha']%elem_of_cons & Hr' & Hcs' & Hc)].
      * by left; left.
      * left. right. congruence.
      * right. by exists a', r', cs'.
Qed.

(** X21: the ordering that [create_ordering] returns holds no complex
    twice, and it holds exactly the initial complexes and the complexes
    that [create_all_compatible] gives for the rules of the model. *)
Theorem create_ordering_content (set_iter : gset Complex -> list Complex)
    (w : Model.World) (ordering : list Complex) :
  (forall X, set_iter X ≡ₚ elements X) ->
  Model.create_ordering reaction_create_all_compatible complex_lt set_iter w
  = Some ordering ->
  NoDup ordering
  /\ forall c, c ∈ ordering <->
       c ∈ Dict.keys (Model.init (Model.model w))
       \/ exists a r cs,
           a ∈ Model.rules (Model.model w)
           /\ Model.heap w !! a = Some r
           /\ Model.create_all_compatible reaction_create_all_compatible r
                (Model.atomic_signature (Model.model w)) = Some cs
           /\ c ∈ cs.
Proof.
  intros Hiter. unfold Model.create_ordering, Model.rule_complexes.
  change (fun (acc : option (gset Complex)) (a : nat) =>
            unique_complexes ← acc;
            rule ← ?h !! a;
            cs ← Model.create_all_compatible
                   reaction_create_all_compatible rule ?sig;
            Some (unique_complexes ∪ cs))
    with (collect reaction_create_all_compatible h sig).
  destruct (foldl _ (Some ∅) _) as [u|] eqn:Hu; simpl; [|done].
  intros [= <-].
  assert (Hp : Model.SortedList complex_lt
                 (set_iter (u ∪ list_to_set
                                  (Dict.keys (Model.init (Model.model w)))))
               ≡ₚ elements (u ∪ list_to_set
                                  (Dict.keys (Model.init (Model.model w))))).
  { unfold Model.SortedList. by rewrite foldl_insort_perm, Hiter. }
  split.
  - rewrite Hp. apply NoDup_elements.
  - intros c. rewrite Hp, elem_of_elements, elem_of_union,
      elem_of_list_to_set, (foldl_collect_elem _ _ _ _ _ Hu c).
    split.
    + intros [[?%not_elem_of_empty|?]|?]; [done|by right|by left].
    + intros [?|?]; [by right|by left; right].
Qed.

(** The order of complexes is a strict total order. *)
Hypothesis lt_irrefl : forall x, complex_lt x x = false.
Hypothesis lt_trans :
  forall x y z, complex_lt x y = true -> complex_lt y z = true ->
                complex_lt x z = true.
Hypothesis lt_total :
  forall x y, x <> y -> complex_lt x y = true \/ complex_lt y x = true.

Lemma create_ordering_nodup_sorted (set_iter : gset Complex -> list Complex)
    (w : Model.World) (ordering : list Complex) :
  (forall X, set_iter X ≡ₚ elements X) ->
  Model.create_ordering reaction_create_all_compatible complex_lt set_iter w
  = Some ordering ->
  NoDup ordering /\ StronglySorted (not_after complex_lt) ordering.
Proof.
  intros Hiter. unfold Model.create_ordering.
  destruct (Model.rule_complexes _ _ _) as [u|]; simpl; [|done].
  intros [= <-]. unfold Model.SortedList.
  destruct (foldl_insort complex_lt lt_irrefl lt_trans
              (set_iter (u ∪ list_to_set
                               (Dict.keys (Model.init (Model.model w)))))
              []) as [Hs Hp]; [constructor|].
  split.
  - rewrite Hp. simpl. rewrite Hiter. apply NoDup_elements.
  - apply (@Sorted_StronglySorted _ _
             (not_after_trans complex_lt lt_trans lt_total)).
    exact Hs.
Qed.

(** X22: when the order of complexes is a strict total order, the
    ordering is strictly increasing: of two positions, the earlier holds
    the smaller complex. *)
Theorem create_ordering_increasing (set_iter : gset Complex -> list Complex)
    (w : Model.World) (ordering : list Complex) (i j : nat)
    (x y : Complex) :
  (forall X, set_iter X ≡ₚ elements X) ->
  Model.create_ordering reaction_create_all_compatible complex_lt set_iter w
  = Some ordering ->
  ordering !! i = Some x -> ordering !! j = Some y -> i < j ->
  complex_lt x y = true.
Proof.
  intros Hiter Hord Hi Hj Hij.
  destruct (create_ordering_nodup_sorted set_iter w ordering Hiter Hord)
    as [Hnd Hsorted].
  assert (Hna : not_after complex_lt x y).
  { rewrite <- (take_drop j ordering) in Hsorted.
    eapply (StronglySorted_app_1_elem_of _ _ _ _ _ Hsorted).
    - apply (list_elem_of_lookup_2 _ i). by rewrite lookup_take_lt.
    - apply (list_elem_of_lookup_2 _ 0). rewrite lookup_drop.
      by rewrite Nat.add_0_r. }
  assert (Hne : x <> y).
  { intros ->. pose proof (NoDup_lookup _ _ _ _ Hnd Hi Hj). lia. }
  destruct (lt_total x y Hne) as [H|H]; [done|].
  unfold not_after in Hna. congruence.
Qed.

End OrderingContentFacts.

Lemma create_ordering_content_witness :
  exists ordering,
    Model.create_ordering sides_complexes code_lt elements (two_rules [0; 1])
    = Some ordering
    /\ NoDup ordering
    /\ forall c, c ∈ ordering <->
         c ∈ Dict.keys (Model.init (Model.model (two_rules [0; 1])))
         \/ exists a r cs,
             a ∈ Model.rules (Model.model (two_rules [0; 1]))
             /\ Model.heap (two_rules [0; 1]) !! a = Some r
             /\ Model.create_all_compatible sides_complexes r
                  (Model.atomic_signature (Model.model (two_rules [0; 1])))
                = Some cs
             /\ c ∈ cs.
Proof.
  assert (exists ordering,
             Model.create_ordering sides_complexes code_lt elements
               (two_rules [0; 1]) = Some ordering) as [ordering H]
    by (eexists; vm_compute; reflexivity).
  exists ordering. split; [exact H|].
  apply (create_ordering_content sides_complexes code_lt elements
           (two_rules [0; 1]) ordering); [reflexivity|exact H].
Defined.

Lemma create_ordering_increasing_witness :
  exists ordering x y,
    Model.create_ordering sides_complexes code_lt elements (two_rules [0; 1])
    = Some ordering
    /\ ordering !! 0 = Some x /\ ordering !! 1 = Some y
    /\ code_lt x y = true.
Proof.
  eexists _, _, _. split; [vm_compute; reflexivity|].
  split; [reflexivity|]. split; [reflexivity|].
  eapply (create_ordering_increasing sides_complexes code_lt
            code_lt_irrefl code_lt_trans code_lt_total elements
            (two_rules [0; 1]) _ 0 1);
    [reflexivity|vm_compute; reflexivity|reflexivity|reflexivity|lia].
Defined.

(** ** Redundancy marking, continued *)

Section EliminationFacts.
Import Atomic Species.

Variable reaction_compatible : Reaction -> Reaction -> bool.

Lemma flag_insert h a b r :
  flag (<[a := r]> h) b
  = if decide (a = b) then (Rule.comment r).1 else flag h b.
Proof.
  unfold flag. rewrite lookup_insert. by destruct (decide (a = b)).
Qed.

(** The flags after one execution of the body of the loops: the rule on
    the right of a detected pair gets the negation of [all_rates]. *)
Lemma redundant_step_flag all_rates h0 h n al ar h' n' :
  only_comments h0 h -> convertible h0 al -> convertible h0 ar ->
  Model.redundant_step reaction_compatible all_rates al ar (h, n)
  = Some (h', n') ->
  forall a,
    flag h' a
    = if bool_decide (al <> ar)
         && compatible_at reaction_compatible h0 al ar
         && bool_decide (a = ar)
      then negb all_rates else flag h a.
Proof.
  intros Hoc (rl0 & Hl0 & [xl Hxl]) (rr0 & Hr0 & [xr Hxr]).
  unfold Model.redundant_step.
  case_bool_decide as Hne; cbn [fst snd andb]; [|by intros [= <- <-]].
  pose proof (Hoc al) as Hal. pose proof (Hoc ar) as Har.
  rewrite Hl0 in Hal. rewrite Hr0 in Har.
  destruct (h !! al) as [rl|] eqn:Hl; [|done].
  destruct (h !! ar) as [rr|] eqn:Hr; [|done].
  destruct Hal as [cl ->]. destruct Har as [cr ->].
  cbn [mbind option_bind].
  assert (Hc : Rule.compatible reaction_compatible
                 (Rule.set_comment cl rl0) (Rule.set_comment cr rr0)
               = Some (compatible_at reaction_compatible h0 al ar)).
  { unfold compatible_at, Rule.compatible.
    rewrite Hl0, Hr0, !to_reaction_set_comment. simpl.
    rewrite Hxl, Hxr. done. }
  rewrite Hc. cbn [mbind option_bind].
  destruct (compatible_at reaction_compatible h0 al ar);
    cbn [andb]; [|by intros [= <- <-]].
  rewrite lookup_insert_ne by done. rewrite Hl. cbn [mbind option_bind].
  intros [= <- <-] a. rewrite !flag_insert. simpl.
  destruct (decide (al = a)) as [<-|Hla].
  - rewrite bool_decide_eq_false_2 by done. unfold flag. by rewrite Hl.
  - destruct (decide (ar = a)) as [<-|Hra].
    + by rewrite bool_decide_eq_true_2.
    + by rewrite bool_decide_eq_false_2 by congruence.
Qed.

(** The flags after the loops, run over a list of pairs. *)
Lemma redundant_loop_flag all_rates h0 ps :
  (forall p, p ∈ ps -> convertible h0 p.1 /\ convertible h0 p.2) ->
  forall h n h' n',
    only_comments h0 h ->
    Model.for_each
      (fun p => Model.redundant_step reaction_compatible all_rates p.1 p.2)
      ps (h, n) = Some (h', n') ->
    forall a,
      flag h' a
      = if existsb (fun p => bool_decide (p.1 <> p.2)
                             && compatible_at reaction_compatible h0 p.1 p.2
                             && bool_decide (a = p.2)) ps
        then negb all_rates else flag h a.
Proof.
  induction ps as [|[al ar] ps IH]; intros Hok h n h' n' Hoc.
  - by intros [= <- <-].
  - destruct (Hok (al, ar)) as [Hl Hr]; [by left|].
    destruct (redundant_step_spec reaction_compatible all_rates h0 h n al ar
                Hoc Hl Hr) as (h1 & n1 & Hstep & Hoc1 & _).
    simpl. cbn [fst snd] in Hstep. rewrite Hstep. cbn [mbind option_bind].
    intros Hloop a.
    rewrite (IH (fun p Hp => Hok p (list_elem_of_further _ _ _ Hp))
                _ _ _ _ Hoc1 Hloop a).
    rewrite (redundant_step_flag all_rates h0 h n al ar h1 n1 Hoc Hl Hr
               Hstep a).
    destruct (existsb _ ps); [by rewrite orb_true_r|].
    rewrite orb_false_r. done.
Qed.

(** X23: after [eliminate_redundant], a rule that some other rule of the
    model was found compatible with is commented out exactly when the
    model is not quantitative, and the flag of every other rule is what
    it was: with rates on all rules no rule is commented out by the
    pass. *)
Theorem eliminate_redundant_flags (w w' : Model.World) (a : nat) :
  let rs := Model.rules (Model.model w) in
  (forall b, b ∈ rs -> convertible (Model.heap w) b) ->
  Model.eliminate_redundant reaction_compatible w = Some w' ->
  ((exists b, b ∈ rs /\ a ∈ rs /\ b <> a
              /\ compatible_at reaction_compatible (Model.heap w) b a = true)
   -> flag (Model.heap w') a = negb (Model.all_rates (Model.model w)))
  /\ (~ (exists b, b ∈ rs /\ a ∈ rs /\ b <> a
                   /\ compatible_at reaction_compatible (Model.heap w) b a
                      = true)
      -> flag (Model.heap w') a = flag (Model.heap w) a).
Proof.
  intros rs Hrs. unfold Model.eliminate_redundant. fold rs.
  rewrite (nested_loops_visited
             (Model.redundant_step reaction_compatible
                (Model.all_rates (Model.model w)))).
  fold (visited rs).
  destruct (Model.for_each _ (visited rs) _) as [[h' n']|] eqn:Hrun;
    cbn [mbind option_bind]; [|done].
  intros [= <-]. cbn [Model.heap].
  rewrite (redundant_loop_flag (Model.all_rates (Model.model w))
             (Model.heap w) (visited rs)
             ltac:(intros [al ar] [Hl Hr]%elem_of_visited;
                   split; by apply Hrs)
             _ _ _ _ (only_comments_refl _) Hrun a).
  destruct (existsb _ (visited rs)) eqn:Hex.
  - split; [done|]. intros Hnot. destruct Hnot.
    apply existsb_exists in Hex as ([al ar] & Hin & Hp).
    apply list_elem_of_In, elem_of_visited in Hin as [Hal Har].
    cbn [fst snd] in Hp.
    apply andb_true_iff in Hp as [Hp ->%bool_decide_eq_true].
    apply andb_true_iff in Hp as [Hne%bool_decide_eq_true Hc].
    by exists al.
  - split; [|done]. intros (b & Hb & Ha & Hne & Hc).
    assert (Hin : existsb
              (fun p => bool_decide (p.1 <> p.2)
                        && compatible_at reaction_compatible (Model.heap w)
                             p.1 p.2
                        && bool_decide (a = p.2)) (visited rs) = true).
    { apply existsb_exists. exists (b, a). split.
      - by apply list_elem_of_In, elem_of_visited.
      - cbn [fst snd]. by rewrite !bool_decide_eq_true_2, Hc. }
    congruence.
Qed.

Lemma issue_keys c ps n :
  (issue c ps n).*1 = seq n (length (issue c ps n)).
Proof.
  revert n. induction ps as [|[al ar] ps IH]; intros n; simpl; [done|].
  destruct (_ && _); simpl; [by rewrite IH|apply IH].
Qed.

Lemma issue_length c ps n :
  length (issue c ps n)
  = length (filter (fun p => p.1 <> p.2 /\ c p.1 p.2 = true) ps).
Proof.
  revert n. induction ps as [|[al ar] ps IH]; intros n; simpl; [done|].
  rewrite filter_cons. simpl.
  destruct (bool_decide (al <> ar) && c al ar) eqn:Hd.
  - apply andb_true_iff in Hd as [Hne%bool_decide_eq_true Hc].
    rewrite decide_True by done. simpl. by rewrite IH.
  - rewrite decide_False; [apply IH|].
    intros [Hne Hc]. by rewrite bool_decide_eq_true_2, Hc in Hd.
Qed.

Lemma ids_of_increasing a ds :
  StronglySorted lt ds.*1 -> StronglySorted lt (ids_of a ds).
Proof.
  unfold ids_of. induction ds as [|d ds IH]; simpl; intros Hs.
  - constructor.
  - apply StronglySorted_inv in Hs as [Hs Hd]. rewrite filter_cons.
    destruct (decide _); [|by apply IH].
    simpl. constructor; [by apply IH|].
    apply Forall_forall. intros k Hk.
    rewrite Forall_forall in Hd. apply Hd.
    apply list_elem_of_fmap in Hk as (d' & -> & Hd'%list_elem_of_filter).
    apply list_elem_of_fmap. exists d'. tauto.
Qed.

Lemma seq_increasing n m : StronglySorted lt (seq n m).
Proof.
  revert n. induction m as [|m IH]; intros n; simpl; constructor.
  - apply IH.
  - apply Forall_forall. intros k Hk%elem_of_seq. lia.
Qed.

(** X24: on a model whose rules carry no id yet, the ids that
    [eliminate_redundant] puts on rules are the numbers 1 to [N], where
    [N] counts the ordered pairs of distinct rules found compatible, and
    the ids of every rule are listed in increasing order. *)
Theorem eliminate_redundant_numbering (w w' : Model.World) :
  let rs := Model.rules (Model.model w) in
  let N := length (filter (fun p => p.1 <> p.2
                                    /\ compatible_at reaction_compatible
                                         (Model.heap w) p.1 p.2 = true)
                          (visited rs)) in
  (forall a, a ∈ rs ->
             convertible (Model.heap w) a /\ ids (Model.heap w) a = []) ->
  Model.eliminate_redundant reaction_compatible w = Some w' ->
  (forall k, (exists a, a ∈ rs /\ k ∈ ids (Model.heap w') a)
             <-> 1 <= k <= N)
  /\ forall a, a ∈ rs -> StronglySorted lt (ids (Model.heap w') a).
Proof.
  intros rs N Hrs. unfold Model.eliminate_redundant. fold rs.
  rewrite (nested_loops_visited
             (Model.redundant_step reaction_compatible
                (Model.all_rates (Model.model w)))).
  fold (visited rs).
  destruct (redundant_loop_spec reaction_compatible
              (Model.all_rates (Model.model w))
              (Model.heap w) (visited rs)) with (h := Model.heap w) (n := 1)
    as (h' & n' & Hrun & Hoc & Hids).
  { intros [al ar] [Hl Hr]%elem_of_visited. split; by apply Hrs. }
  { apply only_comments_refl. }
  rewrite Hrun. cbn [mbind option_bind]. intros [= <-]. cbn [Model.heap].
  set (ds := issue (compatible_at reaction_compatible (Model.heap w))
                   (visited rs) 1) in *.
  assert (Hkeys : ds.*1 = seq 1 N).
  { unfold ds, N. by rewrite issue_keys, issue_length. }
  assert (Hfresh : forall a, a ∈ rs -> ids h' a = ids_of a ds).
  { intros a Ha. rewrite Hids. by destruct (Hrs a Ha) as [_ ->]. }
  split.
  - intros k. split.
    + intros (a & Ha & Hk). rewrite (Hfresh a Ha) in Hk.
      apply elem_of_ids_of in Hk as (al & ar & Hd & _).
      assert (Hin : k ∈ ds.*1).
      { apply list_elem_of_fmap. by exists (k, (al, ar)). }
      rewrite Hkeys in Hin. apply elem_of_seq in Hin. lia.
    + intros Hk. assert (Hin : k ∈ ds.*1).
      { rewrite Hkeys. apply elem_of_seq. lia. }
      apply list_elem_of_fmap in Hin as ([k' [al ar]] & -> & Hd).
      pose proof (issue_sound _ _ _ _ _ _ Hd) as (Hv & _).
      apply elem_of_visited in Hv as [Hal _].
      exists al. split; [done|]. rewrite (Hfresh al Hal).
      apply elem_of_ids_of. exists al, ar. auto.
  - intros a Ha. rewrite (Hfresh a Ha). apply ids_of_increasing.
    rewrite Hkeys. apply seq_increasing.
Qed.

End EliminationFacts.

Lemma two_rules_convertible (a : nat) :
  a ∈ [0; 1] -> convertible (Model.heap (two_rules [0; 1])) a.
Proof. intros Ha. by apply two_rules_fresh. Qed.

Lemma eliminate_redundant_flags_witness :
  exists w',
    Model.eliminate_redundant mirrored (two_rules [0; 1]) = Some w'
    /\ flag (Model.heap w') 0 = true.
Proof.
  assert (exists w', Model.eliminate_redundant mirrored (two_rules [0; 1])
                     = Some w') as [w' H]
    by (eexists; vm_compute; reflexivity).
  exists w'. split; [exact H|].
  destruct (eliminate_redundant_flags mirrored (two_rules [0; 1]) w' 0
              two_rules_convertible H) as [Hyes _].
  apply Hyes. exists 1. split; [by right; left|]. split; [by left|].
  split; [done|]. vm_compute. reflexivity.
Defined.

Lemma eliminate_redundant_numbering_witness :
  exists w',
    Model.eliminate_redundant mirrored (two_rules [0; 1]) = Some w'
    /\ StronglySorted lt (ids (Model.heap w') 0).
Proof.
  assert (exists w', Model.eliminate_redundant mirrored (two_rules [0; 1])
                     = Some w') as [w' H]
    by (eexists; vm_compute; reflexivity).
  exists w'. split; [exact H|].
  destruct (eliminate_redundant_numbering mirrored (two_rules [0; 1]) w'
              two_rules_fresh H) as [_ Hsorted].
  apply Hsorted. by left.
Defined.

(** ** Context reduction of a model, continued *)

Section ReductionFacts.
Import Atomic Species.

Lemma dict_get_set {V} (k k' : Complex) (v : V) (d : list (Complex * V)) :
  Dict.get k' (Dict.set k v d)
  = if decide (k' = k) then Some v else Dict.get k' d.
Proof.
  induction d as [|[k0 v0] d IH]; simpl.
  - destruct (decide (k' = k)); [done|]. done.
  - destruct (decide (k = k0)) as [->|Hne]; simpl.
    + destruct (decide (k' = k0)); done.
    + destruct (decide (k' = k0)) as [->|Hne'].
      * by rewrite decide_False by done.
      * exact IH.
Qed.

Lemma dict_keys_set {V} (k : Complex) (v : V) (d : list (Complex * V)) :
  Dict.keys (Dict.set k v d)
  = if decide (k ∈ Dict.keys d) then Dict.keys d else Dict.keys d ++ [k].
Proof.
  unfold Dict.keys. induction d as [|[k0 v0] d IH].
  - destruct (decide (k ∈ [].*1)) as [Hin|Hin]; [|done].
    by apply elem_of_nil in Hin.
  - cbn [Dict.set]. destruct (decide (k = k0)) as [->|Hne].
    + rewrite decide_True; [done|]. by left.
    + rewrite fmap_cons, IH. destruct (decide (k ∈ d.*1)) as [Hin|Hin].
      * rewrite decide_True; [done|]. by right.
      * rewrite decide_False; [done|]. by intros [?|?]%elem_of_cons.
Qed.

Lemma dict_set_fresh {V} (k : Complex) (v : V) (d : list (Complex * V)) :
  k ∉ Dict.keys d -> Dict.set k v d = d ++ [(k, v)].
Proof.
  unfold Dict.keys. induction d as [|[k0 v0] d IH]; simpl; intros Hk.
  - done.
  - rewrite decide_False by set_solver. f_equal. apply IH. set_solver.
Qed.

Lemma dict_get_app_l {V} (k : Complex) (pre d : list (Complex * V)) :
  k ∉ Dict.keys pre -> Dict.get k (pre ++ d) = Dict.get k d.
Proof.
  unfold Dict.keys. induction pre as [|[k0 v0] pre IH]; simpl; intros Hk.
  - done.
  - rewrite decide_False by set_solver. apply IH. set_solver.
Qed.

Lemma dict_get_Some_keys {V} (k : Complex) (v : V)
    (d : list (Complex * V)) :
  Dict.get k d = Some v -> k ∈ Dict.keys d.
Proof.
  unfold Dict.keys. induction d as [|[k0 v0] d IH]; simpl; [done|].
  destruct (decide (k = k0)) as [->|]; [by left|]. intros H. right. auto.
Qed.

Lemma species_reduce_context_idempotent (c : Complex) :
  Species.reduce_context (Species.reduce_context c)
  = Species.reduce_context c.
Proof.
  unfold Species.reduce_context. simpl. f_equal.
  rewrite <- list_fmap_compose. by apply list_fmap_ext.
Qed.

(** The loop that fills the new initial state, started from any
    dictionary and run over any list of complexes. *)
Lemma reduce_loop_spec (val : Complex -> Z) (ks : list Complex) :
  forall d : list (Complex * Z),
    let d' := foldl (fun new_init c =>
                       Dict.set (Species.reduce_context c) (val c) new_init)
                    d ks in
    (NoDup (Dict.keys d) -> NoDup (Dict.keys d'))
    /\ (forall G, G ∈ Dict.keys d' <->
          G ∈ Dict.keys d
          \/ exists c, c ∈ ks /\ Species.reduce_context c = G)
    /\ (forall G n, Dict.get G d' = Some n ->
          Dict.get G d = Some n
          \/ exists c, c ∈ ks /\ Species.reduce_context c = G /\ n = val c).
Proof.
  induction ks as [|c ks IH]; intros d; simpl.
  - split; [done|]. split; [|by left].
    intros G. split; [by left|].
    intros [?|(c & ?%elem_of_nil & _)]; done.
  - destruct (IH (Dict.set (Species.reduce_context c) (val c) d))
      as (Hnd & Hkeys & Hget).
    split; [|split].
    + intros Hd. apply Hnd. rewrite dict_keys_set.
      destruct (decide _); [done|].
      apply NoDup_app. split; [done|]. split; [|apply NoDup_singleton].
      intros G HG ->%list_elem_of_singleton. done.
    + intros G. rewrite Hkeys, dict_keys_set. split.
      * intros [HG|(c' & Hc' & <-)].
        -- destruct (decide _); [by left|].
           apply elem_of_app in HG as [?|HG]; [by left|].
           apply list_elem_of_singleton in HG as ->.
           right. exists c. split; [by left|done].
        -- right. exists c'. split; [by right|done].
      * intros [HG|(c' & [->|Hc']%elem_of_cons & <-)].
        -- left. destruct (decide _); [done|]. apply elem_of_app. by left.
        -- left. destruct (decide _); [done|]. apply elem_of_app. right.
           by apply list_elem_of_singleton.
        -- right. by exists c'.
    + intros G n HG. destruct (Hget G n HG) as [H|(c' & Hc' & <- & ->)].
      * rewrite dict_get_set in H.
        destruct (decide (G = Species.reduce_context c)) as [->|];
          [|by left].
        injection H as <-. right. exists c. split; [by left|done].
      * right. exists c'. split; [by right|done].
Qed.

(** A dictionary with reduced, distinct keys is left as it is. *)
Lemma reduce_loop_fixed (d pre suf : list (Complex * Z)) :
  d = pre ++ suf ->
  NoDup (Dict.keys d) ->
  (forall k, k ∈ Dict.keys d -> Species.reduce_context k = k) ->
  foldl (fun new_init c =>
           Dict.set (Species.reduce_context c) (Model.count d c) new_init)
        pre (Dict.keys suf)
  = d.
Proof.
  revert pre. induction suf as [|[k v] suf IH]; intros pre Hd Hnd Hred.
  - simpl. by rewrite Hd, app_nil_r.
  - simpl.
    assert (Hk : k ∉ Dict.keys pre).
    { rewrite Hd in Hnd. unfold Dict.keys in *. rewrite fmap_app in Hnd.
      apply NoDup_app in Hnd as (_ & Hdisj & _). intros Hin.
      apply (Hdisj k Hin). by left. }
    assert (Hkd : k ∈ Dict.keys d).
    { rewrite Hd. unfold Dict.keys. rewrite fmap_app. apply elem_of_app.
      right. by left. }
    assert (Hv : Model.count d k = v).
    { unfold Model.count. rewrite Hd, dict_get_app_l by done.
      simpl. by rewrite decide_True. }
    rewrite (Hred k Hkd), Hv, dict_set_fresh by done.
    apply IH; [|done..]. by rewrite Hd, <- app_assoc.
Qed.

(** X26: the initial state after reduction has one key for every
    complex that is the reduction of an initial complex and no other key;
    the count it stores for a key is the count of one of the initial
    complexes that reduce to it; and reducing it again leaves it as it
    is. *)
Theorem reduce_init_entries (old : list (Complex * Z)) :
  let new := Model.reduce_init old in
  NoDup (Dict.keys new)
  /\ (forall G, G ∈ Dict.keys new <->
        exists c, c ∈ Dict.keys old /\ Species.reduce_context c = G)
  /\ (forall G n, Dict.get G new = Some n ->
        exists c, c ∈ Dict.keys old /\ Species.reduce_context c = G
                  /\ n = Model.count old c)
  /\ Model.reduce_init new = new.
Proof.
  intros new. unfold new, Model.reduce_init.
  destruct (reduce_loop_spec (Model.count old) (Dict.keys old) [])
    as (Hnd & Hkeys & Hget).
  assert (Hnd' := Hnd (NoDup_nil_2)).
  split; [done|]. split; [|split].
  - intros G. rewrite Hkeys. split; [|by right].
    intros [?%elem_of_nil|?]; done.
  - intros G n HG. destruct (Hget G n HG) as [H|H]; [done|exact H].
  - apply (reduce_loop_fixed _ []); [done|done|].
    intros k Hk. apply Hkeys in Hk as [?%elem_of_nil|(c & _ & <-)];
      [done|]. apply species_reduce_context_idempotent.
Qed.

Variable rate_reduce_context : string -> string.
Variable side_strings : Side -> list string.
Variable py_hash : string -> Z.

Lemma rule_eqb_refl (r : Rule.Rule) : Rule.eqb r r = true.
Proof. by apply rule_eqb_fields. Qed.

Lemma rule_eqb_sym (r1 r2 : Rule.Rule) : Rule.eqb r1 r2 = Rule.eqb r2 r1.
Proof.
  destruct (Rule.eqb r1 r2) eqn:H12, (Rule.eqb r2 r1) eqn:H21; try done.
  - apply rule_eqb_fields in H12. rewrite <- H21. symmetry.
    apply rule_eqb_fields. naive_solver.
  - apply rule_eqb_fields in H21. rewrite <- H12.
    apply rule_eqb_fields. naive_solver.
Qed.

Lemma kept_members_allocated h0 h seen members a' :
  kept rate_reduce_context side_strings py_hash h0 h seen members ->
  a' ∈ members -> is_Some (h !! a') /\ h0 !! a' = None.
Proof.
  intros (Hb & _) Ha'. destruct (Hb a' Ha') as (H0 & a & r & _ & _ & H & _).
  split; [by eexists|done].
Qed.

(** Allocating a new rule object keeps what has been kept. *)
Lemma kept_grow h0 h seen members a' r' :
  kept rate_reduce_context side_strings py_hash h0 h seen members ->
  h !! a' = None ->
  kept rate_reduce_context side_strings py_hash h0 (<[a' := r']> h)
       seen members.
Proof.
  intros Hk Hfresh.
  assert (Hsame : forall b, b ∈ members -> <[a' := r']> h !! b = h !! b).
  { intros b Hb.
    destruct (kept_members_allocated _ _ _ _ _ Hk Hb) as [[x Hx] _].
    rewrite lookup_insert_ne; [done|]. intros ->. congruence. }
  destruct Hk as (Hb & Hc & Hd & He). split; [|split; [|split; [|done]]].
  - intros b Hin. destruct (Hb b Hin) as (H0 & a & r & Ha & Hr & Hl & Hm).
    split; [done|]. exists a, r. by rewrite Hsame.
  - intros a r Ha Hr Hm.
    destruct (Hc a r Ha Hr Hm) as (b & rb & Hin & Hl & E).
    exists b, rb. by rewrite Hsame.
  - intros i j a1 a2 r1 r2 Hi Hj Hij H1 H2.
    rewrite Hsame in H1 by (by eapply list_elem_of_lookup_2).
    rewrite Hsame in H2 by (by eapply list_elem_of_lookup_2).
    exact (Hd i j a1 a2 r1 r2 Hi Hj Hij H1 H2).
Qed.

(** A rule whose reduction is dropped, or has the hash of a rule
    already kept and is equal to it, changes nothing. *)
Lemma kept_pass h0 h seen members a r :
  kept rate_reduce_context side_strings py_hash h0 h seen members ->
  h0 !! a = Some r ->
  (Rule.is_meaningful (Rule.reduce_context rate_reduce_context r)
   = Some true ->
   exists b rb,
     b ∈ members /\ h !! b = Some rb
     /\ Rule.hash side_strings py_hash rb
        = Rule.hash side_strings py_hash
            (Rule.reduce_context rate_reduce_context r)
     /\ Rule.eqb rb (Rule.reduce_context rate_reduce_context r) = true) ->
  kept rate_reduce_context side_strings py_hash h0 h (seen ++ [a]) members.
Proof.
  intros (Hb & Hc & Hd & He) Hr Hdup. split; [|split; [|split]].
  - intros b Hin. destruct (Hb b Hin) as (H0 & a0 & r0 & Ha0 & H).
    split; [done|]. exists a0, r0. split; [|done]. apply elem_of_app.
    by left.
  - intros a0 r0 [Ha0|Ha0%list_elem_of_singleton]%elem_of_app Hr0 Hm.
    + by apply (Hc a0 r0).
    + subst a0. rewrite Hr in Hr0. injection Hr0 as <-. by apply Hdup.
  - done.
  - rewrite length_app. simpl. lia.
Qed.

(** A rule whose reduction is meaningful and is equal to no rule with
    its hash kept so far is added. *)
Lemma kept_add h0 h seen members a r a' :
  kept rate_reduce_context side_strings py_hash h0 h seen members ->
  h0 !! a = Some r ->
  Rule.is_meaningful (Rule.reduce_context rate_reduce_context r)
  = Some true ->
  h !! a' = Some (Rule.reduce_context rate_reduce_context r) ->
  h0 !! a' = None ->
  (forall b rb, b ∈ members -> h !! b = Some rb ->
        Rule.hash side_strings py_hash rb
        = Rule.hash side_strings py_hash
            (Rule.reduce_context rate_reduce_context r) ->
        Rule.eqb rb (Rule.reduce_context rate_reduce_context r) = false) ->
  kept rate_reduce_context side_strings py_hash h0 h (seen ++ [a])
       (members ++ [a']).
Proof.
  intros (Hb & Hc & Hd & He) Hr Hm Ha' H0 Hnew.
  split; [|split; [|split]].
  - intros b [Hin|Hin%list_elem_of_singleton]%elem_of_app.
    + destruct (Hb b Hin) as (Hb0 & a0 & r0 & Ha0 & H).
      split; [done|]. exists a0, r0. split; [|done]. apply elem_of_app.
      by left.
    + subst b. split; [done|]. exists a, r. split; [|done].
      apply elem_of_app. right. by apply list_elem_of_singleton.
  - intros a0 r0 [Ha0|Ha0%list_elem_of_singleton]%elem_of_app Hr0 Hm0.
    + destruct (Hc a0 r0 Ha0 Hr0 Hm0) as (b & rb & Hin & Hl & E).
      exists b, rb. split; [|done]. apply elem_of_app. by left.
    + subst a0. rewrite Hr in Hr0. injection Hr0 as <-.
      exists a', (Rule.reduce_context rate_reduce_context r).
      split; [|split; [done|split; [done|apply rule_eqb_refl]]].
      apply elem_of_app. right. by apply list_elem_of_singleton.
  - intros i j a1 a2 r1 r2 Hi Hj Hij H1 H2 Hh.
    destruct (decide (i < length members)) as [Hil|Hil],
             (decide (j < length members)) as [Hjl|Hjl].
    + rewrite lookup_app_l in Hi, Hj by done.
      exact (Hd i j a1 a2 r1 r2 Hi Hj Hij H1 H2 Hh).
    + rewrite lookup_app_l in Hi by done.
      rewrite lookup_app_r in Hj by lia.
      apply list_lookup_singleton_Some in Hj as [_ <-].
      rewrite Ha' in H2. injection H2 as <-.
      eapply Hnew; [|done..]. by eapply list_elem_of_lookup_2.
    + rewrite lookup_app_l in Hj by done.
      rewrite lookup_app_r in Hi by lia.
      apply list_lookup_singleton_Some in Hi as [_ <-].
      rewrite Ha' in H1. injection H1 as <-. rewrite rule_eqb_sym.
      eapply Hnew; [|done..]. by eapply list_elem_of_lookup_2.
    + rewrite lookup_app_r in Hi, Hj by lia.
      apply list_lookup_singleton_Some in Hi as [Hi _].
      apply list_lookup_singleton_Some in Hj as [Hj _]. lia.
  - rewrite !length_app. simpl. lia.
Qed.

(** The loop over the rules keeps, of the rules it has seen, one
    representative of each class of equal meaningful reductions with one
    hash. *)
Lemma reduce_rules_kept (h0 : gmap nat Rule.Rule) (todo : list nat) :
  (forall a, a ∈ todo -> convertible h0 a) ->
  forall h members seen h' members',
    h0 ⊆ h ->
    kept rate_reduce_context side_strings py_hash h0 h seen members ->
    Model.reduce_rules rate_reduce_context side_strings py_hash todo
      (h, members)
    = Some (h', members') ->
    kept rate_reduce_context side_strings py_hash h0 h' (seen ++ todo)
         members'.
Proof.
  induction todo as [|a todo IH];
    intros Hok h members seen h' members' Hsub Hk Hrun.
  - simpl in Hrun. injection Hrun as <- <-. by rewrite app_nil_r.
  - destruct (Hok a) as (r & Hr & Hx); [by left|].
    destruct (to_reaction_reduce_context rate_reduce_context r Hx)
      as [rx Hrx].
    rewrite (reduce_rules_step rate_reduce_context side_strings py_hash
               a todo h members r rx
               (lookup_weaken _ _ _ _ Hr Hsub) Hrx) in Hrun.
    cbv zeta in Hrun.
    set (r' := Rule.reduce_context rate_reduce_context r) in *.
    set (a' := fresh (dom h)) in *.
    assert (Ha' : h !! a' = None) by apply not_elem_of_dom, is_fresh.
    assert (Ha0 : h0 !! a' = None) by (by eapply lookup_weaken_None).
    assert (Hsub' : h0 ⊆ <[a' := r']> h).
    { etrans; [exact Hsub|]. by apply insert_subseteq. }
    assert (Hm : Rule.is_meaningful r'
                 = Some (negb (bool_decide (lhs rx = rhs rx)))).
    { unfold Rule.is_meaningful. by rewrite Hrx. }
    pose proof (kept_grow h0 h seen members a' r' Hk Ha') as Hk'.
    replace (seen ++ a :: todo) with ((seen ++ [a]) ++ todo)
      by (by rewrite <- app_assoc).
    assert (Hok' : forall b, b ∈ todo -> convertible h0 b).
    { intros b Hb. apply Hok. by right. }
    destruct (negb (bool_decide (lhs rx = rhs rx))) eqn:Hmean.
    + unfold Model.set_add in Hrun.
      destruct (hash_is_Some side_strings py_hash r') as [key Hkey];
        [by eexists|].
      rewrite Hkey in Hrun. cbn [mbind option_bind] in Hrun.
      destruct (existsb _ members) eqn:Hex.
      * eapply (IH Hok' _ _ _ _ _ Hsub'); [|exact Hrun].
        eapply kept_pass; [exact Hk'|exact Hr|]. intros _.
        apply existsb_exists in Hex as (b & Hb%list_elem_of_In & E).
        destruct (<[a' := r']> h !! b) as [rb|] eqn:Hlb; [|done].
        simpl in E. apply andb_true_iff in E as [Eh%bool_decide_eq_true E].
        exists b, rb. fold r'. rewrite Hkey. done.
      * eapply (IH Hok' _ _ _ _ _ Hsub'); [|exact Hrun].
        eapply kept_add; [exact Hk'|exact Hr|exact Hm| |exact Ha0|].
        { by rewrite lookup_insert_eq. }
        intros b rb Hb Hlb Hh. fold r' in Hh |- *.
        destruct (Rule.eqb rb r') eqn:E; [|done].
        assert (existsb
                  (fun b =>
                     from_option
                       (fun member =>
                          bool_decide (Rule.hash side_strings py_hash member
                                       = Some key)
                          && Rule.eqb member r')
                       false (<[a' := r']> h !! b)) members = true)
          as Hex'.
        { apply existsb_exists. exists b. split; [by apply list_elem_of_In|].
          rewrite Hlb. simpl. rewrite E, andb_true_r.
          apply bool_decide_eq_true. congruence. }
        congruence.
    + eapply (IH Hok' _ _ _ _ _ Hsub'); [|exact Hrun].
      eapply kept_pass; [exact Hk'|exact Hr|]. intros Hc.
      fold r' in Hc. rewrite Hm in Hc. done.
Qed.

(** X25 (Model.reduce_context, the loop over the rules): on a model
    whose rules convert to reactions, the rules of the reduced model are
    new objects, each the reduction of a rule of the model and
    meaningful; every rule of the model whose reduction is meaningful has
    among them a rule with the hash of its reduction that is equal to
    it; no two of them have one hash and are equal, so none of them is
    there twice; and they are at most as many as the rules of the
    model. *)
Theorem reduce_context_rules (w w' : Model.World) :
  (forall a, a ∈ Model.rules (Model.model w) ->
             convertible (Model.heap w) a) ->
  Model.reduce_context rate_reduce_context side_strings py_hash w
  = Some w' ->
  (forall a', a' ∈ Model.rules (Model.model w') ->
     Model.heap w !! a' = None
     /\ exists a r,
         a ∈ Model.rules (Model.model w)
         /\ Model.heap w !! a = Some r
         /\ Model.heap w' !! a'
            = Some (Rule.reduce_context rate_reduce_context r)
         /\ Rule.is_meaningful (Rule.reduce_context rate_reduce_context r)
            = Some true)
  /\ (forall a r,
        a ∈ Model.rules (Model.model w) ->
        Model.heap w !! a = Some r ->
        Rule.is_meaningful (Rule.reduce_context rate_reduce_context r)
        = Some true ->
        exists a' r',
          a' ∈ Model.rules (Model.model w')
          /\ Model.heap w' !! a' = Some r'
          /\ Rule.hash side_strings py_hash r'
             = Rule.hash side_strings py_hash
                 (Rule.reduce_context rate_reduce_context r)
          /\ Rule.eqb r' (Rule.reduce_context rate_reduce_context r) = true)
  /\ (forall i j a1 a2 r1 r2,
        Model.rules (Model.model w') !! i = Some a1 ->
        Model.rules (Model.model w') !! j = Some a2 ->
        i <> j ->
        Model.heap w' !! a1 = Some r1 ->
        Model.heap w' !! a2 = Some r2 ->
        (Rule.hash side_strings py_hash r1
         = Rule.hash side_strings py_hash r2 ->
         Rule.eqb r1 r2 = false)
        /\ r1 <> r2)
  /\ length (Model.rules (Model.model w'))
     <= length (Model.rules (Model.model w)).
Proof.
  intros Hok Hrun. unfold Model.reduce_context in Hrun.
  destruct (Model.reduce_rules rate_reduce_context side_strings py_hash
              (Model.rules (Model.model w)) (Model.heap w, []))
    as [[h' members']|] eqn:Hloop; [|done].
  cbn [mbind option_bind fst snd] in Hrun. injection Hrun as <-.
  cbn [Model.heap Model.model Model.rules].
  assert (Hstart : kept rate_reduce_context side_strings py_hash
                     (Model.heap w) (Model.heap w) [] []).
  { split; [|split; [|split; [|done]]].
    - intros ? H. by apply elem_of_nil in H.
    - intros ? ? H. by apply elem_of_nil in H.
    - intros i j ? ? ? ? H. by rewrite lookup_nil in H. }
  destruct (reduce_rules_kept (Model.heap w) (Model.rules (Model.model w))
              Hok (Model.heap w) [] [] h' members' (reflexivity _) Hstart
              Hloop) as (Hb & Hc & Hd & He).
  split; [exact Hb|]. split; [exact Hc|]. split; [|exact He].
  intros i j a1 a2 r1 r2 Hi Hj Hij H1 H2.
  pose proof (Hd i j a1 a2 r1 r2 Hi Hj Hij H1 H2) as Hne.
  split; [exact Hne|]. intros ->.
  rewrite rule_eqb_refl in Hne. by discriminate Hne.
Qed.

End ReductionFacts.

Lemma two_turns_convertible (a : nat) :
  a ∈ [0; 1] -> convertible (Model.heap two_turns) a.
Proof.
  intros Ha. apply elem_of_cons in Ha as [->|Ha].
  - eexists. split; [reflexivity|]. eexists. reflexivity.
  - apply list_elem_of_singleton in Ha as ->.
    eexists. split; [reflexivity|]. eexists. reflexivity.
Qed.

Lemma reduce_context_rules_witness :
  exists w',
    Model.reduce_context (fun s => s) side_names length_hash two_turns
    = Some w'
    /\ Model.rules (Model.model w') = [2]
    /\ exists a' r',
        a' ∈ Model.rules (Model.model w')
        /\ Model.heap w' !! a' = Some r'
        /\ Rule.hash side_names length_hash r'
           = Rule.hash side_names length_hash
               (Rule.reduce_context (fun s => s) rule_turn_u)
        /\ Rule.eqb r' (Rule.reduce_context (fun s => s) rule_turn_u)
           = true.
Proof.
  assert (exists w',
             Model.reduce_context (fun s => s) side_names length_hash
               two_turns = Some w'
             /\ Model.rules (Model.model w') = [2]) as (w' & H & Hrules)
    by (eexists; split; vm_compute; reflexivity).
  exists w'. split; [exact H|]. split; [exact Hrules|].
  destruct (reduce_context_rules (fun s => s) side_names length_hash
              two_turns w' two_turns_convertible H) as (_ & Hcover & _).
  apply (Hcover 1 rule_turn_u); [by right; left|reflexivity|].
  vm_compute. reflexivity.
Defined.

(** ** Complexes and compartments of the rules *)

Section ExportFacts.
Import Atomic Species.

Lemma span_fold_None (rule : Rule.Rule) (spans : list (nat * nat)) :
  foldl (fun acc agent_indexes =>
           unique_complexes ← acc;
           parts ← Model.span_parts rule agent_indexes;
           Some ({[ parts ]} ∪ unique_complexes))
        (None : option (gset (string * list AtomicAgent))) spans = None.
Proof. induction spans as [|s spans IH]; [done|exact IH]. Qed.

Lemma span_fold_spec (rule : Rule.Rule) (spans : list (nat * nat))
    (U0 : gset (string * list AtomicAgent)) :
  match foldl (fun acc agent_indexes =>
                 unique_complexes ← acc;
                 parts ← Model.span_parts rule agent_indexes;
                 Some ({[ parts ]} ∪ unique_complexes))
              (Some U0) spans with
  | Some U =>
      (forall s, s ∈ spans -> is_Some (Model.span_parts rule s))
      /\ forall parts,
          parts ∈ U <->
          parts ∈ U0
          \/ exists s, s ∈ spans /\ Model.span_parts rule s = Some parts
  | None => exists s, s ∈ spans /\ Model.span_parts rule s = None
  end.
Proof.
  revert U0. induction spans as [|s spans IH]; intros U0.
  - simpl. split; [intros s Hs; by apply elem_of_nil in Hs|].
    intros parts. split; [by left|]. intros [H|(s & Hs & _)]; [done|].
    by apply elem_of_nil in Hs.
  - cbn [foldl mbind option_bind].
    destruct (Model.span_parts rule s) as [p|] eqn:Hp.
    + cbn [mbind option_bind]. specialize (IH ({[ p ]} ∪ U0)).
      destruct (foldl _ _ spans) as [U|].
      * destruct IH as [Hall Hmem]. split.
        { intros s' [->|Hs']%elem_of_cons; [by eexists|by apply Hall]. }
        intros parts. rewrite Hmem. split.
        { intros [[->%elem_of_singleton|H]%elem_of_union|(s' & Hs' & E)].
          - right. exists s. split; [by left|done].
          - by left.
          - right. exists s'. split; [by right|done]. }
        intros [H|(s' & [->|Hs']%elem_of_cons & E)].
        { left. apply elem_of_union. by right. }
        { left. apply elem_of_union. left. apply elem_of_singleton.
          congruence. }
        right. by exists s'.
      * destruct IH as (s' & Hs' & E). exists s'. split; [by right|done].
    + cbn [mbind option_bind]. rewrite span_fold_None.
      exists s. split; [by left|done].
Qed.

Lemma rules_fold_None (rule_objects : list Rule.Rule) :
  foldl (fun acc rule =>
           foldl (fun acc agent_indexes =>
                    unique_complexes ← acc;
                    parts ← Model.span_parts rule agent_indexes;
                    Some ({[ parts ]} ∪ unique_complexes))
                 acc (Rule.complexes rule))
        (None : option (gset (string * list AtomicAgent))) rule_objects
  = None.
Proof.
  induction rule_objects as [|r rs IH]; [done|]. cbn [foldl].
  by rewrite span_fold_None.
Qed.

Lemma rules_fold_spec (rule_objects : list Rule.Rule)
    (U0 : gset (string * list AtomicAgent)) :
  match foldl (fun acc rule =>
                 foldl (fun acc agent_indexes =>
                          unique_complexes ← acc;
                          parts ← Model.span_parts rule agent_indexes;
                          Some ({[ parts ]} ∪ unique_complexes))
                       acc (Rule.complexes rule))
              (Some U0) rule_objects with
  | Some U =>
      (forall rule s, rule ∈ rule_objects -> s ∈ Rule.complexes rule ->
                      is_Some (Model.span_parts rule s))
      /\ forall parts,
          parts ∈ U <->
          parts ∈ U0
          \/ exists rule s,
              rule ∈ rule_objects /\ s ∈ Rule.complexes rule
              /\ Model.span_parts rule s = Some parts
  | None =>
      exists rule s,
        rule ∈ rule_objects /\ s ∈ Rule.complexes rule
        /\ Model.span_parts rule s = None
  end.
Proof.
  revert U0. induction rule_objects as [|r rs IH]; intros U0.
  - simpl. split; [intros ? ? H; by apply elem_of_nil in H|].
    intros parts. split; [by left|]. intros [H|(r & s & Hr & _)]; [done|].
    by apply elem_of_nil in Hr.
  - cbn [foldl]. pose proof (span_fold_spec r (Rule.complexes r) U0) as Hr.
    destruct (foldl _ (Some U0) (Rule.complexes r)) as [U1|].
    + destruct Hr as [Hall1 Hmem1]. specialize (IH U1).
      destruct (foldl _ (Some U1) rs) as [U|].
      * destruct IH as [Hall Hmem]. split.
        { intros rule s [->|Hin]%elem_of_cons Hs;
            [by apply Hall1|by eapply Hall]. }
        intros parts. rewrite Hmem, Hmem1. split.
        { intros [[H|(s & Hs & E)]|(rule & s & Hin & Hs & E)].
          - by left.
          - right. exists r, s. split; [by left|done].
          - right. exists rule, s. split; [by right|done]. }
        intros [H|(rule & s & [->|Hin]%elem_of_cons & Hs & E)].
        { left. by left. }
        { left. right. by exists s. }
        right. by exists rule, s.
      * destruct IH as (rule & s & Hin & Hs & E).
        exists rule, s. split; [by right|done].
    + rewrite rules_fold_None. destruct Hr as (s & Hs & E).
      exists r, s. split; [by left|done].
Qed.

(** What a span contributes: for a span of one agent the compartment at
    index 0 and that agent; otherwise the compartment of the first agent
    of the span and the two agents at its ends. *)
Lemma span_parts_Some (rule : Rule.Rule) (f t : nat) (comp : string)
    (ags : list AtomicAgent) :
  Model.span_parts rule (f, t) = Some (comp, ags) <->
  (f = t /\ Rule.compartments rule !! 0 = Some comp
   /\ exists a, Rule.agents rule !! f = Some a /\ ags = [a])
  \/ (f <> t /\ Rule.compartments rule !! f = Some comp
      /\ exists a b,
          Rule.agents rule !! f = Some a /\ Rule.agents rule !! t = Some b
          /\ ags = [a; b]).
Proof.
  unfold Model.span_parts. cbn [fst snd]. case_bool_decide as Hft.
  - subst t. destruct (Rule.compartments rule !! 0) as [c|];
      cbn [mbind option_bind].
    + destruct (Rule.agents rule !! f) as [a|]; cbn [mbind option_bind].
      * split.
        { intros [= <- <-]. left. split; [done|]. split; [done|].
          by exists a. }
        intros [(_ & [= <-] & a' & [= <-] & ->)|(Hne & _)]; [done|].
        by destruct Hne.
      * split; [done|].
        intros [(_ & _ & a' & [=] & _)|(Hne & _)]. by destruct Hne.
    + split; [done|]. intros [(_ & [=] & _)|(Hne & _)]. by destruct Hne.
  - destruct (Rule.compartments rule !! f) as [c|];
      cbn [mbind option_bind].
    + destruct (Rule.agents rule !! f) as [a|]; cbn [mbind option_bind].
      * destruct (Rule.agents rule !! t) as [b|]; cbn [mbind option_bind].
        { split.
          - intros [= <- <-]. right. split; [done|]. split; [done|].
            by exists a, b.
          - intros [(E & _)|(_ & [= <-] & a' & b' & [= <-] & [= <-] & ->)];
              [done|done]. }
        split; [done|].
        intros [(E & _)|(_ & _ & a' & b' & _ & [=] & _)]. done.
      * split; [done|].
        intros [(E & _)|(_ & _ & a' & b' & [=] & _)]. done.
    + split; [done|]. intros [(E & _)|(_ & [=] & _)]. done.
Qed.

(** X27 (Model.unique_complexes_and_compartments): the tuples of the
    returned set are exactly those of the spans of the rules.  A span of
    one agent gives the compartment at index 0 of its rule, whatever its
    own index, with that agent; a longer span gives the compartment of
    its first agent with the agents at its two ends, and none of the
    agents between them. *)
Theorem unique_complexes_and_compartments_members
    (rule_objects : list Rule.Rule)
    (U : gset (string * list AtomicAgent))
    (comp : string) (ags : list AtomicAgent) :
  Model.unique_complexes_and_compartments rule_objects = Some U ->
  (comp, ags) ∈ U <->
  exists rule f t,
    rule ∈ rule_objects /\ (f, t) ∈ Rule.complexes rule
    /\ ((f = t /\ Rule.compartments rule !! 0 = Some comp
         /\ exists a, Rule.agents rule !! f = Some a /\ ags = [a])
        \/ (f <> t /\ Rule.compartments rule !! f = Some comp
            /\ exists a b,
                Rule.agents rule !! f = Some a
                /\ Rule.agents rule !! t = Some b
                /\ ags = [a; b])).
Proof.
  unfold Model.unique_complexes_and_compartments. intros HU.
  pose proof (rules_fold_spec rule_objects ∅) as H. rewrite HU in H.
  destruct H as [_ Hmem]. rewrite Hmem. split.
  - intros [H|(rule & [f t] & Hin & Hs & E)].
    { by apply not_elem_of_empty in H. }
    exists rule, f, t. split; [done|]. split; [done|].
    by apply span_parts_Some.
  - intros (rule & f & t & Hin & Hs & E). right. exists rule, (f, t).
    split; [done|]. split; [done|]. by apply span_parts_Some.
Qed.

(** X28 (Model.unique_complexes_and_compartments): the function raises
    an IndexError exactly when some span of some rule has an end that is
    no position of an agent, or, for a span of one agent, the rule has no
    compartment at all, or, for a longer span, no compartment at the
    index of its first agent. *)
Theorem unique_complexes_and_compartments_raises
    (rule_objects : list Rule.Rule) :
  Model.unique_complexes_and_compartments rule_objects = None <->
  exists rule f t,
    rule ∈ rule_objects /\ (f, t) ∈ Rule.complexes rule
    /\ (length (Rule.agents rule) <= f
        \/ length (Rule.agents rule) <= t
        \/ (f = t /\ Rule.compartments rule = [])
        \/ (f <> t /\ length (Rule.compartments rule) <= f)).
Proof.
  assert (Hspan : forall rule f t,
             Model.span_parts rule (f, t) = None <->
             length (Rule.agents rule) <= f
             \/ length (Rule.agents rule) <= t
             \/ (f = t /\ Rule.compartments rule = [])
             \/ (f <> t /\ length (Rule.compartments rule) <= f)).
  { intros rule f t. unfold Model.span_parts. cbn [fst snd].
    case_bool_decide as Hft.
    - subst t. destruct (Rule.compartments rule) as [|c cs] eqn:Hc;
        cbn [lookup list_lookup mbind option_bind].
      + split; [|done]. intros _. right. right. left. done.
      + destruct (Rule.agents rule !! f) as [a|] eqn:Ha;
          cbn [mbind option_bind].
        * apply lookup_lt_Some in Ha. split; [done|].
          intros [H|[H|[[_ [=]]|[Hne _]]]]; [lia|lia|by destruct Hne].
        * apply lookup_ge_None in Ha. split; [|done]. intros _. by left.
    - destruct (Rule.compartments rule !! f) as [c|] eqn:Hc;
        cbn [mbind option_bind].
      + apply lookup_lt_Some in Hc.
        destruct (Rule.agents rule !! f) as [a|] eqn:Ha;
          cbn [mbind option_bind].
        * apply lookup_lt_Some in Ha.
          destruct (Rule.agents rule !! t) as [b|] eqn:Hb;
            cbn [mbind option_bind].
          { apply lookup_lt_Some in Hb. split; [done|].
            intros [H|[H|[[E _]|[_ H]]]]; [lia|lia|done|lia]. }
          apply lookup_ge_None in Hb. split; [|done]. intros _.
          right. by left.
        * apply lookup_ge_None in Ha. split; [|done]. intros _. by left.
      + apply lookup_ge_None in Hc. split; [|done]. intros _.
        right. right. right. done. }
  unfold Model.unique_complexes_and_compartments.
  pose proof (rules_fold_spec rule_objects ∅) as H.
  destruct (foldl _ (Some ∅) rule_objects) as [U|].
  - destruct H as [Hall _]. split; [done|].
    intros (rule & f & t & Hin & Hs & E). apply Hspan in E.
    destruct (Hall rule (f, t) Hin Hs) as [x Hx]. congruence.
  - destruct H as (rule & [f t] & Hin & Hs & E). split; [|done].
    intros _. exists rule, f, t. split; [done|]. split; [done|].
    by apply Hspan.
Qed.

End ExportFacts.

Lemma unique_complexes_and_compartments_members_witness :
  exists U,
    Model.unique_complexes_and_compartments [rule_decay] = Some U
    /\ ("cyt", [Atomic.mkAtomic "A" "u"]) ∈ U.
Proof.
  assert (exists U, Model.unique_complexes_and_compartments [rule_decay]
                    = Some U) as [U H]
    by (eexists; vm_compute; reflexivity).
  exists U. split; [exact H|].
  apply (unique_complexes_and_compartments_members [rule_decay] U "cyt"
           [Atomic.mkAtomic "A" "u"] H).
  exists rule_decay, 1, 1. split; [by left|]. split; [by right; left|].
  left. split; [done|]. split; [done|]. by eexists.
Defined.

(** ** The values that a rate is evaluated on *)

Section RateFacts.
Import Atomic Species.

Variable complex_compatible : Complex -> Complex -> bool.

Lemma rate_values_item (item : Complex * Z) (agents : list Complex)
    (values : list (Complex * Z)) (a : Complex) :
  Dict.get a
    (foldl (fun values agent =>
              if complex_compatible agent item.1
              then Dict.set agent item.2 values
              else values)
           values agents)
  = if decide (a ∈ agents /\ complex_compatible a item.1 = true)
    then Some item.2 else Dict.get a values.
Proof.
  revert values. induction agents as [|x agents IH]; intros values.
  - cbn [foldl]. case_decide as H; [|done]. destruct H as [H _].
    by apply elem_of_nil in H.
  - cbn [foldl]. rewrite IH.
    destruct (decide (a ∈ agents /\ complex_compatible a item.1 = true))
      as [[Hin Hc]|Hno].
    + case_decide as H; [done|]. destruct H. split; [by right|done].
    + destruct (complex_compatible x item.1) eqn:Hx.
      * rewrite dict_get_set. destruct (decide (a = x)) as [->|Hne].
        { case_decide as H; [done|]. destruct H. split; [by left|done]. }
        case_decide as H; [|done].
        destruct H as [[->|Hin]%elem_of_cons Hc]; [done|].
        destruct Hno. done.
      * case_decide as H; [|done].
        destruct H as [[->|Hin]%elem_of_cons Hc]; [congruence|].
        destruct Hno. done.
Qed.

Lemma rate_values_from (agents : list Complex) (state : list (Complex * Z))
    (values : list (Complex * Z)) (a : Complex) :
  Dict.get a
    (foldl (fun values item =>
              foldl (fun values agent =>
                       if complex_compatible agent item.1
                       then Dict.set agent item.2 values
                       else values)
                    values agents)
           values state)
  = if decide (a ∈ agents)
    then from_option Some (Dict.get a values)
           (last (filter (fun item => complex_compatible a item.1 = true)
                         state).*2)
    else Dict.get a values.
Proof.
  revert values. induction state as [|item state IH]; intros values.
  - simpl. by destruct (decide (a ∈ agents)).
  - cbn [foldl]. rewrite IH, rate_values_item, filter_cons.
    destruct (decide (a ∈ agents)) as [Hin|Hout].
    + destruct (decide (complex_compatible a item.1 = true)) as [Hc|Hc].
      * case_decide as H; [|by destruct H].
        rewrite fmap_cons, last_cons. by destruct (last _).
      * case_decide as H; [by destruct H|done].
    + case_decide as H; [by destruct H|done].
Qed.

(** X29 (Rule.evaluate_rate): the dictionary that the rate is evaluated
    on has an entry for an agent of the rate exactly when some complex of
    the state is compatible with it, and the entry is the count of the
    last such complex in the iteration over the state: counts of several
    compatible complexes are not added up. *)
Theorem rate_values_last_compatible (agents : list Complex)
    (state : list (Complex * Z)) (a : Complex) :
  Dict.get a (Rates.rate_values complex_compatible agents state)
  = if decide (a ∈ agents)
    then last (filter (fun item => complex_compatible a item.1 = true)
                      state).*2
    else None.
Proof.
  unfold Rates.rate_values. rewrite rate_values_from. simpl.
  destruct (decide (a ∈ agents)); [|done]. by destruct (last _).
Qed.

End RateFacts.

(** ** Objects/Rule.py against Core/Rule.py *)

Section ObjectsFacts.
Import Atomic Species.

Lemma objects_loop_agree (r : Rule.Rule) (rate : string)
    (spans : list (nat * nat)) (l1 l2 : list Complex) :
  Objects.create_complexes_loop (as_object r rate) spans
    (fmap (M := list) as_counter l1) (fmap (M := list) as_counter l2)
  = fmap (M := option)
      (fun sides : list Complex * list Complex =>
         (fmap (M := list) as_counter sides.1,
          fmap (M := list) as_counter sides.2))
      (Rule.create_complexes_loop r spans l1 l2).
Proof.
  revert l1 l2. induction spans as [|[f t] spans IH]; intros l1 l2.
  - reflexivity.
  - cbn [Objects.create_complexes_loop Rule.create_complexes_loop].
    change (Objects.compartments (as_object r rate))
      with (Rule.compartments r).
    change (Objects.agents (as_object r rate)) with (Rule.agents r).
    change (Objects.mid (as_object r rate)) with (Rule.mid r).
    destruct (Rule.compartments r !! f) as [comp|];
      cbn [mbind option_bind]; [|done].
    change (list_to_set_disj (Rule.slice (Rule.agents r) f t), comp)
      with (as_counter (mkComplex (Rule.slice (Rule.agents r) f t) comp)).
    case_bool_decide.
    + rewrite <- (IH (l1 ++ [mkComplex (Rule.slice (Rule.agents r) f t)
                                       comp]) l2).
      by rewrite fmap_app.
    + rewrite <- (IH l1 (l2 ++ [mkComplex (Rule.slice (Rule.agents r) f t)
                                          comp])).
      by rewrite fmap_app.
Qed.

(** X30 (Objects.Rule.create_complexes against Core's
    Rule.create_complexes): on the same agents, compartments, spans and
    [mid], whatever the rates, the older class raises when the newer one
    does, and otherwise returns, side by side and in the same order, the
    complexes of the newer one with the agents of each counted instead of
    listed. *)
Theorem objects_create_complexes_agree (r : Rule.Rule) (rate : string) :
  Objects.create_complexes (as_object r rate)
  = fmap (M := option)
      (fun sides : list Complex * list Complex =>
         (fmap (M := list) as_counter sides.1,
          fmap (M := list) as_counter sides.2))
      (Rule.create_complexes_loop r (Rule.complexes r) [] []).
Proof.
  exact (objects_loop_agree r rate (Rule.complexes r) [] []).
Qed.

End ObjectsFacts.
